(** * Matching core of the exchange: order model, order book, matcher

    A shallow embedding of [models.py], [orderbook.py] and [matcher.py].

    Python [Order] objects are mutable and shared: the caller keeps the
    object it submits, the book stores the same object under its id, and
    the matcher updates both through either handle.  The embedding keeps
    this sharing: a [World] is an object store ([heap], from object
    references to [Order] records) together with the [OrderBook], whose
    authoritative map sends an order id to a reference, and whose price
    queues hold order ids. *)

From stdpp Require Import gmap strings list fin_maps functions sorting.

Open Scope Z_scope.

(** ** models.py *)

Inductive Side := BUY | SELL.

Inductive OrderType := LIMIT | MARKET.

Inductive OrderStatus := NEW | RESTING | PARTIAL | FILLED | CANCELED | REJECTED.

#[global] Instance Side_eq_dec : EqDecision Side.
Proof. solve_decision. Defined.

#[global] Instance OrderType_eq_dec : EqDecision OrderType.
Proof. solve_decision. Defined.

#[global] Instance OrderStatus_eq_dec : EqDecision OrderStatus.
Proof. solve_decision. Defined.

(** The dataclass [Order].  [price_cents] and [client_order_id] are
    [Optional]; [remaining_qty], [status] and [active] are the fields the
    engine writes. *)
Record Order := mkOrder {
  user_id : string;
  symbol : string;
  side : Side;
  type : OrderType;
  qty : Z;
  price_cents : option Z;
  client_order_id : option string;
  order_id : string;
  created_ms : Z;
  remaining_qty : Z;
  status : OrderStatus;
  active : bool
}.

(** The frozen dataclass [Trade]; its fields [symbol], [price_cents] and
    [qty] are [t_symbol], [t_price] and [t_qty] here, the plain names being
    taken by [Order].  [trade_id] and [ts_ms] come from
    [uuid.uuid4] and the wall clock; no property below reads them, and they
    are left out of the record.  [t_price] copies the maker's [price_cents] without a
    check (the assignment carries a [type: ignore]), so it has the maker's
    optional type. *)
Record Trade := mkTrade {
  t_symbol : string;
  t_price : option Z;
  t_qty : Z;
  maker_order_id : string;
  taker_order_id : string
}.

Inductive exn :=
  | ValueError (msg : string)
  | TypeError.

(** Outcome of a call: a value, a Python exception, or the exhaustion of
    the recursion budget of the model ([Timeout]). *)
Inductive result (A : Type) :=
  | Ok (a : A)
  | Raise (e : exn)
  | Timeout.

Arguments Ok {A} a.
Arguments Raise {A} e.
Arguments Timeout {A}.

#[global] Instance result_ret : MRet result := λ A a, Ok a.

#[global] Instance result_bind : MBind result := λ A B k m,
  match m with
  | Ok a => k a
  | Raise e => Raise e
  | Timeout => Timeout
  end.

(** [Order.__post_init__]: the validation every constructed order has
    passed.  [status] and [active] take their defaults. *)
Definition new_order (uid sym : string) (sd : Side) (ty : OrderType) (q : Z)
    (price : option Z) (coid : option string) (oid : string) (ms : Z)
    : result Order :=
  if bool_decide (q ≤ 0) then Raise (ValueError "qty must be > 0")
  else
    let o := mkOrder uid sym sd ty q price coid oid ms q NEW true in
    match ty, price with
    | LIMIT, None => Raise (ValueError "LIMIT orders require price_cents > 0")
    | LIMIT, Some p =>
        if bool_decide (p ≤ 0)
        then Raise (ValueError "LIMIT orders require price_cents > 0")
        else Ok o
    | MARKET, Some _ =>
        Raise (ValueError "MARKET orders must not specify price_cents")
    | MARKET, None => Ok o
    end.

(** Field assignments [o.remaining_qty = v], [o.status = v], [o.active = v]. *)
Definition set_remaining_qty (v : Z) (o : Order) : Order :=
  mkOrder (user_id o) (symbol o) (side o) (type o) (qty o) (price_cents o)
    (client_order_id o) (order_id o) (created_ms o) v (status o) (active o).

Definition set_status (v : OrderStatus) (o : Order) : Order :=
  mkOrder (user_id o) (symbol o) (side o) (type o) (qty o) (price_cents o)
    (client_order_id o) (order_id o) (created_ms o) (remaining_qty o) v
    (active o).

Definition set_active (v : bool) (o : Order) : Order :=
  mkOrder (user_id o) (symbol o) (side o) (type o) (qty o) (price_cents o)
    (client_order_id o) (order_id o) (created_ms o) (remaining_qty o)
    (status o) v.

(** ** orderbook.py *)

(** A reference to an [Order] object. *)
Definition ref := nat.

Bind Scope nat_scope with ref.

(** The attributes of [OrderBook]: [book_symbol] is its [symbol],
    [orders] maps an order id to the object stored under it, [bids] and [asks] map a price to its FIFO queue of
    order ids, [bid_prices] and [ask_prices] are the ascending price
    lists. *)
Record OrderBook := mkBook {
  book_symbol : string;
  orders : gmap string ref;
  bids : gmap Z (list string);
  asks : gmap Z (list string);
  bid_prices : list Z;
  ask_prices : list Z
}.

(** The object store and the book.  Every object the caller will ever
    construct is in [heap] from the start; an object the engine has not
    been handed yet is simply never read or written. *)
Record World := mkWorld {
  heap : ref → Order;
  book : OrderBook
}.

Definition set_heap (h : ref → Order) (w : World) : World := mkWorld h (book w).
Definition set_book (b : OrderBook) (w : World) : World := mkWorld (heap w) b.

(** In-place update of the object behind [r]. *)
Definition upd (r : ref) (f : Order → Order) (h : ref → Order) : ref → Order :=
  <[r := f (h r)]> h.

Definition empty_book (sym : string) : OrderBook := mkBook sym ∅ ∅ ∅ [] [].

(** [self.bids if side == Side.BUY else self.asks], and the like for the
    price lists. *)
Definition levels (s : Side) (b : OrderBook) : gmap Z (list string) :=
  match s with BUY => bids b | SELL => asks b end.

Definition prices (s : Side) (b : OrderBook) : list Z :=
  match s with BUY => bid_prices b | SELL => ask_prices b end.

Definition set_levels (s : Side) (m : gmap Z (list string)) (b : OrderBook)
    : OrderBook :=
  match s with
  | BUY => mkBook (book_symbol b) (orders b) m (asks b) (bid_prices b) (ask_prices b)
  | SELL => mkBook (book_symbol b) (orders b) (bids b) m (bid_prices b) (ask_prices b)
  end.

Definition set_prices (s : Side) (l : list Z) (b : OrderBook) : OrderBook :=
  match s with
  | BUY => mkBook (book_symbol b) (orders b) (bids b) (asks b) l (ask_prices b)
  | SELL => mkBook (book_symbol b) (orders b) (bids b) (asks b) (bid_prices b) l
  end.

Definition set_orders (m : gmap string ref) (b : OrderBook) : OrderBook :=
  mkBook (book_symbol b) m (bids b) (asks b) (bid_prices b) (ask_prices b).

(** [bisect.bisect_left], [bisect.bisect_right] and [bisect.insort] on an
    ascending list: the number of leading elements below (resp. not above)
    [x], and insertion at the right-hand position. *)
Fixpoint bisect_left (a : list Z) (x : Z) : nat :=
  match a with
  | [] => 0%nat
  | y :: a' => if bool_decide (y < x) then S (bisect_left a' x) else 0%nat
  end.

Fixpoint bisect_right (a : list Z) (x : Z) : nat :=
  match a with
  | [] => 0%nat
  | y :: a' => if bool_decide (y ≤ x) then S (bisect_right a' x) else 0%nat
  end.

Definition insort (a : list Z) (x : Z) : list Z :=
  let i := bisect_right a x in take i a ++ x :: drop i a.

Definition _ensure_price_level (s : Side) (price : Z) (b : OrderBook)
    : OrderBook :=
  match levels s b !! price with
  | Some _ => b
  | None =>
      set_prices s (insort (prices s b) price)
        (set_levels s (<[price := []]> (levels s b)) b)
  end.

Definition _cleanup_level_if_empty (s : Side) (price : Z) (b : OrderBook)
    : OrderBook :=
  match levels s b !! price with
  | Some [] =>
      let b1 := set_levels s (delete price (levels s b)) b in
      let i := bisect_left (prices s b1) price in
      if bool_decide (prices s b1 !! i = Some price)
      then set_prices s (delete i (prices s b1)) b1
      else b1
  | _ => b
  end.

(** [o and o.active and o.remaining_qty > 0] for an object [o]. *)
Definition eligible (o : Order) : bool :=
  active o && bool_decide (0 < remaining_qty o).

(** The same test on [self.orders.get(oid)]. *)
Definition eligible_id (w : World) (oid : string) : option ref :=
  match orders (book w) !! oid with
  | Some r => if eligible (heap w r) then Some r else None
  | None => None
  end.

(** The [while q] loop of [_pop_next_active_at_price]: the queue that is
    left and the order returned. *)
Fixpoint scan_queue (w : World) (q : list string) : list string * option ref :=
  match q with
  | [] => ([], None)
  | oid :: q' =>
      match eligible_id w oid with
      | Some r => (q, Some r)
      | None => scan_queue w q'
      end
  end.

Definition _pop_next_active_at_price (s : Side) (price : Z) (w : World)
    : World * option ref :=
  match levels s (book w) !! price with
  | None | Some [] => (w, None)
  | Some q =>
      let '(q', res) := scan_queue w q in
      let b1 := set_levels s (<[price := q']> (levels s (book w))) (book w) in
      match res with
      | Some r => (set_book b1 w, Some r)
      | None => (set_book (_cleanup_level_if_empty s price b1) w, None)
      end
  end.

Definition add_resting_limit (t : ref) (w : World) : result World :=
  let order := heap w t in
  if bool_decide (symbol order ≠ book_symbol (book w))
  then Raise (ValueError "Order symbol does not match book symbol")
  else
    match price_cents order with
    | None =>
        Raise (ValueError "Only LIMIT orders can rest in book (price required)")
    | Some p =>
        let b1 := set_orders (<[order_id order := t]> (orders (book w))) (book w) in
        let b2 := _ensure_price_level (side order) p b1 in
        let b3 :=
          set_levels (side order)
            (alter (λ q, q ++ [order_id order]) p (levels (side order) b2)) b2 in
        Ok (mkWorld (upd t (set_status RESTING) (heap w)) b3)
    end.

Definition best_bid (b : OrderBook) : option Z := last (bid_prices b).

Definition best_ask (b : OrderBook) : option Z := head (ask_prices b).

Definition best_price (s : Side) (b : OrderBook) : option Z :=
  match s with BUY => best_bid b | SELL => best_ask b end.

(** [get_best_resting] calls itself when the best level turns out to hold
    no eligible order.  [fuel] bounds the number of activations; a call that
    would need more is a [Timeout]. *)
Fixpoint get_best_resting (fuel : nat) (s : Side) (w : World)
    : result (World * option ref) :=
  match fuel with
  | O => Timeout
  | S fuel' =>
      match best_price s (book w) with
      | None => Ok (w, None)
      | Some p =>
          let '(w1, o) := _pop_next_active_at_price s p w in
          match o with
          | Some r => Ok (w1, Some r)
          | None => get_best_resting fuel' s w1
          end
      end
  end.

Definition cancel (oid : string) (w : World) : World * bool :=
  match orders (book w) !! oid with
  | None => (w, false)
  | Some r =>
      let o := heap w r in
      if negb (active o) || bool_decide (remaining_qty o = 0) then (w, false)
      else
        (set_heap
           (upd r (set_status CANCELED)
              (upd r (set_remaining_qty 0)
                 (upd r (set_active false) (heap w)))) w,
         true)
  end.

(** Python's handling of a slice bound [i] on a list of length [n]:
    a negative bound counts from the end and is clamped at 0. *)
Definition slice_bound (i : Z) (n : nat) : nat :=
  if bool_decide (i < 0) then Z.to_nat (Z.max 0 (i + Z.of_nat n)) else Z.to_nat i.

(** [l[i:]] and [l[:i]]. *)
Definition slice_from {A} (i : Z) (l : list A) : list A :=
  drop (slice_bound i (length l)) l.

Definition slice_to {A} (i : Z) (l : list A) : list A :=
  take (slice_bound i (length l)) l.

(** The inner loop of [snapshot_l2]: the remaining quantity of the
    eligible orders of one queue. *)
Definition level_total (w : World) (q : list string) : Z :=
  foldl (λ total oid,
           match eligible_id w oid with
           | Some r => total + remaining_qty (heap w r)
           | None => total
           end) 0 q.

Definition level_row (s : Side) (w : World) (price : Z) : Z * Z :=
  (price, level_total w (default [] (levels s (book w) !! price))).

Record Snapshot := mkSnapshot {
  snap_bids : list (Z * Z);
  snap_asks : list (Z * Z)
}.

Definition snapshot_l2 (depth : Z) (w : World) : Snapshot :=
  mkSnapshot
    (level_row BUY w <$> reverse (slice_from (- depth) (bid_prices (book w))))
    (level_row SELL w <$> slice_to depth (ask_prices (book w))).

(** ** matcher.py *)

Definition opp_side (s : Side) : Side :=
  match s with BUY => SELL | SELL => BUY end.

(** The crossing test at the top of the loop body: [Ok true] to go on,
    [Ok false] for [break].  Comparing a missing price raises. *)
Definition crosses (taker : Order) (b : OrderBook) : result bool :=
  match side taker with
  | BUY =>
      match best_ask b with
      | None => Ok false
      | Some a =>
          match price_cents taker with
          | None => Raise TypeError
          | Some p => Ok (negb (bool_decide (p < a)))
          end
      end
  | SELL =>
      match best_bid b with
      | None => Ok false
      | Some a =>
          match price_cents taker with
          | None => Raise TypeError
          | Some p => Ok (negb (bool_decide (p > a)))
          end
      end
  end.

(** The status update after a fill, for the maker and for the taker. *)
Definition fill_status (o : Order) : Order :=
  if bool_decide (remaining_qty o = 0)
  then set_active false (set_status FILLED o)
  else set_status PARTIAL o.

(** From [trade_price = ...] to the end of the loop body, for the maker
    [m] just fetched. *)
Definition execute (t m : ref) (w : World) : World * Trade :=
  let h := heap w in
  let trade_price := price_cents (h m) in
  let q := Z.min (remaining_qty (h t)) (remaining_qty (h m)) in
  let h1 := upd t (λ o, set_remaining_qty (remaining_qty o - q) o) h in
  let h2 := upd m (λ o, set_remaining_qty (remaining_qty o - q) o) h1 in
  let tr :=
    mkTrade (book_symbol (book w)) trade_price q (order_id (h2 m))
      (order_id (h2 t)) in
  let h3 := upd m fill_status h2 in
  let h4 := upd t fill_status h3 in
  (set_heap h4 w, tr).

(** One pass through the loop body: [None] for [break]. *)
Definition match_step (fuel : nat) (t : ref) (w : World)
    : result (World * option Trade) :=
  c ← crosses (heap w t) (book w);
  if c : bool then
    '(w1, maker) ← get_best_resting fuel (opp_side (side (heap w t))) w;
    match maker with
    | None => Ok (w1, None)
    | Some m => let '(w2, tr) := execute t m w1 in Ok (w2, Some tr)
    end
  else Ok (w, None).

(** [while taker.remaining_qty > 0].  [n] bounds the number of passes,
    [fuel] is handed to [get_best_resting]. *)
Fixpoint match_loop (fuel n : nat) (t : ref) (w : World)
    : result (World * list Trade) :=
  if bool_decide (0 < remaining_qty (heap w t)) then
    match n with
    | O => Timeout
    | S n' =>
        '(w1, step) ← match_step fuel t w;
        match step with
        | None => Ok (w1, [])
        | Some tr =>
            '(w2, trades) ← match_loop fuel n' t w1;
            Ok (w2, tr :: trades)
        end
    end
  else Ok (w, []).

Definition reject (t : ref) (w : World) : World :=
  set_heap (upd t (set_active false) (upd t (set_status REJECTED) (heap w))) w.

(** [match_order(book, taker)].  The one budget [fuel] bounds both the
    passes of the loop and the depth of each lookup. *)
Definition match_order (fuel : nat) (t : ref) (w : World)
    : result (World * list Trade) :=
  if bool_decide (symbol (heap w t) ≠ book_symbol (book w))
  then Ok (reject t w, [])
  else if bool_decide (type (heap w t) ≠ LIMIT)
  then Ok (reject t w, [])
  else
    '(w1, trades) ← match_loop fuel fuel t w;
    if bool_decide (0 < remaining_qty (heap w1 t))
    then w2 ← add_resting_limit t w1; Ok (w2, trades)
    else Ok (w1, trades).

(** ** Reachable states

    The engine is driven by submitting constructed orders to [match_order],
    by [cancel] and by the best-order lookup.  An order is submitted under
    an id the book does not hold yet ([submittable]); [accepted] is the pair
    of checks at the top of [match_order]. *)

Definition constructed (o : Order) : Prop :=
  ∃ uid sym sd ty q price coid oid ms,
    new_order uid sym sd ty q price coid oid ms = Ok o.

Definition initial (w : World) : Prop :=
  (∀ r, constructed (heap w r)) ∧ ∃ sym, book w = empty_book sym.

Definition submittable (w : World) (t : ref) : Prop :=
  orders (book w) !! order_id (heap w t) = None.

Definition accepted (w : World) (t : ref) : Prop :=
  symbol (heap w t) = book_symbol (book w) ∧ type (heap w t) = LIMIT.

(** The moves of the engine, at the grain of the pieces [match_order] is
    made of: a rejection, one pass through the matching loop, the resting
    of the remainder; then [cancel] and the lookup. *)
Inductive engine_step (w : World) : World → Prop :=
  | step_reject t :
      ¬ accepted w t → engine_step w (reject t w)
  | step_pass fuel t w' step :
      submittable w t → accepted w t → 0 < remaining_qty (heap w t) →
      match_step fuel t w = Ok (w', step) → engine_step w w'
  | step_rest t w' :
      submittable w t → accepted w t → 0 < remaining_qty (heap w t) →
      add_resting_limit t w = Ok w' → engine_step w w'
  | step_cancel oid :
      engine_step w (cancel oid w).1
  | step_lookup fuel s w' res :
      get_best_resting fuel s w = Ok (w', res) → engine_step w w'.

Definition reachable (w : World) : Prop :=
  ∃ w0, initial w0 ∧ rtc engine_step w0 w.

(** ** Invariants of the book

    [ladder] lists the prices of a side best first, [queue_at] is the queue
    of a price ([[]] when the price has no level), [side_ids] is the whole
    side in priority order. *)

Definition ladder (s : Side) (b : OrderBook) : list Z :=
  match s with BUY => reverse (bid_prices b) | SELL => ask_prices b end.

Definition queue_at (s : Side) (b : OrderBook) (p : Z) : list string :=
  default [] (levels s b !! p).

Definition side_ids (s : Side) (b : OrderBook) : list string :=
  ladder s b ≫= queue_at s b.

(** The price list is strictly ascending and lists exactly the prices
    that have a level; no level has an empty queue. *)
Definition side_wf (s : Side) (b : OrderBook) : Prop :=
  StronglySorted Z.lt (prices s b)
  ∧ (∀ p, p ∈ prices s b ↔ is_Some (levels s b !! p))
  ∧ (∀ p, levels s b !! p ≠ Some []).

Definition terminal (st : OrderStatus) : Prop :=
  st = REJECTED ∨ st = FILLED ∨ st = CANCELED.

(** What holds of every object: a FILLED or CANCELED order has nothing
    left, the three final statuses are inactive, a REJECTED order fails the
    checks of [match_order], an order that got further passed them. *)
Definition obj_ok (b : OrderBook) (o : Order) : Prop :=
  0 ≤ remaining_qty o
  ∧ (status o = FILLED ∨ status o = CANCELED →
       remaining_qty o = 0 ∧ active o = false)
  ∧ (status o = REJECTED →
       active o = false ∧ ¬ (symbol o = book_symbol b ∧ type o = LIMIT))
  ∧ (status o ≠ NEW → status o ≠ REJECTED →
       symbol o = book_symbol b ∧ type o = LIMIT).

Record wf (w : World) : Prop := mk_wf {
  wf_sides : ∀ s, side_wf s (book w);
  wf_queue_nodup : ∀ s p q, levels s (book w) !! p = Some q → NoDup q;
  wf_queue_disjoint : ∀ s p1 p2 q1 q2 k,
    levels s (book w) !! p1 = Some q1 → levels s (book w) !! p2 = Some q2 →
    k ∈ q1 → k ∈ q2 → p1 = p2;
  wf_registered : ∀ k r,
    orders (book w) !! k = Some r →
    order_id (heap w r) = k ∧ status (heap w r) ≠ NEW
    ∧ status (heap w r) ≠ REJECTED;
  wf_queued : ∀ s p q k,
    levels s (book w) !! p = Some q → k ∈ q →
    ∃ r, orders (book w) !! k = Some r ∧ side (heap w r) = s
         ∧ price_cents (heap w r) = Some p;
  wf_objects : ∀ r, obj_ok (book w) (heap w r)
}.

(** [w'] is [w] after lazy deletion on side [s]: the objects, the order
    map and the other side are the same, every queue of [s] has lost a
    prefix of ids that were not eligible, so has the side as a whole, and no
    price has been added to the list. *)
Definition reaped (s : Side) (w w' : World) : Prop :=
  heap w' = heap w
  ∧ book_symbol (book w') = book_symbol (book w)
  ∧ orders (book w') = orders (book w)
  ∧ levels (opp_side s) (book w') = levels (opp_side s) (book w)
  ∧ prices (opp_side s) (book w') = prices (opp_side s) (book w)
  ∧ (∀ p, ∃ pre,
        queue_at s (book w) p = pre ++ queue_at s (book w') p
        ∧ Forall (λ k, eligible_id w k = None) pre)
  ∧ (∃ pre,
        side_ids s (book w) = pre ++ side_ids s (book w')
        ∧ Forall (λ k, eligible_id w k = None) pre)
  ∧ prices s (book w') `sublist_of` prices s (book w).

(** The order [r] is eligible and heads the queue of the best price of
    side [s], hence the whole side. *)
Definition heads (s : Side) (w : World) (r : ref) : Prop :=
  ∃ p k rest tl,
    best_price s (book w) = Some p
    ∧ levels s (book w) !! p = Some (k :: rest)
    ∧ side_ids s (book w) = k :: tl
    ∧ eligible_id w k = Some r.

(** The fields no operation assigns. *)
Definition frozen (o o' : Order) : Prop :=
  order_id o' = order_id o ∧ side o' = side o
  ∧ price_cents o' = price_cents o ∧ symbol o' = symbol o
  ∧ type o' = type o ∧ qty o' = qty o.

(** An order after a fill of [q]. *)
Definition traded (q : Z) (o : Order) : Order :=
  fill_status (set_remaining_qty (remaining_qty o - q) o).

(** The quantity of a list of trades, and the part of it that names the
    order id [k] as maker. *)
Definition total_qty (trades : list Trade) : Z :=
  foldr (λ tr acc, t_qty tr + acc) 0 trades.

Definition maker_qty (k : string) (trades : list Trade) : Z :=
  total_qty (filter (λ tr, maker_order_id tr = k) trades).

(** Price-time priority.  [better s p1 p2]: on side [s] the price [p1] is
    strictly better than [p2] (higher for bids, lower for asks).
    [precedes s b k1 k2]: the id [k1] waits at a strictly better price than
    [k2], or in the same queue and ahead of it.  [before l k1 k2]: [k1]
    occurs ahead of [k2] in the list [l]. *)
Definition better (s : Side) (p1 p2 : Z) : Prop :=
  match s with BUY => p2 < p1 | SELL => p1 < p2 end.

Definition before (l : list string) (k1 k2 : string) : Prop :=
  ∃ a b c, l = a ++ k1 :: b ++ k2 :: c.

Definition precedes (s : Side) (b : OrderBook) (k1 k2 : string) : Prop :=
  (∃ p1 p2 q1 q2,
      levels s b !! p1 = Some q1 ∧ levels s b !! p2 = Some q2
      ∧ k1 ∈ q1 ∧ k2 ∈ q2 ∧ better s p1 p2)
  ∨ (∃ p q, levels s b !! p = Some q ∧ before q k1 k2).

(** The status machine.  [spec_transition] is the machine of the
    specification: NEW to REJECTED, RESTING or FILLED; RESTING through any
    number of PARTIAL stages (possibly none) to FILLED; CANCELED from the
    resting stages.  [engine_transition] adds the two moves of a taker that
    is partly filled on arrival and then rests. *)
Inductive spec_transition : OrderStatus → OrderStatus → Prop :=
  | new_rejected : spec_transition NEW REJECTED
  | new_resting : spec_transition NEW RESTING
  | new_filled : spec_transition NEW FILLED
  | resting_partial : spec_transition RESTING PARTIAL
  | resting_filled : spec_transition RESTING FILLED
  | resting_canceled : spec_transition RESTING CANCELED
  | partial_partial : spec_transition PARTIAL PARTIAL
  | partial_filled : spec_transition PARTIAL FILLED
  | partial_canceled : spec_transition PARTIAL CANCELED.

Inductive engine_transition : OrderStatus → OrderStatus → Prop :=
  | of_spec st st' : spec_transition st st' → engine_transition st st'
  | new_partial : engine_transition NEW PARTIAL
  | partial_resting : engine_transition PARTIAL RESTING.

(** Every move of the engine from a reachable state leaves the status of
    every order as it is or changes it along [R]. *)
Definition respects (R : OrderStatus → OrderStatus → Prop) : Prop :=
  ∀ w w' r,
    reachable w → engine_step w w' →
    status (heap w' r) = status (heap w r)
    ∨ R (status (heap w r)) (status (heap w' r)).

(** What [Order.__post_init__] asks of the constructor's arguments. *)
Definition valid_order_args (ty : OrderType) (q : Z) (price : option Z) : Prop :=
  0 < q
  ∧ match ty with
    | LIMIT => ∃ p, price = Some p ∧ 0 < p
    | MARKET => price = None
    end.

(** The quantity an id contributes to its level: what its order has
    left if the order is eligible, nothing otherwise; and the sum over a
    queue. *)
Definition eligible_qty (w : World) (k : string) : Z :=
  match eligible_id w k with
  | Some r => remaining_qty (heap w r)
  | None => 0
  end.

Definition level_sum (w : World) (q : list string) : Z :=
  foldr (λ k acc, eligible_qty w k + acc) 0 q.

(** A price of side [s] is live when its queue holds the id of an
    eligible order; a book is uncrossed when every live bid is below every
    live ask. *)
Definition live (s : Side) (w : World) (p : Z) : Prop :=
  ∃ k r, k ∈ queue_at s (book w) p ∧ eligible_id w k = Some r.

Definition uncrossed (w : World) : Prop :=
  ∀ pb pa, live BUY w pb → live SELL w pa → pb < pa.

(** The limit of the taker [t] is strictly worse than every live price of
    the opposite side. *)
Definition no_cross (t : ref) (w : World) : Prop :=
  ∀ p pa,
    price_cents (heap w t) = Some p →
    live (opp_side (side (heap w t))) w pa →
    match side (heap w t) with BUY => p < pa | SELL => pa < p end.

(** The states reached through the public operations alone: whole calls
    of [match_order] on orders submitted under a fresh id, [cancel], and
    the lookup. *)
Inductive api_reachable : World → Prop :=
  | api_initial w :
      initial w → api_reachable w
  | api_match_order fuel t w w' trades :
      api_reachable w → submittable w t →
      match_order fuel t w = Ok (w', trades) → api_reachable w'
  | api_cancel oid w :
      api_reachable w → api_reachable (cancel oid w).1
  | api_get_best_resting fuel s w w' res :
      api_reachable w → get_best_resting fuel s w = Ok (w', res) →
      api_reachable w'.

(** ** Concrete books used by the examples *)

Module Scenario.

Definition lim (sd : Side) (q p : Z) (oid : string) : Order :=
  mkOrder "u" "AAPL" sd LIMIT q (Some p) None oid 0 q NEW true.

Definition objects : list Order :=
  [ lim SELL 1 100 "a"; lim SELL 1 200 "b"; lim BUY 1 100 "c";
    lim BUY 1 150 "d";
    mkOrder "u" "MSFT" BUY LIMIT 3 (Some 100) None "e" 0 3 NEW true;
    mkOrder "u" "AAPL" BUY MARKET 3 None None "f" 0 3 NEW true;
    lim BUY 3 100 "g";
    lim SELL 4 18760 "s1"; lim SELL 4 18760 "s2"; lim BUY 6 18760 "b1";
    lim SELL 10 18760 "s"; lim BUY 5 18760 "b" ].

Definition store : ref → Order :=
  λ r, default (lim BUY 1 1 "z") (objects !! r).

Definition start : World := mkWorld store (empty_book "AAPL").

(** The world after a successful call, [w] itself otherwise. *)
Definition after {A} (w : World) (r : result (World * A)) : World :=
  match r with Ok (w', _) => w' | _ => w end.

Definition submit (t : ref) (w : World) : World :=
  after w (match_order 8 t w).

(** Two asks resting at 100 and 200. *)
Definition two_asks : World := submit 1 (submit 0 start).

(** The ask at 100 has been canceled; its level is still listed. *)
Definition canceled_ask : World := (cancel "a" two_asks).1.

(** The ask at 100 has been bought; its level is still listed. *)
Definition filled_ask : World := submit 2 two_asks.

(** One bid resting at 100. *)
Definition one_bid : World := submit 6 start.

(** One ask of 1 resting at 100. *)
Definition one_ask : World := submit 0 start.

(** The bid "g" for 3 at 100 has gone once through the matching loop
    against [one_ask]: it bought the ask and has 2 left. *)
Definition first_pass : World := after one_ask (match_step 8 6 one_ask).

(** Two asks of 4 at the same price, "s1" ahead of "s2". *)
Definition same_price : World := submit 8 (submit 7 start).

End Scenario.

(** ** Rejection *)

Lemma reject_status t w : status (heap (reject t w) t) = REJECTED.
Proof. unfold reject, upd; simpl. by rewrite !fn_lookup_insert. Qed.

Lemma reject_active t w : active (heap (reject t w) t) = false.
Proof. unfold reject, upd; simpl. by rewrite !fn_lookup_insert. Qed.

Lemma reject_other t w r : r ≠ t → heap (reject t w) r = heap w r.
Proof.
  intros Hne. unfold reject, upd; simpl. by rewrite !fn_lookup_insert_ne.
Qed.

(** C4: a taker for another symbol, or a MARKET taker, is rejected in its
    state: [match_order] returns normally, with no trade, the taker
    REJECTED and inactive, no other object touched, and the book (order map,
    both ladders, both price lists) as it was. *)
Theorem match_order_rejects fuel t w :
  symbol (heap w t) ≠ book_symbol (book w) ∨ type (heap w t) = MARKET →
  ∃ w', match_order fuel t w = Ok (w', [])
        ∧ status (heap w' t) = REJECTED
        ∧ active (heap w' t) = false
        ∧ (∀ r, r ≠ t → heap w' r = heap w r)
        ∧ book w' = book w.
Proof.
  intros Hrej. exists (reject t w).
  split; [|by auto using reject_status, reject_active, reject_other].
  unfold match_order. case_bool_decide as Hsym; [done|].
  destruct Hrej as [Hne|Hty]; [by destruct Hsym|].
  rewrite bool_decide_eq_true_2; [done|]. by rewrite Hty.
Qed.

Lemma match_order_rejects_witness :
  ∃ w', match_order 0 4 Scenario.start = Ok (w', [])
        ∧ status (heap w' 4%nat) = REJECTED
        ∧ active (heap w' 4%nat) = false
        ∧ (∀ r, r ≠ 4%nat → heap w' r = heap Scenario.start r)
        ∧ book w' = book Scenario.start.
Proof. apply (match_order_rejects 0 4 Scenario.start). left. by vm_compute. Defined.

(** ** Accessors of the book *)

Lemma levels_set_levels s m b : levels s (set_levels s m b) = m.
Proof. by destruct s. Qed.

Lemma levels_set_levels_opp s m b :
  levels (opp_side s) (set_levels s m b) = levels (opp_side s) b.
Proof. by destruct s. Qed.

Lemma prices_set_levels s s' m b : prices s' (set_levels s m b) = prices s' b.
Proof. by destruct s, s'. Qed.

Lemma prices_set_prices s l b : prices s (set_prices s l b) = l.
Proof. by destruct s. Qed.

Lemma prices_set_prices_opp s l b :
  prices (opp_side s) (set_prices s l b) = prices (opp_side s) b.
Proof. by destruct s. Qed.

Lemma levels_set_prices s s' l b : levels s' (set_prices s l b) = levels s' b.
Proof. by destruct s, s'. Qed.

Lemma orders_set_levels s m b : orders (set_levels s m b) = orders b.
Proof. by destruct s. Qed.

Lemma orders_set_prices s l b : orders (set_prices s l b) = orders b.
Proof. by destruct s. Qed.

Lemma symbol_set_levels s m b : book_symbol (set_levels s m b) = book_symbol b.
Proof. by destruct s. Qed.

Lemma symbol_set_prices s l b : book_symbol (set_prices s l b) = book_symbol b.
Proof. by destruct s. Qed.

Lemma set_levels_id s b : set_levels s (levels s b) b = b.
Proof. by destruct s, b. Qed.

Lemma set_levels_twice s m m' b :
  set_levels s m (set_levels s m' b) = set_levels s m b.
Proof. by destruct s. Qed.

Lemma opp_side_ne s : opp_side s ≠ s.
Proof. by destruct s. Qed.

Lemma side_cases s s' : s' = s ∨ s' = opp_side s.
Proof. destruct s, s'; auto. Qed.

Create Rewrite HintDb book.

#[local] Hint Rewrite levels_set_levels levels_set_levels_opp prices_set_levels
  prices_set_prices prices_set_prices_opp levels_set_prices orders_set_levels
  orders_set_prices symbol_set_levels symbol_set_prices : book.

Lemma best_price_head s b : best_price s b = head (ladder s b).
Proof. destruct s; simpl; [|done]. unfold best_bid. by rewrite head_reverse. Qed.

Lemma ladder_prices s b p : p ∈ ladder s b ↔ p ∈ prices s b.
Proof. destruct s; simpl; [|done]. by rewrite elem_of_reverse. Qed.

Lemma ladder_length s b : length (ladder s b) = length (prices s b).
Proof. destruct s; simpl; [|done]. by rewrite length_reverse. Qed.

(** ** The sorted price lists *)

Lemma bisect_left_middle l1 p l2 :
  StronglySorted Z.lt (l1 ++ p :: l2) →
  bisect_left (l1 ++ p :: l2) p = length l1.
Proof.
  induction l1 as [|y l1 IH]; simpl; intros Hs.
  - rewrite bool_decide_eq_false_2; [done|lia].
  - apply StronglySorted_inv in Hs as [Hs Hall].
    rewrite bool_decide_eq_true_2; [by rewrite IH|].
    rewrite Forall_app, Forall_cons in Hall. tauto.
Qed.

Lemma delete_middle {A} (l1 : list A) x l2 :
  delete (length l1) (l1 ++ x :: l2) = l1 ++ l2.
Proof. induction l1; simpl; [done|]. by f_equal. Qed.

Lemma lookup_middle' {A} (l1 : list A) x l2 :
  (l1 ++ x :: l2) !! length l1 = Some x.
Proof. by rewrite list_lookup_middle. Qed.

Lemma sorted_middle_notin l1 (p : Z) l2 :
  StronglySorted Z.lt (l1 ++ p :: l2) → p ∉ l1 ++ l2.
Proof.
  intros Hs Hin. apply StronglySorted_app in Hs as (Hlt & Hs1 & Hs2).
  apply StronglySorted_inv in Hs2 as [Hs2 Hall].
  apply elem_of_app in Hin as [Hin|Hin].
  - specialize (Hlt p p Hin). rewrite elem_of_cons in Hlt. lia.
  - rewrite Forall_forall in Hall. specialize (Hall p Hin). lia.
Qed.

Lemma sorted_drop_middle l1 (p : Z) l2 :
  StronglySorted Z.lt (l1 ++ p :: l2) → StronglySorted Z.lt (l1 ++ l2).
Proof.
  intros Hs. apply StronglySorted_app in Hs as (Hlt & Hs1 & Hs2).
  apply StronglySorted_inv in Hs2 as [Hs2 Hall].
  apply StronglySorted_app; split_and!; [|done..].
  intros x1 x2 H1 H2. apply Hlt; [done|]. by right.
Qed.

Lemma bisect_right_split l (x : Z) :
  StronglySorted Z.lt l →
  Forall (λ y, y ≤ x) (take (bisect_right l x) l)
  ∧ Forall (λ y, x < y) (drop (bisect_right l x) l).
Proof.
  induction 1 as [|y l Hs IH Hall]; simpl; [by split|].
  case_bool_decide as Hyx; simpl.
  - destruct IH as [IH1 IH2]. split; [|done]. by constructor.
  - split; [done|]. constructor; [lia|].
    eapply Forall_impl; [exact Hall|]. simpl. intros; lia.
Qed.

Lemma insort_sorted l (x : Z) :
  StronglySorted Z.lt l → x ∉ l → StronglySorted Z.lt (insort l x).
Proof.
  intros Hs Hx. unfold insort.
  destruct (bisect_right_split l x Hs) as [H1 H2].
  assert (Hl : StronglySorted Z.lt (take (bisect_right l x) l
                                      ++ drop (bisect_right l x) l))
    by by rewrite take_drop.
  apply StronglySorted_app in Hl as (Hlt & Hs1 & Hs2).
  assert (Hx1 : x ∉ take (bisect_right l x) l).
  { intros Hin. apply Hx. rewrite <-(take_drop (bisect_right l x) l).
    apply elem_of_app. by left. }
  apply StronglySorted_app; split_and!; [|done|].
  - intros x1 x2 Hin1 Hin2. apply elem_of_cons in Hin2 as [->|Hin2].
    + rewrite Forall_forall in H1. specialize (H1 x1 Hin1).
      assert (x1 ≠ x) by (by intros ->). lia.
    + by apply Hlt.
  - by constructor.
Qed.

Lemma insort_elem_of l (x y : Z) : y ∈ insort l x ↔ y = x ∨ y ∈ l.
Proof.
  unfold insort.
  assert (Hl : y ∈ l ↔ y ∈ take (bisect_right l x) l
                        ∨ y ∈ drop (bisect_right l x) l)
    by by rewrite <-elem_of_app, take_drop.
  rewrite elem_of_app, elem_of_cons. tauto.
Qed.

(** ** Lazy deletion: [_cleanup_level_if_empty], [_pop_next_active_at_price]
    and [get_best_resting] *)

Lemma best_price_split s b p :
  best_price s b = Some p →
  ∃ l1 l2 rest,
    prices s b = l1 ++ p :: l2 ∧ ladder s b = p :: rest
    ∧ ∀ b', prices s b' = l1 ++ l2 → ladder s b' = rest.
Proof.
  destruct s; simpl.
  - unfold best_bid. intros [l' Hl]%last_Some. exists l', [], (reverse l').
    rewrite Hl, reverse_snoc. split_and!; [done..|].
    intros b' ->. by rewrite app_nil_r.
  - unfold best_ask. intros [l' Hl]%head_Some. exists [], l', l'.
    rewrite Hl. split_and!; [done..|]. by intros b' ->.
Qed.

Lemma cleanup_level_spec s p b l1 l2 :
  StronglySorted Z.lt (prices s b) →
  prices s b = l1 ++ p :: l2 →
  levels s b !! p = Some [] →
  _cleanup_level_if_empty s p b
  = set_prices s (l1 ++ l2) (set_levels s (delete p (levels s b)) b).
Proof.
  intros Hs Hp Hl. unfold _cleanup_level_if_empty. rewrite Hl.
  autorewrite with book. rewrite Hp in Hs |- *.
  rewrite bisect_left_middle by done.
  rewrite bool_decide_eq_true_2 by apply lookup_middle'.
  by rewrite delete_middle.
Qed.

Lemma cleanup_level_skip s p b :
  levels s b !! p ≠ Some [] → _cleanup_level_if_empty s p b = b.
Proof.
  intros Hl. unfold _cleanup_level_if_empty.
  by destruct (levels s b !! p) as [[|??]|].
Qed.

Lemma scan_queue_spec w q q' res :
  scan_queue w q = (q', res) →
  ∃ pre, q = pre ++ q'
         ∧ Forall (λ k, eligible_id w k = None) pre
         ∧ match res with
           | Some r => ∃ k rest, q' = k :: rest ∧ eligible_id w k = Some r
           | None => q' = []
           end.
Proof.
  revert q' res. induction q as [|k q IH]; simpl; intros q' res Hscan.
  - injection Hscan as <- <-. by exists [].
  - destruct (eligible_id w k) as [r|] eqn:Hk.
    + injection Hscan as <- <-. exists []. split_and!; [done..|]. eauto.
    + destruct (IH _ _ Hscan) as (pre & -> & Hpre & Hres).
      exists (k :: pre). split_and!; [done| |done]. by constructor.
Qed.

Lemma queue_at_insert s b p q p' :
  queue_at s (set_levels s (<[p := q]> (levels s b)) b) p'
  = if decide (p = p') then q else queue_at s b p'.
Proof.
  unfold queue_at. autorewrite with book. rewrite lookup_insert.
  by destruct (decide (p = p')).
Qed.

Lemma queue_at_delete s b p l p' :
  queue_at s (set_prices s l (set_levels s (delete p (levels s b)) b)) p'
  = if decide (p = p') then [] else queue_at s b p'.
Proof.
  unfold queue_at. autorewrite with book. rewrite lookup_delete.
  by destruct (decide (p = p')).
Qed.

Lemma ladder_set_levels s m b : ladder s (set_levels s m b) = ladder s b.
Proof. by destruct s. Qed.

Lemma sorted_ladder_nodup s b :
  StronglySorted Z.lt (prices s b) → NoDup (ladder s b).
Proof.
  intros Hs. assert (NoDup (prices s b)) as Hnd.
  { induction Hs as [|x l Hs IH Hall]; constructor; [|done].
    intros Hin. rewrite Forall_forall in Hall. specialize (Hall x Hin). lia. }
  destruct s; simpl in *; [|done]. by rewrite reverse_Permutation.
Qed.

Lemma bind_queue_ext (l : list Z) (f g : Z → list string) :
  (∀ p, p ∈ l → f p = g p) → l ≫= f = l ≫= g.
Proof.
  induction l as [|p l IH]; intros Hfg; [done|].
  rewrite !bind_cons, Hfg by left. f_equal. apply IH.
  intros p' Hp'. apply Hfg. by right.
Qed.

Lemma eligible_id_ext w w' k :
  heap w' = heap w → orders (book w') = orders (book w) →
  eligible_id w' k = eligible_id w k.
Proof. intros Hh Ho. unfold eligible_id. by rewrite Hh, Ho. Qed.

Lemma pop_best s w p w1 res :
  side_wf s (book w) →
  best_price s (book w) = Some p →
  _pop_next_active_at_price s p w = (w1, res) →
  side_wf s (book w1) ∧ reaped s w w1
  ∧ match res with
    | Some r => heads s w1 r
    | None => S (length (prices s (book w1))) = length (prices s (book w))
    end.
Proof.
  intros (Hsort & Hdom & Hne) Hbest Hpop.
  destruct (best_price_split _ _ _ Hbest)
    as (l1 & l2 & rest & Hprices & Hladder & Hrest).
  assert (NoDup (p :: rest)) as [Hprest _]%NoDup_cons
    by (rewrite <-Hladder; by apply sorted_ladder_nodup).
  assert (Hin : p ∈ prices s (book w))
    by (rewrite Hprices, elem_of_app, elem_of_cons; auto).
  destruct (proj1 (Hdom p) Hin) as [q Hq].
  assert (Hqa : queue_at s (book w) p = q) by (unfold queue_at; by rewrite Hq).
  unfold _pop_next_active_at_price in Hpop. rewrite Hq in Hpop.
  destruct q as [|k0 q0]; [by destruct (Hne p)|].
  destruct (scan_queue w (k0 :: q0)) as [q' res'] eqn:Hscan.
  apply scan_queue_spec in Hscan as (pre & Hpre & Hinel & Hres).
  destruct res' as [r|]; injection Hpop as <- <-.
  - destruct Hres as (k & tl & -> & Hk).
    assert (Hids : side_ids s (set_levels s (<[p:=k :: tl]> (levels s (book w))) (book w))
                   = (k :: tl) ++ (rest ≫= queue_at s (book w))).
    { unfold side_ids. rewrite ladder_set_levels, Hladder, bind_cons.
      rewrite queue_at_insert, decide_True by done. f_equal.
      apply bind_queue_ext. intros p' Hp'. rewrite queue_at_insert.
      rewrite decide_False; [done|]. by intros ->. }
    split_and!.
    + split_and!; simpl; autorewrite with book; [done| |].
      * intros p'. rewrite Hdom, lookup_insert. case_decide; [|done].
        subst. rewrite Hq. by split; eauto.
      * intros p'. rewrite lookup_insert. case_decide; [done|apply Hne].
    + split_and!; simpl; autorewrite with book; try done.
      * intros p'. rewrite queue_at_insert. case_decide.
        -- subst p'. exists pre. by rewrite Hqa.
        -- by exists [].
      * exists pre. split; [|done]. rewrite Hids.
        unfold side_ids. rewrite Hladder, bind_cons, Hqa, Hpre.
        by rewrite <-app_assoc.
    + exists p, k, tl, (tl ++ rest ≫= queue_at s (book w)). simpl.
      split_and!; [| |exact Hids|].
      * by rewrite best_price_head, ladder_set_levels, Hladder.
      * autorewrite with book. by rewrite lookup_insert_eq.
      * rewrite <-Hk. apply eligible_id_ext; simpl; by autorewrite with book.
  - subst q'. rewrite app_nil_r in Hpre. subst pre.
    rewrite (cleanup_level_spec _ _ _ l1 l2); autorewrite with book;
      [|done..|by rewrite lookup_insert_eq].
    rewrite delete_insert_eq, set_levels_twice.
    assert (Hl' : ladder s (set_prices s (l1 ++ l2)
                    (set_levels s (delete p (levels s (book w))) (book w))) = rest)
      by (apply Hrest; by autorewrite with book).
    split_and!.
    + split_and!; simpl; autorewrite with book.
      * rewrite Hprices in Hsort. by eapply sorted_drop_middle.
      * intros p'. rewrite lookup_delete. case_decide.
        -- subst p'. split; [|by intros []].
           intros Hin'. rewrite Hprices in Hsort.
           by apply sorted_middle_notin in Hsort.
        -- rewrite <-Hdom, Hprices, !elem_of_app, elem_of_cons.
           intuition congruence.
      * intros p'. rewrite lookup_delete. case_decide; [done|apply Hne].
    + split_and!; simpl; autorewrite with book; try done.
      * intros p'. rewrite queue_at_delete. case_decide.
        -- subst p'. exists (k0 :: q0). by rewrite Hqa, app_nil_r.
        -- by exists [].
      * exists (k0 :: q0). split; [|done].
        unfold side_ids at 2. rewrite Hl'.
        unfold side_ids. rewrite Hladder, bind_cons, Hqa. f_equal.
        apply bind_queue_ext. intros p' Hp'. rewrite queue_at_delete.
        rewrite decide_False; [done|]. by intros ->.
      * rewrite Hprices. apply sublist_app; [done|]. by apply sublist_cons.
    + simpl. autorewrite with book. rewrite Hprices, !length_app. simpl. lia.
Qed.

Lemma reaped_refl s w : reaped s w w.
Proof.
  split_and!; try done.
  - intros p. by exists [].
  - by exists [].
Qed.

Lemma reaped_trans s w1 w2 w3 : reaped s w1 w2 → reaped s w2 w3 → reaped s w1 w3.
Proof.
  intros (Hh & Hsym & Ho & Hl & Hp & Hq & (pre & Hids & Hpre) & Hsub)
         (Hh' & Hsym' & Ho' & Hl' & Hp' & Hq' & (pre' & Hids' & Hpre') & Hsub').
  assert (Hel : ∀ k, eligible_id w2 k = eligible_id w1 k)
    by (intros k; by apply eligible_id_ext).
  split_and!; try congruence.
  - intros p. destruct (Hq p) as (l & Hl1 & Hl2), (Hq' p) as (l' & Hl1' & Hl2').
    exists (l ++ l'). split; [by rewrite Hl1, Hl1', app_assoc|].
    apply Forall_app. split; [done|].
    eapply Forall_impl; [exact Hl2'|]. intros k; simpl. by rewrite Hel.
  - exists (pre ++ pre'). split; [by rewrite Hids, Hids', app_assoc|].
    apply Forall_app. split; [done|].
    eapply Forall_impl; [exact Hpre'|]. intros k; simpl. by rewrite Hel.
  - by etrans.
Qed.

Lemma get_best_resting_spec fuel s w w' res :
  side_wf s (book w) →
  get_best_resting fuel s w = Ok (w', res) →
  side_wf s (book w') ∧ reaped s w w'
  ∧ match res with
    | Some r => heads s w' r
    | None => prices s (book w') = []
    end.
Proof.
  revert w. induction fuel as [|fuel IH]; simpl; intros w Hwf Hget; [done|].
  destruct (best_price s (book w)) as [p|] eqn:Hbest.
  - destruct (_pop_next_active_at_price s p w) as [w1 o] eqn:Hpop.
    destruct (pop_best _ _ _ _ _ Hwf Hbest Hpop) as (Hwf1 & Hreap1 & Hres).
    destruct o as [r|].
    + injection Hget as <- <-. done.
    + destruct (IH _ Hwf1 Hget) as (Hwf' & Hreap' & Hres').
      split_and!; [done| |done]. by eapply reaped_trans.
  - injection Hget as <- <-. split_and!; [done|apply reaped_refl|].
    rewrite best_price_head in Hbest.
    destruct (ladder s (book w)) eqn:Hl; [|done].
    apply (f_equal length) in Hl. rewrite ladder_length in Hl.
    by apply nil_length_inv.
Qed.

(** With more activations than listed prices the lookup returns. *)
Lemma get_best_resting_returns fuel s w :
  side_wf s (book w) →
  (length (prices s (book w)) < fuel)%nat →
  ∃ w' res, get_best_resting fuel s w = Ok (w', res).
Proof.
  revert w. induction fuel as [|fuel IH]; simpl; intros w Hwf Hlen; [lia|].
  destruct (best_price s (book w)) as [p|] eqn:Hbest; [|by eauto].
  destruct (_pop_next_active_at_price s p w) as [w1 o] eqn:Hpop.
  destruct (pop_best _ _ _ _ _ Hwf Hbest Hpop) as (Hwf1 & Hreap1 & Hres).
  destruct o as [r|]; [by eauto|]. apply IH; [done|lia].
Qed.

(** The result does not depend on the budget, once it is enough. *)
Lemma get_best_resting_mono fuel fuel' s w x :
  get_best_resting fuel s w = Ok x → (fuel ≤ fuel')%nat →
  get_best_resting fuel' s w = Ok x.
Proof.
  revert fuel' w. induction fuel as [|fuel IH]; simpl; intros fuel' w Hget Hle;
    [done|].
  destruct fuel' as [|fuel']; [lia|]. simpl.
  destruct (best_price s (book w)) as [p|]; [|done].
  destruct (_pop_next_active_at_price s p w) as [w1 [r|]]; [done|].
  apply IH; [done|lia].
Qed.

Lemma set_book_id w : set_book (book w) w = w.
Proof. by destruct w. Qed.

(** An order that heads its side is returned at once, and the book is not
    touched. *)
Lemma get_best_resting_heads fuel s w r :
  heads s w r → get_best_resting (S fuel) s w = Ok (w, Some r).
Proof.
  intros (p & k & rest & tl & Hbest & Hq & _ & Hk). simpl. rewrite Hbest.
  unfold _pop_next_active_at_price. rewrite Hq. simpl. rewrite Hk.
  by rewrite insert_id, set_levels_id, set_book_id.
Qed.

(** ** Updates of the object store *)

Lemma upd_eq r f h : upd r f h r = f (h r).
Proof. unfold upd. apply fn_lookup_insert. Qed.

Lemma upd_ne r r' f h : r ≠ r' → upd r f h r' = h r'.
Proof. unfold upd. apply fn_lookup_insert_ne. Qed.

Lemma frozen_refl o : frozen o o.
Proof. by repeat split. Qed.

Lemma frozen_traded q o : frozen o (traded q o).
Proof. unfold traded, fill_status. case_bool_decide; by repeat split. Qed.

Lemma execute_book t m w : book (execute t m w).1 = book w.
Proof. done. Qed.

Lemma execute_trade t m w :
  (execute t m w).2
  = mkTrade (book_symbol (book w)) (price_cents (heap w m))
      (Z.min (remaining_qty (heap w t)) (remaining_qty (heap w m)))
      (order_id (heap w m)) (order_id (heap w t)).
Proof.
  unfold execute; simpl. f_equal.
  - destruct (decide (m = t)) as [->|Hne];
      [by rewrite !upd_eq|by rewrite upd_eq, upd_ne].
  - destruct (decide (m = t)) as [->|Hne];
      [by rewrite !upd_eq|by rewrite (upd_ne m), upd_eq].
Qed.

Lemma execute_heap t m w :
  t ≠ m →
  let q := Z.min (remaining_qty (heap w t)) (remaining_qty (heap w m)) in
  heap (execute t m w).1 t = traded q (heap w t)
  ∧ heap (execute t m w).1 m = traded q (heap w m)
  ∧ ∀ r, r ≠ t → r ≠ m → heap (execute t m w).1 r = heap w r.
Proof.
  intros Hne q. unfold execute; simpl. split_and!.
  - by rewrite upd_eq, upd_ne, upd_ne, upd_eq by done.
  - by rewrite upd_ne, upd_eq, upd_eq, upd_ne by done.
  - intros r Hrt Hrm. by rewrite !upd_ne by done.
Qed.

Lemma frozen_trans o1 o2 o3 : frozen o1 o2 → frozen o2 o3 → frozen o1 o3.
Proof. unfold frozen. intuition congruence. Qed.

Lemma upd_frozen h0 r f h r' :
  (∀ o, frozen o (f o)) → frozen h0 (h r') → frozen h0 (upd r f h r').
Proof.
  intros Hf Hh. destruct (decide (r = r')) as [->|Hne].
  - rewrite upd_eq. eapply frozen_trans; [exact Hh|apply Hf].
  - by rewrite upd_ne.
Qed.

Lemma frozen_fill_status o : frozen o (fill_status o).
Proof. unfold fill_status. case_bool_decide; by repeat split. Qed.

Lemma execute_frozen t m w r : frozen (heap w r) (heap (execute t m w).1 r).
Proof.
  unfold execute; simpl.
  repeat (apply upd_frozen; [first [apply frozen_fill_status|by repeat split]|]).
  apply frozen_refl.
Qed.

(** ** Preservation of the invariants *)

Lemma reaped_level s w w' s' p q' :
  reaped s w w' → side_wf s (book w') →
  levels s' (book w') !! p = Some q' →
  ∃ pre, levels s' (book w) !! p = Some (pre ++ q')
         ∧ Forall (λ k, eligible_id w k = None) pre.
Proof.
  intros (_ & _ & _ & Hl & _ & Hq & _) (_ & _ & Hne) Hq'.
  destruct (side_cases s s') as [->| ->].
  - destruct (Hq p) as (pre & Hpre & Hin). exists pre. split; [|done].
    unfold queue_at in Hpre. rewrite Hq' in Hpre. simpl in Hpre.
    destruct (levels s (book w) !! p) as [q|]; simpl in Hpre; [by subst|].
    destruct pre, q'; try done. by destruct (Hne p).
  - exists []. by rewrite <-Hl.
Qed.

Lemma side_wf_ext s b b' :
  levels s b' = levels s b → prices s b' = prices s b →
  side_wf s b → side_wf s b'.
Proof. unfold side_wf. by intros -> ->. Qed.

Lemma wf_reaped s w w' : wf w → side_wf s (book w') → reaped s w w' → wf w'.
Proof.
  intros [Hsides Hnd Hdisj Hreg Hqd Hobj] Hwf' Hreap.
  pose proof Hreap as (Hh & Hsym & Ho & Hl & Hp & _).
  split.
  - intros s'. destruct (side_cases s s') as [->| ->]; [done|].
    by eapply side_wf_ext.
  - intros s' p q Hq.
    destruct (reaped_level _ _ _ _ _ _ Hreap Hwf' Hq) as (pre & Hpre & _).
    apply Hnd in Hpre. by apply NoDup_app in Hpre as (_ & _ & ?).
  - intros s' p1 p2 q1 q2 k Hq1 Hq2 Hk1 Hk2.
    destruct (reaped_level _ _ _ _ _ _ Hreap Hwf' Hq1) as (pre1 & Hpre1 & _).
    destruct (reaped_level _ _ _ _ _ _ Hreap Hwf' Hq2) as (pre2 & Hpre2 & _).
    eapply (Hdisj s' p1 p2 _ _ k); [done..| |]; apply elem_of_app; by right.
  - intros k r. rewrite Ho, Hh. apply Hreg.
  - intros s' p q k Hq Hk.
    destruct (reaped_level _ _ _ _ _ _ Hreap Hwf' Hq) as (pre & Hpre & _).
    rewrite Ho, Hh. eapply Hqd; [done|]. apply elem_of_app; by right.
  - intros r. rewrite Hh. unfold obj_ok. rewrite Hsym. apply Hobj.
Qed.

Lemma wf_get_best_resting fuel s w w' res :
  wf w → get_best_resting fuel s w = Ok (w', res) → wf w'.
Proof.
  intros Hwf Hget.
  destruct (get_best_resting_spec _ _ _ _ _ (wf_sides _ Hwf s) Hget)
    as (Hwf' & Hreap & _).
  by eapply wf_reaped.
Qed.

(** A change of the mutable fields of some objects. *)
Lemma wf_set_heap w h' :
  wf w →
  (∀ r, frozen (heap w r) (h' r)) →
  (∀ r, obj_ok (book w) (h' r)) →
  (∀ k r, orders (book w) !! k = Some r →
          status (h' r) ≠ NEW ∧ status (h' r) ≠ REJECTED) →
  wf (set_heap h' w).
Proof.
  intros [Hsides Hnd Hdisj Hreg Hqd Hobj] Hfr Hok Hst.
  split; simpl; try done.
  - intros k r Hk. destruct (Hfr r) as (-> & _). destruct (Hreg _ _ Hk) as [? _].
    destruct (Hst _ _ Hk). done.
  - intros s p q k Hq Hk. destruct (Hqd _ _ _ _ Hq Hk) as (r & ? & ? & ?).
    exists r. destruct (Hfr r) as (_ & -> & -> & _). done.
Qed.

Lemma eligible_id_Some w k r :
  eligible_id w k = Some r ↔
  orders (book w) !! k = Some r ∧ eligible (heap w r) = true.
Proof.
  unfold eligible_id. destruct (orders (book w) !! k) as [r'|].
  - destruct (eligible (heap w r')) eqn:He.
    + split; [by intros [= <-]|by intros [[= <-] _]].
    + split; [done|intros [[= <-] ?]; congruence].
  - split; [done|by intros [? _]].
Qed.

Lemma eligible_true o :
  eligible o = true ↔ active o = true ∧ 0 < remaining_qty o.
Proof.
  unfold eligible. rewrite andb_true_iff, bool_decide_eq_true. done.
Qed.

Lemma heads_maker s w m :
  wf w → heads s w m →
  ∃ k, orders (book w) !! k = Some m ∧ order_id (heap w m) = k
       ∧ k ∈ side_ids s (book w)
       ∧ side (heap w m) = s ∧ active (heap w m) = true
       ∧ 0 < remaining_qty (heap w m)
       ∧ symbol (heap w m) = book_symbol (book w) ∧ type (heap w m) = LIMIT.
Proof.
  intros Hwf (p & k & rest & tl & _ & Hq & Hids & Hk).
  apply eligible_id_Some in Hk as [Hk [Hact Hrem]%eligible_true].
  destruct (wf_queued _ Hwf s p _ k Hq) as (r & Hr & Hside & _); [by left|].
  assert (r = m) as -> by congruence.
  destruct (wf_registered _ Hwf _ _ Hk) as (Hid & Hnew & Hrej).
  destruct (wf_objects _ Hwf m) as (_ & _ & _ & Hacc).
  exists k. rewrite Hids. split_and!; try done; [by left|by apply Hacc..].
Qed.

Lemma traded_status q o :
  status (traded q o) = FILLED ∨ status (traded q o) = PARTIAL.
Proof. unfold traded, fill_status. case_bool_decide; auto. Qed.

Lemma obj_ok_traded b o q :
  0 ≤ q ≤ remaining_qty o →
  symbol o = book_symbol b ∧ type o = LIMIT →
  obj_ok b (traded q o).
Proof.
  intros Hq Hacc. unfold traded, fill_status, obj_ok.
  case_bool_decide as Hz; simpl in *.
  - split_and!; [lia|done|done|done].
  - split_and!; [lia| |done|done]. intros [?|?]; done.
Qed.

Lemma wf_execute s t m w :
  wf w → accepted w t → 0 < remaining_qty (heap w t) →
  s = opp_side (side (heap w t)) → heads s w m →
  t ≠ m ∧ wf (execute t m w).1.
Proof.
  intros Hwf Hacc Hrem -> Hheads.
  destruct (heads_maker _ _ _ Hwf Hheads)
    as (k & Hk & Hid & _ & Hside & Hact & Hremm & Haccm).
  assert (Hne : t ≠ m).
  { intros ->. by destruct (side (heap w m)). }
  split; [done|].
  destruct (execute_heap t m w Hne) as (Ht & Hm & Hother).
  apply (wf_set_heap w (heap (execute t m w).1) Hwf).
  - apply execute_frozen.
  - intros r. destruct (decide (r = t)) as [->|Hrt]; [|destruct (decide (r = m)) as [->|Hrm]].
    + rewrite Ht. apply obj_ok_traded; [lia|done].
    + rewrite Hm. apply obj_ok_traded; [lia|done].
    + rewrite Hother by done. apply (wf_objects _ Hwf).
  - intros k' r Hk'.
    destruct (decide (r = t)) as [->|Hrt]; [|destruct (decide (r = m)) as [->|Hrm]].
    + rewrite Ht. destruct (traded_status
        (Z.min (remaining_qty (heap w t)) (remaining_qty (heap w m))) (heap w t))
        as [-> | ->]; done.
    + rewrite Hm. destruct (traded_status
        (Z.min (remaining_qty (heap w t)) (remaining_qty (heap w m))) (heap w m))
        as [-> | ->]; done.
    + rewrite Hother by done. by destruct (wf_registered _ Hwf _ _ Hk') as (_ & ? & ?).
Qed.

Lemma reaped_accepted s w w' t : reaped s w w' → accepted w t → accepted w' t.
Proof. intros (Hh & Hsym & _) Hacc. unfold accepted. by rewrite Hh, Hsym. Qed.

Lemma wf_match_step fuel t w w' step :
  wf w → accepted w t → 0 < remaining_qty (heap w t) →
  match_step fuel t w = Ok (w', step) → wf w'.
Proof.
  intros Hwf Hacc Hrem Hstep. unfold match_step in Hstep.
  destruct (crosses (heap w t) (book w)) as [[|]| |]; simpl in Hstep; try done;
    [|by injection Hstep as <- <-].
  destruct (get_best_resting fuel (opp_side (side (heap w t))) w)
    as [[w1 maker]| |] eqn:Hget; simpl in Hstep; try done.
  destruct (get_best_resting_spec _ _ _ _ _ (wf_sides _ Hwf _) Hget)
    as (Hwf1 & Hreap & Hres).
  assert (wf w1) as Hw1 by by eapply wf_reaped.
  destruct maker as [m|]; [|by injection Hstep as <- <-].
  destruct (execute t m w1) as [w2 tr] eqn:Hex. injection Hstep as <- <-.
  pose proof Hreap as (Hh & _).
  replace w2 with (execute t m w1).1 by (by rewrite Hex).
  eapply wf_execute; [done|by eapply reaped_accepted|by rewrite Hh| |done].
  by rewrite Hh.
Qed.

Lemma wf_cancel oid w : wf w → wf (cancel oid w).1.
Proof.
  intros Hwf. unfold cancel.
  destruct (orders (book w) !! oid) as [r|] eqn:Hr; [|done].
  destruct (negb (active (heap w r)) || bool_decide (remaining_qty (heap w r) = 0));
    [done|]. simpl.
  destruct (wf_registered _ Hwf _ _ Hr) as (_ & Hnew & Hrej).
  destruct (wf_objects _ Hwf r) as (_ & _ & _ & Hacc).
  apply (wf_set_heap w _ Hwf).
  - intros r'. repeat (apply upd_frozen; [by repeat split|]). apply frozen_refl.
  - intros r'. destruct (decide (r = r')) as [<-|Hne].
    + rewrite !upd_eq. split_and!; simpl; [done..|]. intros _ _. by apply Hacc.
    + rewrite !upd_ne by done. apply (wf_objects _ Hwf).
  - intros k r' Hk. destruct (decide (r = r')) as [<-|Hne].
    + by rewrite !upd_eq.
    + rewrite !upd_ne by done.
      by destruct (wf_registered _ Hwf _ _ Hk) as (_ & ? & ?).
Qed.

Lemma wf_reject t w : wf w → ¬ accepted w t → wf (reject t w).
Proof.
  intros Hwf Hacc. unfold reject.
  apply (wf_set_heap w _ Hwf).
  - intros r'. repeat (apply upd_frozen; [by repeat split|]). apply frozen_refl.
  - intros r'. destruct (decide (t = r')) as [<-|Hne].
    + rewrite !upd_eq. destruct (wf_objects _ Hwf t) as (? & _).
      split_and!; simpl; try done. intros [?|?]; done.
    + rewrite !upd_ne by done. apply (wf_objects _ Hwf).
  - intros k r' Hk. destruct (wf_registered _ Hwf _ _ Hk) as (_ & Hnew & Hrej).
    destruct (decide (t = r')) as [<-|Hne].
    + destruct Hacc. by apply (wf_objects _ Hwf t).
    + by rewrite !upd_ne by done.
Qed.

Lemma add_resting_limit_spec t w w' :
  add_resting_limit t w = Ok w' →
  let o := heap w t in
  ∃ p, price_cents o = Some p
    ∧ symbol o = book_symbol (book w)
    ∧ heap w' = upd t (set_status RESTING) (heap w)
    ∧ book_symbol (book w') = book_symbol (book w)
    ∧ orders (book w') = <[order_id o := t]> (orders (book w))
    ∧ levels (side o) (book w')
      = <[p := queue_at (side o) (book w) p ++ [order_id o]]>
          (levels (side o) (book w))
    ∧ prices (side o) (book w')
      = match levels (side o) (book w) !! p with
        | Some _ => prices (side o) (book w)
        | None => insort (prices (side o) (book w)) p
        end
    ∧ levels (opp_side (side o)) (book w') = levels (opp_side (side o)) (book w)
    ∧ prices (opp_side (side o)) (book w') = prices (opp_side (side o)) (book w).
Proof.
  unfold add_resting_limit. case_bool_decide as Hsym; [done|].
  destruct (price_cents (heap w t)) as [p|] eqn:Hp; [|done].
  intros [= <-]. exists p. simpl.
  unfold _ensure_price_level, queue_at.
  replace (levels (side (heap w t)) (set_orders _ (book w)))
    with (levels (side (heap w t)) (book w)) by (by destruct (side (heap w t))).
  destruct (levels (side (heap w t)) (book w) !! p) as [q|] eqn:Hq; simpl.
  - split_and!; try done; try (by destruct (side (heap w t))).
    destruct (side (heap w t)); simpl in *;
      apply map_eq; intros p'; rewrite lookup_alter, lookup_insert;
      case_decide; subst; by rewrite ?Hq.
  - split_and!; try done; try (by destruct (side (heap w t))).
    destruct (side (heap w t)); simpl in *;
      apply map_eq; intros p'; rewrite lookup_alter, !lookup_insert;
      case_decide; subst; rewrite ?decide_True by done; done.
Qed.

(** An id of an old queue is registered, so it is not the fresh id of a
    submittable order, and its object is not that order. *)
Lemma queued_not_fresh w t s p q k :
  wf w → submittable w t →
  levels s (book w) !! p = Some q → k ∈ q →
  k ≠ order_id (heap w t)
  ∧ ∃ r, orders (book w) !! k = Some r ∧ r ≠ t ∧ side (heap w r) = s
         ∧ price_cents (heap w r) = Some p.
Proof.
  intros Hwf Hsub Hq Hk.
  destruct (wf_queued _ Hwf _ _ _ _ Hq Hk) as (r & Hr & Hside & Hprice).
  assert (k ≠ order_id (heap w t)) as Hne.
  { intros ->. unfold submittable in Hsub. congruence. }
  split; [done|]. exists r. split_and!; try done.
  intros ->. by destruct (wf_registered _ Hwf _ _ Hr) as (? & _).
Qed.

Lemma wf_add_resting_limit t w w' :
  wf w → submittable w t → accepted w t →
  add_resting_limit t w = Ok w' → wf w'.
Proof.
  intros Hwf Hsub Hacc Hadd.
  destruct (add_resting_limit_spec _ _ _ Hadd)
    as (p & Hp & _ & Hh & Hsym & Ho & Hl & Hpr & Hlo & Hpo).
  set (o := heap w t) in *. set (k := order_id o) in *. set (s := side o) in *.
  destruct (wf_sides _ Hwf s) as (Hsort & Hdom & Hne).
  assert (Hold : ∀ k', k' ∈ queue_at s (book w) p →
            k' ≠ k ∧ ∃ r, orders (book w) !! k' = Some r ∧ r ≠ t
                          ∧ side (heap w r) = s
                          ∧ price_cents (heap w r) = Some p).
  { intros k' Hk'. unfold queue_at in Hk'.
    destruct (levels s (book w) !! p) as [q|] eqn:Hq; simpl in Hk';
      [|by apply elem_of_nil in Hk'].
    by eapply queued_not_fresh. }
  assert (Hlev : ∀ s' p' q', levels s' (book w') !! p' = Some q' →
            (s' = s ∧ p' = p ∧ q' = queue_at s (book w) p ++ [k])
            ∨ levels s' (book w) !! p' = Some q').
  { intros s' p' q' Hq'. destruct (side_cases s s') as [->| ->].
    - rewrite Hl, lookup_insert in Hq'. case_decide; [|by right].
      left. injection Hq' as <-. by subst.
    - right. by rewrite <-Hlo. }
  split.
  - intros s'. destruct (side_cases s s') as [->| ->];
      [|by eapply side_wf_ext; [..|apply (wf_sides _ Hwf)]].
    split_and!.
    + rewrite Hpr. destruct (levels s (book w) !! p) eqn:Hq; [done|].
      apply insort_sorted; [done|]. rewrite Hdom, Hq. by intros [].
    + intros p'. rewrite Hl, Hpr, lookup_insert. case_decide as Hpp.
      * subst p'. split; [by eauto|]. intros _.
        destruct (levels s (book w) !! p) eqn:Hq.
        -- rewrite Hdom, Hq. by eauto.
        -- apply insort_elem_of. by left.
      * destruct (levels s (book w) !! p) eqn:Hq; [by rewrite Hdom|].
        rewrite insort_elem_of, Hdom. intuition congruence.
    + intros p'. rewrite Hl, lookup_insert. case_decide; [|apply Hne].
      intros [= Heq]. by destruct (queue_at s (book w) p).
  - intros s' p' q' Hq'. destruct (Hlev _ _ _ Hq') as [(-> & -> & ->)|Hq0];
      [|by eapply (wf_queue_nodup _ Hwf)].
    apply NoDup_app. split_and!; [| |apply NoDup_singleton].
    + unfold queue_at. destruct (levels s (book w) !! p) as [q|] eqn:Hq; simpl;
        [by eapply (wf_queue_nodup _ Hwf)|apply NoDup_nil_2].
    + intros k' Hk' ->%list_elem_of_singleton. by destruct (Hold _ Hk').
  - intros s' p1 p2 q1 q2 k' Hq1 Hq2 Hk1 Hk2.
    destruct (Hlev _ _ _ Hq1) as [(-> & -> & ->)|Hq1'],
             (Hlev _ _ _ Hq2) as [(Hs2 & -> & ->)|Hq2']; try done.
    + apply elem_of_app in Hk1 as [Hk1|Hk1%list_elem_of_singleton].
      * unfold queue_at in Hk1.
        destruct (levels s (book w) !! p) as [q|] eqn:Hq; simpl in Hk1;
          [|by apply elem_of_nil in Hk1].
        by eapply (wf_queue_disjoint _ Hwf).
      * subst k'. by destruct (queued_not_fresh _ _ _ _ _ _ Hwf Hsub Hq2' Hk2).
    + subst s'. apply elem_of_app in Hk2 as [Hk2|Hk2%list_elem_of_singleton].
      * unfold queue_at in Hk2.
        destruct (levels s (book w) !! p) as [q|] eqn:Hq; simpl in Hk2;
          [|by apply elem_of_nil in Hk2].
        by eapply (wf_queue_disjoint _ Hwf).
      * subst k'. by destruct (queued_not_fresh _ _ _ _ _ _ Hwf Hsub Hq1' Hk1).
    + by eapply (wf_queue_disjoint _ Hwf).
  - intros k' r. rewrite Ho, Hh, lookup_insert. case_decide as Hk.
    + intros [= <-]. by rewrite upd_eq.
    + intros Hr. destruct (wf_registered _ Hwf _ _ Hr) as (Hid & ? & ?).
      rewrite upd_ne; [done|]. intros <-. by destruct Hk.
  - intros s' p' q' k' Hq' Hk'. rewrite Ho, Hh.
    assert (Hkeep : ∀ r, orders (book w) !! k' = Some r → k' ≠ k → r ≠ t →
              side (heap w r) = s' → price_cents (heap w r) = Some p' →
              ∃ r0, <[k:=t]> (orders (book w)) !! k' = Some r0
                    ∧ side (upd t (set_status RESTING) (heap w) r0) = s'
                    ∧ price_cents (upd t (set_status RESTING) (heap w) r0)
                      = Some p').
    { intros r Hr Hkk Hrt Hside Hprice. exists r.
      by rewrite lookup_insert_ne, upd_ne. }
    destruct (Hlev _ _ _ Hq') as [(-> & -> & ->)|Hq0].
    + apply elem_of_app in Hk' as [Hk'|Hk'%list_elem_of_singleton].
      * destruct (Hold _ Hk') as (? & r & ? & ? & ? & ?). by eapply Hkeep.
      * subst k'. exists t. by rewrite lookup_insert_eq, upd_eq.
    + destruct (queued_not_fresh _ _ _ _ _ _ Hwf Hsub Hq0 Hk')
        as (? & r & ? & ? & ? & ?). by eapply Hkeep.
  - intros r. rewrite Hh. unfold obj_ok. rewrite Hsym.
    destruct (decide (t = r)) as [<-|Hrt]; [|rewrite upd_ne by done; apply Hwf].
    rewrite upd_eq. destruct (wf_objects _ Hwf t) as (? & _).
    split_and!; simpl; try done. intros [?|?]; done.
Qed.

Lemma constructed_fresh o :
  constructed o →
  status o = NEW ∧ active o = true ∧ remaining_qty o = qty o ∧ 0 < qty o.
Proof.
  intros (uid & sym & sd & ty & q & price & coid & oid & ms & Hnew).
  unfold new_order in Hnew. case_bool_decide as Hq; [done|].
  destruct ty, price as [p|]; try done.
  - case_bool_decide; [done|]. injection Hnew as <-. simpl.
    split_and!; [done..|lia].
  - injection Hnew as <-. simpl. split_and!; [done..|lia].
Qed.

Lemma wf_initial w : initial w → wf w.
Proof.
  intros [Hobj [sym Hbook]]. split; rewrite ?Hbook.
  - intros s. split_and!.
    + destruct s; constructor.
    + intros p. destruct s; simpl; rewrite lookup_empty, elem_of_nil;
        split; [done|by intros []|done|by intros []].
    + intros p. by destruct s; simpl; rewrite lookup_empty.
  - intros s p q. by destruct s; simpl; rewrite lookup_empty.
  - intros s p1 p2 q1 q2 k. by destruct s; simpl; rewrite lookup_empty.
  - intros k r. simpl. by rewrite lookup_empty.
  - intros s p q k. by destruct s; simpl; rewrite lookup_empty.
  - intros r. destruct (constructed_fresh _ (Hobj r)) as (Hst & _ & Hrem & Hq).
    unfold obj_ok. rewrite Hst, Hrem. split_and!; try done; [lia|].
    intros [?|?]; done.
Qed.

Lemma wf_engine_step w w' : wf w → engine_step w w' → wf w'.
Proof.
  intros Hwf Hstep.
  destruct Hstep as [t Hrej|fuel t w' step Hsub Hacc Hrem Hstep
                    |t w' Hsub Hacc Hrem Hadd|oid|fuel s w' res Hget].
  - by apply wf_reject.
  - by eapply wf_match_step.
  - by eapply wf_add_resting_limit.
  - by apply wf_cancel.
  - by eapply wf_get_best_resting.
Qed.

Lemma wf_engine_steps w w' : wf w → rtc engine_step w w' → wf w'.
Proof. intros Hwf Hsteps. induction Hsteps; eauto using wf_engine_step. Qed.

(** Every reachable state satisfies the invariants. *)
Lemma reachable_wf w : reachable w → wf w.
Proof. intros (w0 & Hinit & Hsteps). eauto using wf_engine_steps, wf_initial. Qed.

Lemma reachable_step w w' : reachable w → engine_step w w' → reachable w'.
Proof.
  intros (w0 & Hinit & Hsteps) Hstep. exists w0. split; [done|].
  by eapply rtc_r.
Qed.

Lemma reachable_steps w w' : reachable w → rtc engine_step w w' → reachable w'.
Proof.
  intros (w0 & Hinit & Hsteps) Hstep. exists w0. split; [done|].
  by etrans.
Qed.

(** ** The matching loop as a sequence of engine moves *)

Lemma match_step_frame fuel t w w' step :
  wf w → match_step fuel t w = Ok (w', step) →
  orders (book w') = orders (book w)
  ∧ book_symbol (book w') = book_symbol (book w)
  ∧ ∀ r, frozen (heap w r) (heap w' r).
Proof.
  intros Hwf Hstep. unfold match_step in Hstep.
  destruct (crosses (heap w t) (book w)) as [[|]| |]; simpl in Hstep; try done;
    [|injection Hstep as <- <-; split_and!; auto using frozen_refl].
  destruct (get_best_resting fuel (opp_side (side (heap w t))) w)
    as [[w1 maker]| |] eqn:Hget; simpl in Hstep; try done.
  destruct (get_best_resting_spec _ _ _ _ _ (wf_sides _ Hwf _) Hget)
    as (_ & (Hh & Hsym & Ho & _) & _).
  destruct maker as [m|].
  - destruct (execute t m w1) as [w2 tr] eqn:Hex. injection Hstep as <- <-.
    replace w2 with (execute t m w1).1 by (by rewrite Hex).
    split_and!; [done..|]. intros r. rewrite <-Hh. apply execute_frozen.
  - injection Hstep as <- <-. split_and!; [done..|].
    intros r. rewrite Hh. apply frozen_refl.
Qed.

Lemma frame_submittable w w' t :
  orders (book w') = orders (book w) →
  (∀ r, frozen (heap w r) (heap w' r)) →
  submittable w t → submittable w' t.
Proof.
  intros Ho Hfr Hsub. unfold submittable.
  destruct (Hfr t) as (-> & _). by rewrite Ho.
Qed.

Lemma frame_accepted w w' t :
  book_symbol (book w') = book_symbol (book w) →
  (∀ r, frozen (heap w r) (heap w' r)) →
  accepted w t → accepted w' t.
Proof.
  intros Hsym Hfr Hacc. unfold accepted.
  destruct (Hfr t) as (_ & _ & _ & -> & -> & _). by rewrite Hsym.
Qed.

Lemma match_loop_steps fuel n t w w' trades :
  wf w → submittable w t → accepted w t →
  match_loop fuel n t w = Ok (w', trades) →
  rtc engine_step w w' ∧ submittable w' t ∧ accepted w' t.
Proof.
  revert w w' trades. induction n as [|n IH]; simpl;
    intros w w' trades Hwf Hsub Hacc Hloop;
    case_bool_decide as Hrem; try done;
    try (injection Hloop as <- <-; by split_and!).
  destruct (match_step fuel t w) as [[w1 step]| |] eqn:Hstep; simpl in Hloop;
    try done.
  destruct (match_step_frame _ _ _ _ _ Hwf Hstep) as (Ho & Hsym & Hfr).
  assert (engine_step w w1) as Hes by by eapply step_pass.
  assert (submittable w1 t) by by eapply frame_submittable.
  assert (accepted w1 t) by by eapply frame_accepted.
  destruct step as [tr|]; [|injection Hloop as <- <-; split_and!; [|done..];
                             by apply rtc_once].
  destruct (match_loop fuel n t w1) as [[w2 trades']| |] eqn:Hrec;
    simpl in Hloop; try done.
  injection Hloop as <- <-.
  destruct (IH _ _ _ (wf_engine_step _ _ Hwf Hes) ltac:(done) ltac:(done) Hrec)
    as (Hsteps & ? & ?).
  split_and!; [|done..]. by eapply rtc_l.
Qed.

(** A call of [match_order] on a submittable order is a sequence of
    engine moves. *)
Lemma match_order_steps fuel t w w' trades :
  wf w → submittable w t →
  match_order fuel t w = Ok (w', trades) → rtc engine_step w w'.
Proof.
  intros Hwf Hsub Hmatch. unfold match_order in Hmatch.
  case_bool_decide as Hsym.
  { injection Hmatch as <- <-. apply rtc_once, step_reject. by intros [? _]. }
  case_bool_decide as Hty.
  { injection Hmatch as <- <-. apply rtc_once, step_reject. by intros [_ ?]. }
  assert (accepted w t) as Hacc by (split; first [done|by apply dec_stable]).
  destruct (match_loop fuel fuel t w) as [[w1 tr]| |] eqn:Hloop;
    simpl in Hmatch; try done.
  destruct (match_loop_steps _ _ _ _ _ _ Hwf Hsub Hacc Hloop)
    as (Hsteps & Hsub1 & Hacc1).
  case_bool_decide as Hrem; [|by injection Hmatch as <- <-].
  destruct (add_resting_limit t w1) as [w2| |] eqn:Hadd; simpl in Hmatch;
    try done.
  injection Hmatch as <- <-. eapply rtc_r; [done|]. by eapply step_rest.
Qed.

Lemma reachable_match_order fuel t w w' trades :
  reachable w → submittable w t →
  match_order fuel t w = Ok (w', trades) → reachable w'.
Proof.
  intros Hr Hsub Hmatch. eapply reachable_steps; [done|].
  eapply match_order_steps; [by apply reachable_wf|done..].
Qed.

Lemma reachable_cancel oid w : reachable w → reachable (cancel oid w).1.
Proof. intros Hr. eapply reachable_step; [done|apply step_cancel]. Qed.

(** ** One pass through the matching loop *)

Lemma remaining_fill_status o : remaining_qty (fill_status o) = remaining_qty o.
Proof. unfold fill_status. by case_bool_decide. Qed.

Lemma remaining_traded q o : remaining_qty (traded q o) = remaining_qty o - q.
Proof. unfold traded. by rewrite remaining_fill_status. Qed.

(** A pass that trades: the lookup reaped the opposite side and returned
    the maker [m], registered under [k] at the head of that side; the taker
    and the maker, two objects, were filled by the same quantity. *)
Lemma match_step_trade fuel t w w' tr :
  wf w → accepted w t → 0 < remaining_qty (heap w t) →
  match_step fuel t w = Ok (w', Some tr) →
  let s := opp_side (side (heap w t)) in
  ∃ w1 m k tl,
    get_best_resting fuel s w = Ok (w1, Some m)
    ∧ wf w1 ∧ reaped s w w1
    ∧ side_ids s (book w1) = k :: tl
    ∧ orders (book w) !! k = Some m ∧ order_id (heap w m) = k
    ∧ active (heap w m) = true ∧ 0 < remaining_qty (heap w m)
    ∧ t ≠ m
    ∧ w' = (execute t m w1).1 ∧ tr = (execute t m w1).2.
Proof.
  intros Hwf Hacc Hrem Hstep s. unfold match_step in Hstep.
  destruct (crosses (heap w t) (book w)) as [[|]| |]; simpl in Hstep; try done.
  fold s in Hstep.
  destruct (get_best_resting fuel s w) as [[w1 maker]| |] eqn:Hget;
    simpl in Hstep; try done.
  destruct (get_best_resting_spec _ _ _ _ _ (wf_sides _ Hwf _) Hget)
    as (Hwf1 & Hreap & Hres).
  assert (wf w1) as Hw1 by by eapply wf_reaped.
  destruct maker as [m|]; [|done].
  destruct (execute t m w1) as [w2 tr'] eqn:Hex. injection Hstep as <- <-.
  pose proof Hreap as (Hh & Hsym & Ho & _).
  destruct (heads_maker _ _ _ Hw1 Hres)
    as (k & Hk & Hid & _ & Hside & Hact & Hremm & _).
  destruct Hres as (p & k' & rest & tl & _ & _ & Hids & Hk').
  apply eligible_id_Some in Hk' as [Hk' _].
  assert (k' = k) as ->.
  { destruct (wf_registered _ Hw1 _ _ Hk') as (? & _). congruence. }
  rewrite Hh in Hid, Hside, Hact, Hremm. rewrite Ho in Hk.
  exists w1, m, k, tl. split_and!; try done.
  intros ->. unfold s in Hside. by destruct (side (heap w m)).
Qed.

Lemma match_step_trade_heap fuel t w w' tr :
  wf w → accepted w t → 0 < remaining_qty (heap w t) →
  match_step fuel t w = Ok (w', Some tr) →
  ∃ m k q,
    orders (book w) !! k = Some m ∧ t ≠ m
    ∧ active (heap w m) = true
    ∧ q = Z.min (remaining_qty (heap w t)) (remaining_qty (heap w m))
    ∧ 0 < q
    ∧ heap w' t = traded q (heap w t)
    ∧ heap w' m = traded q (heap w m)
    ∧ (∀ r, r ≠ t → r ≠ m → heap w' r = heap w r)
    ∧ tr = mkTrade (book_symbol (book w)) (price_cents (heap w m)) q k
             (order_id (heap w t)).
Proof.
  intros Hwf Hacc Hrem Hstep.
  destruct (match_step_trade _ _ _ _ _ Hwf Hacc Hrem Hstep)
    as (w1 & m & k & tl & _ & _ & (Hh & Hsym & _) & _ & Hk & Hid & Hact & Hremm
        & Hne & -> & ->).
  destruct (execute_heap t m w1 Hne) as (Ht & Hm & Hother).
  rewrite execute_trade. rewrite Hh, Hsym in *.
  exists m, k, (Z.min (remaining_qty (heap w t)) (remaining_qty (heap w m))).
  split_and!; try done; [lia|by rewrite Hid].
Qed.

(** ** Conservation of quantity *)

Lemma maker_qty_cons k tr trades :
  maker_qty k (tr :: trades)
  = (if decide (maker_order_id tr = k) then t_qty tr else 0) + maker_qty k trades.
Proof.
  unfold maker_qty. rewrite filter_cons. by case_decide.
Qed.

Lemma match_loop_conservation fuel n t w w' trades :
  wf w → accepted w t →
  match_loop fuel n t w = Ok (w', trades) →
  remaining_qty (heap w' t) + total_qty trades = remaining_qty (heap w t)
  ∧ (∀ k r, orders (book w) !! k = Some r → r ≠ t →
       remaining_qty (heap w r) - remaining_qty (heap w' r) = maker_qty k trades)
  ∧ (∀ r, r ≠ t → (∀ k, orders (book w) !! k ≠ Some r) → heap w' r = heap w r).
Proof.
  revert w w' trades. induction n as [|n IH]; simpl;
    intros w w' trades Hwf Hacc Hloop;
    case_bool_decide as Hrem; try done;
    try (injection Hloop as <- <-; split_and!; [simpl; lia| |done];
         intros k r _ _; unfold maker_qty; simpl; lia).
  destruct (match_step fuel t w) as [[w1 step]| |] eqn:Hstep; simpl in Hloop;
    try done.
  destruct step as [tr|].
  - destruct (match_loop fuel n t w1) as [[w2 trades']| |] eqn:Hrec;
      simpl in Hloop; try done.
    injection Hloop as <- <-.
    destruct (match_step_frame _ _ _ _ _ Hwf Hstep) as (Ho & Hsym & Hfr).
    assert (wf w1) as Hwf1 by by eapply wf_match_step.
    assert (accepted w1 t) as Hacc1 by by eapply frame_accepted.
    destruct (IH _ _ _ Hwf1 Hacc1 Hrec) as (IHt & IHm & IHo).
    destruct (match_step_trade_heap _ _ _ _ _ Hwf Hacc Hrem Hstep)
      as (m & k & q & Hk & Hne & _ & Hq & Hqpos & Ht & Hm & Hother & ->).
    split_and!.
    + simpl. rewrite Ht, remaining_traded in IHt. lia.
    + intros k' r Hr Hrt. rewrite maker_qty_cons. simpl.
      rewrite <-(IHm k' r) by (by rewrite ?Ho).
      destruct (decide (r = m)) as [->|Hrm].
      * assert (k = k') as Hkk.
        { destruct (wf_registered _ Hwf _ _ Hk), (wf_registered _ Hwf _ _ Hr).
          congruence. }
        rewrite decide_True by done. rewrite Hm, remaining_traded. lia.
      * rewrite decide_False by (intros ->; congruence).
        rewrite Hother by done. lia.
    + intros r Hrt Hunreg. rewrite IHo; [|done|by rewrite Ho].
      apply Hother; [done|]. intros ->. by destruct (Hunreg k).
  - injection Hloop as <- <-.
    unfold match_step in Hstep.
    destruct (crosses (heap w t) (book w)) as [[|]| |]; simpl in Hstep;
      try done.
    + destruct (get_best_resting fuel (opp_side (side (heap w t))) w)
        as [[w2 [m|]]| |] eqn:Hget; simpl in Hstep; try done.
      injection Hstep as <-.
      destruct (get_best_resting_spec _ _ _ _ _ (wf_sides _ Hwf _) Hget)
        as (_ & (Hh & _) & _).
      rewrite Hh. split_and!; [simpl; lia| |done].
      intros k r _ _. unfold maker_qty. simpl. lia.
    + injection Hstep as <-. split_and!; [simpl; lia| |done].
      intros k r _ _. unfold maker_qty. simpl. lia.
Qed.

Lemma reject_remaining t w r :
  remaining_qty (heap (reject t w) r) = remaining_qty (heap w r).
Proof.
  unfold reject; simpl. destruct (decide (t = r)) as [->|Hne].
  - by rewrite !upd_eq.
  - by rewrite !upd_ne.
Qed.

Lemma add_resting_limit_remaining t w w' r :
  add_resting_limit t w = Ok w' →
  remaining_qty (heap w' r) = remaining_qty (heap w r).
Proof.
  intros Hadd. destruct (add_resting_limit_spec _ _ _ Hadd) as (p & _ & _ & -> & _).
  destruct (decide (t = r)) as [->|Hne].
  - by rewrite upd_eq.
  - by rewrite upd_ne.
Qed.

(** C2: a call of [match_order] conserves quantity.  What the taker has
    left after the call, plus the quantity of the trades returned, is what
    it had left before; and every order of the book other than the taker
    has lost exactly the quantity of the returned trades that name it as
    maker. *)
Theorem match_order_conservation fuel t w w' trades :
  reachable w →
  match_order fuel t w = Ok (w', trades) →
  remaining_qty (heap w' t) + total_qty trades = remaining_qty (heap w t)
  ∧ ∀ k r, orders (book w) !! k = Some r → r ≠ t →
      remaining_qty (heap w r) - remaining_qty (heap w' r) = maker_qty k trades.
Proof.
  intros Hwf%reachable_wf Hmatch. unfold match_order in Hmatch.
  case_bool_decide as Hsym.
  { injection Hmatch as <- <-. split; [rewrite reject_remaining; simpl; lia|].
    intros k r _ _. rewrite reject_remaining. unfold maker_qty; simpl. lia. }
  case_bool_decide as Hty.
  { injection Hmatch as <- <-. split; [rewrite reject_remaining; simpl; lia|].
    intros k r _ _. rewrite reject_remaining. unfold maker_qty; simpl. lia. }
  assert (accepted w t) as Hacc by (split; first [done|by apply dec_stable]).
  destruct (match_loop fuel fuel t w) as [[w1 tr]| |] eqn:Hloop;
    simpl in Hmatch; try done.
  destruct (match_loop_conservation _ _ _ _ _ _ Hwf Hacc Hloop) as (Ht & Hm & _).
  case_bool_decide as Hrem; [|by injection Hmatch as <- <-].
  destruct (add_resting_limit t w1) as [w2| |] eqn:Hadd; simpl in Hmatch;
    try done.
  injection Hmatch as <- <-.
  split; [by rewrite (add_resting_limit_remaining _ _ _ _ Hadd)|].
  intros k r Hk Hne. rewrite (add_resting_limit_remaining _ _ _ _ Hadd).
  by apply Hm.
Qed.

(** ** The concrete books are reachable *)

Lemma constructed_of_fields o :
  new_order (user_id o) (symbol o) (side o) (type o) (qty o) (price_cents o)
    (client_order_id o) (order_id o) (created_ms o) = Ok o →
  constructed o.
Proof. intros H. unfold constructed. by repeat eexists. Qed.

Lemma start_initial : initial Scenario.start.
Proof.
  split; [|by exists "AAPL"]. intros r. apply constructed_of_fields.
  do 12 (destruct r as [|r]; [reflexivity|]). reflexivity.
Qed.

Lemma reachable_start : reachable Scenario.start.
Proof. exists Scenario.start. split; [apply start_initial|done]. Qed.

Lemma reachable_submit t w :
  reachable w → submittable w t → reachable (Scenario.submit t w).
Proof.
  intros Hr Hsub. unfold Scenario.submit, Scenario.after.
  destruct (match_order 8 t w) as [[w' tr]| |] eqn:Hm; [|done..].
  by eapply reachable_match_order.
Qed.

Lemma reachable_two_asks : reachable Scenario.two_asks.
Proof.
  apply reachable_submit; [apply reachable_submit|];
    [apply reachable_start|by vm_compute..].
Qed.

Lemma reachable_canceled_ask : reachable Scenario.canceled_ask.
Proof. apply reachable_cancel, reachable_two_asks. Qed.

Lemma reachable_filled_ask : reachable Scenario.filled_ask.
Proof. apply reachable_submit; [apply reachable_two_asks|by vm_compute]. Qed.

Lemma reachable_same_price : reachable Scenario.same_price.
Proof.
  apply reachable_submit; [apply reachable_submit|];
    [apply reachable_start|by vm_compute..].
Qed.

Lemma reachable_one_bid : reachable Scenario.one_bid.
Proof. apply reachable_submit; [apply reachable_start|by vm_compute]. Qed.

Lemma match_order_conservation_witness :
  reachable Scenario.two_asks
  ∧ remaining_qty (heap Scenario.filled_ask 2%nat)
    + total_qty [mkTrade "AAPL" (Some 100) 1 "a" "c"]
    = remaining_qty (heap Scenario.two_asks 2%nat).
Proof.
  split; [apply reachable_two_asks|].
  apply (match_order_conservation 8 2 Scenario.two_asks Scenario.filled_ask
           [mkTrade "AAPL" (Some 100) 1 "a" "c"]);
    [apply reachable_two_asks|by vm_compute].
Defined.

(** ** Cancellation *)

Lemma cancel_book oid w : book (cancel oid w).1 = book w.
Proof.
  unfold cancel. destruct (orders (book w) !! oid) as [r|]; [|done].
  by destruct (negb (active (heap w r)) || bool_decide (remaining_qty (heap w r) = 0)).
Qed.

Lemma cancel_success oid w :
  (cancel oid w).2 = true ↔
  ∃ r, orders (book w) !! oid = Some r ∧ active (heap w r) = true
       ∧ remaining_qty (heap w r) ≠ 0.
Proof.
  unfold cancel. destruct (orders (book w) !! oid) as [r|];
    [|split; [done|by intros (? & ? & _)]].
  destruct (active (heap w r)) eqn:Hact; simpl.
  - case_bool_decide as Hrem; simpl.
    + split; [done|]. intros (r' & [= <-] & _ & ?). done.
    + split; [|done]. intros _. by exists r.
  - split; [done|]. intros (r' & [= <-] & ? & _). congruence.
Qed.

Lemma cancel_effect oid w r :
  (cancel oid w).2 = true → orders (book w) !! oid = Some r →
  heap (cancel oid w).1 r
  = set_status CANCELED (set_remaining_qty 0 (set_active false (heap w r)))
  ∧ ∀ r', r' ≠ r → heap (cancel oid w).1 r' = heap w r'.
Proof.
  unfold cancel. intros Hok Hr. rewrite Hr in Hok |- *.
  destruct (negb (active (heap w r)) || bool_decide (remaining_qty (heap w r) = 0));
    [done|]. simpl. split.
  - by rewrite !upd_eq.
  - intros r' Hne. by rewrite !upd_ne.
Qed.

Lemma cancel_failure oid w : (cancel oid w).2 = false → (cancel oid w).1 = w.
Proof.
  unfold cancel. destruct (orders (book w) !! oid) as [r|]; [|done].
  by destruct (negb (active (heap w r)) || bool_decide (remaining_qty (heap w r) = 0)).
Qed.

(** C5: [cancel] succeeds exactly on an id the book holds whose order is
    active with a positive remaining quantity; on success the order is
    CANCELED, has nothing left and is inactive, and no other object changes;
    canceling the same id again fails; an unknown id fails and changes
    nothing; and in every case the book (order map, queues and price lists)
    is as it was.  The remaining quantity of an order is not negative. *)
Theorem cancel_contract oid w :
  (∀ r, orders (book w) !! oid = Some r → 0 ≤ remaining_qty (heap w r)) →
  ((cancel oid w).2 = true ↔
     ∃ r, orders (book w) !! oid = Some r ∧ active (heap w r) = true
          ∧ 0 < remaining_qty (heap w r))
  ∧ ((cancel oid w).2 = true →
       ∀ r, orders (book w) !! oid = Some r →
         status (heap (cancel oid w).1 r) = CANCELED
         ∧ remaining_qty (heap (cancel oid w).1 r) = 0
         ∧ active (heap (cancel oid w).1 r) = false
         ∧ ∀ r', r' ≠ r → heap (cancel oid w).1 r' = heap w r')
  ∧ (cancel oid (cancel oid w).1).2 = false
  ∧ (orders (book w) !! oid = None →
       (cancel oid w).2 = false ∧ (cancel oid w).1 = w)
  ∧ book (cancel oid w).1 = book w.
Proof.
  intros Hpos. split_and!.
  - rewrite cancel_success. split.
    + intros (r & Hr & Hact & Hrem). exists r. specialize (Hpos r Hr).
      split_and!; [done..|lia].
    + intros (r & Hr & Hact & Hrem). exists r. split_and!; [done..|lia].
  - intros Hok r Hr. destruct (cancel_effect _ _ _ Hok Hr) as [-> Hother].
    by split_and!.
  - destruct ((cancel oid w).2) eqn:Hok.
    + apply not_true_is_false. rewrite cancel_success, cancel_book.
      intros (r & Hr & Hact & _).
      destruct (cancel_effect _ _ _ Hok Hr) as [Heq _]. by rewrite Heq in Hact.
    + by rewrite (cancel_failure _ _ Hok).
  - intros Hnone. unfold cancel. by rewrite Hnone.
  - apply cancel_book.
Qed.

Lemma cancel_contract_witness :
  (∀ r, orders (book Scenario.two_asks) !! "a" = Some r →
        0 ≤ remaining_qty (heap Scenario.two_asks r))
  ∧ (cancel "a" Scenario.two_asks).2 = true
  ∧ (cancel "a" (cancel "a" Scenario.two_asks).1).2 = false.
Proof.
  assert (Hpos : ∀ r, orders (book Scenario.two_asks) !! "a" = Some r →
                      0 ≤ remaining_qty (heap Scenario.two_asks r)).
  { intros r Hr. vm_compute in Hr. injection Hr as <-. by vm_compute. }
  split; [exact Hpos|].
  destruct (cancel_contract "a" Scenario.two_asks Hpos) as (_ & _ & Htwice & _).
  split; [by vm_compute|exact Htwice].
Defined.

(** ** The best-order lookup *)

Lemma side_wf_queue s b p : side_wf s b → p ∈ prices s b ↔ queue_at s b p ≠ [].
Proof.
  intros (_ & Hdom & Hne). rewrite Hdom. unfold queue_at.
  destruct (levels s b !! p) as [q|] eqn:Hq; simpl.
  - split; [|by eauto]. intros _ ->. by destruct (Hne p).
  - split; [by intros []|done].
Qed.

(** C7: on a reachable book, [get_best_resting] returns (given a budget
    above the number of listed prices) either an order that is active with
    a positive remaining quantity and that is still at the head of the
    queue of the best price, or nothing, and then no queue of the side holds
    an eligible order.  The lookup changes no object, nor the order map, nor
    the other side; each queue loses a prefix of ineligible ids and nothing
    else, so an eligible order is never removed; a price is listed
    afterwards exactly when its queue is not empty; and the order returned
    is returned again, with the book untouched, as long as it is eligible,
    for instance after a partial fill. *)
Theorem get_best_resting_contract fuel s w :
  reachable w →
  (length (prices s (book w)) < fuel)%nat →
  ∃ w' res,
    get_best_resting fuel s w = Ok (w', res)
    ∧ match res with
      | Some r => ∃ p k rest,
          best_price s (book w') = Some p
          ∧ levels s (book w') !! p = Some (k :: rest)
          ∧ orders (book w') !! k = Some r
          ∧ active (heap w' r) = true ∧ 0 < remaining_qty (heap w' r)
      | None => ∀ p k, k ∈ queue_at s (book w) p → eligible_id w k = None
      end
    ∧ heap w' = heap w
    ∧ orders (book w') = orders (book w)
    ∧ levels (opp_side s) (book w') = levels (opp_side s) (book w)
    ∧ prices (opp_side s) (book w') = prices (opp_side s) (book w)
    ∧ (∀ p, ∃ pre, queue_at s (book w) p = pre ++ queue_at s (book w') p
                   ∧ Forall (λ k, eligible_id w k = None) pre)
    ∧ (∀ p k r, k ∈ queue_at s (book w) p → eligible_id w k = Some r →
                k ∈ queue_at s (book w') p)
    ∧ (∀ p, p ∈ prices s (book w') ↔ queue_at s (book w') p ≠ [])
    ∧ (∀ r, res = Some r → ∀ n h', eligible (h' r) = true →
         get_best_resting (S n) s (set_heap h' w')
         = Ok (set_heap h' w', Some r)).
Proof.
  intros Hwf%reachable_wf Hfuel.
  pose proof (wf_sides _ Hwf s) as Hside.
  destruct (get_best_resting_returns _ _ _ Hside Hfuel) as (w' & res & Hget).
  destruct (get_best_resting_spec _ _ _ _ _ Hside Hget) as (Hside' & Hreap & Hres).
  pose proof Hreap as (Hh & Hsym & Ho & Hl & Hp & Hq & _).
  exists w', res. split_and!; try done.
  - destruct res as [r|].
    + destruct Hres as (p & k & rest & tl & Hbest & Hlev & _ & Hk).
      apply eligible_id_Some in Hk as [Hk [Hact Hrem]%eligible_true].
      exists p, k, rest. by split_and!.
    + intros p k Hk. destruct (Hq p) as (pre & Hpre & Hinel).
      assert (queue_at s (book w') p = []) as Hnil.
      { destruct (decide (queue_at s (book w') p = [])) as [|Hne]; [done|].
        apply (side_wf_queue _ _ _ Hside') in Hne. rewrite Hres in Hne.
        by apply elem_of_nil in Hne. }
      rewrite Hnil, app_nil_r in Hpre. rewrite Hpre in Hk.
      rewrite Forall_forall in Hinel. by apply Hinel.
  - intros p k r Hk Hel. destruct (Hq p) as (pre & Hpre & Hinel).
    rewrite Hpre in Hk. apply elem_of_app in Hk as [Hk|Hk]; [|done].
    rewrite Forall_forall in Hinel. specialize (Hinel k Hk). congruence.
  - intros p. by apply side_wf_queue.
  - intros r -> n h' Hel. apply get_best_resting_heads.
    destruct Hres as (p & k & rest & tl & Hbest & Hlev & Hids & Hk).
    exists p, k, rest, tl. split_and!; try done.
    apply eligible_id_Some in Hk as [Hk _]. by apply eligible_id_Some.
Qed.

Lemma get_best_resting_contract_witness :
  reachable Scenario.canceled_ask
  ∧ ∃ w', get_best_resting 3 SELL Scenario.canceled_ask = Ok (w', Some 1%nat)
          ∧ ask_prices (book w') = [200].
Proof.
  split; [apply reachable_canceled_ask|].
  destruct (get_best_resting_contract 3 SELL Scenario.canceled_ask
              reachable_canceled_ask) as (w' & res & Hget & _);
    [vm_compute; lia|].
  exists w'. vm_compute in Hget. injection Hget as <- <-. by vm_compute.
Defined.

(** ** Termination *)

Lemma execute_taker_decreases t m w :
  0 < remaining_qty (heap w t) → 0 < remaining_qty (heap w m) →
  remaining_qty (heap (execute t m w).1 t) ≤ remaining_qty (heap w t) - 1.
Proof.
  intros Ht Hm. unfold execute; simpl.
  rewrite upd_eq, remaining_fill_status.
  destruct (decide (m = t)) as [->|Hne].
  - rewrite upd_eq, remaining_fill_status, !upd_eq. simpl. lia.
  - rewrite !(upd_ne m) by done. rewrite upd_eq. simpl. lia.
Qed.

Lemma get_best_resting_no_raise fuel s w e : get_best_resting fuel s w ≠ Raise e.
Proof.
  revert w. induction fuel as [|fuel IH]; simpl; intros w; [done|].
  destruct (best_price s (book w)); [|done].
  by destruct (_pop_next_active_at_price s _ w) as [w1 [r|]].
Qed.

Lemma match_step_side fuel t w w1 step :
  let s := opp_side (side (heap w t)) in
  side_wf s (book w) →
  match_step fuel t w = Ok (w1, step) →
  side_wf s (book w1)
  ∧ (length (prices s (book w1)) ≤ length (prices s (book w)))%nat
  ∧ side (heap w1 t) = side (heap w t).
Proof.
  intros s Hside Hstep. unfold match_step in Hstep.
  destruct (crosses (heap w t) (book w)) as [[|]| |]; simpl in Hstep; try done;
    [|by injection Hstep as <- <-].
  fold s in Hstep.
  destruct (get_best_resting fuel s w) as [[w' maker]| |] eqn:Hget;
    simpl in Hstep; try done.
  destruct (get_best_resting_spec _ _ _ _ _ Hside Hget)
    as (Hside' & (Hh & _ & _ & _ & _ & _ & _ & Hsub) & _).
  apply sublist_length in Hsub.
  destruct maker as [m|].
  - injection Hstep as <- <-.
    change (side_wf s (book w')
            ∧ (length (prices s (book w')) ≤ length (prices s (book w)))%nat
            ∧ side (heap (execute t m w').1 t) = side (heap w t)).
    split_and!; [done..|].
    destruct (execute_frozen t m w' t) as (_ & -> & _). by rewrite Hh.
  - injection Hstep as <- <-. by rewrite Hh.
Qed.

Lemma match_step_measure fuel t w w1 tr :
  side_wf (opp_side (side (heap w t))) (book w) →
  0 < remaining_qty (heap w t) →
  match_step fuel t w = Ok (w1, Some tr) →
  remaining_qty (heap w1 t) ≤ remaining_qty (heap w t) - 1.
Proof.
  intros Hside Hrem Hstep. unfold match_step in Hstep.
  destruct (crosses (heap w t) (book w)) as [[|]| |]; simpl in Hstep; try done.
  destruct (get_best_resting fuel _ w) as [[w' maker]| |] eqn:Hget;
    simpl in Hstep; try done.
  destruct (get_best_resting_spec _ _ _ _ _ Hside Hget)
    as (_ & (Hh & _) & Hres).
  destruct maker as [m|]; [|done].
  destruct Hres as (p & k & rest & tl & _ & _ & _ & Hk).
  apply eligible_id_Some in Hk as [_ [_ Hm]%eligible_true].
  destruct (execute t m w') as [w2 tr'] eqn:Hex. injection Hstep as <- <-.
  replace w2 with (execute t m w').1 by (by rewrite Hex).
  rewrite <-Hh. apply execute_taker_decreases; [by rewrite Hh|done].
Qed.

Lemma crosses_no_timeout o b : crosses o b ≠ Timeout.
Proof.
  unfold crosses.
  by destruct (side o), (best_ask b), (best_bid b), (price_cents o).
Qed.

Lemma match_step_returns fuel t w :
  side_wf (opp_side (side (heap w t))) (book w) →
  (length (prices (opp_side (side (heap w t))) (book w)) < fuel)%nat →
  match_step fuel t w ≠ Timeout.
Proof.
  intros Hside Hfuel. unfold match_step.
  pose proof (crosses_no_timeout (heap w t) (book w)) as Hc.
  destruct (crosses (heap w t) (book w)) as [[|]| |]; simpl; try done.
  destruct (get_best_resting_returns _ _ _ Hside Hfuel) as (w' & res & ->).
  simpl. by destruct res as [m|].
Qed.

Lemma match_loop_returns fuel n t w :
  side_wf (opp_side (side (heap w t))) (book w) →
  (length (prices (opp_side (side (heap w t))) (book w)) < fuel)%nat →
  (Z.to_nat (remaining_qty (heap w t)) ≤ n)%nat →
  match_loop fuel n t w ≠ Timeout.
Proof.
  revert w. induction n as [|n IH]; simpl; intros w Hside Hfuel Hn;
    case_bool_decide as Hrem; try done; [lia|].
  pose proof (match_step_returns _ _ _ Hside Hfuel) as Hret.
  destruct (match_step fuel t w) as [[w1 step]| |] eqn:Hstep; simpl; try done.
  destruct (match_step_side _ _ _ _ _ Hside Hstep) as (Hside1 & Hlen & Hsd).
  destruct step as [tr|]; [|done].
  pose proof (match_step_measure _ _ _ _ _ Hside Hrem Hstep) as Hdec.
  specialize (IH w1). rewrite Hsd in IH.
  destruct (match_loop fuel n t w1) as [[w2 trades]| |]; simpl; try done.
  apply IH; [done|lia|lia].
Qed.

(** More budget does not change a result. *)
Lemma get_best_resting_stable fuel fuel' s w :
  get_best_resting fuel s w ≠ Timeout → (fuel ≤ fuel')%nat →
  get_best_resting fuel' s w = get_best_resting fuel s w.
Proof.
  intros Hret Hle. destruct (get_best_resting fuel s w) as [x|e|] eqn:Hget.
  - by eapply get_best_resting_mono.
  - by destruct (get_best_resting_no_raise _ _ _ _ Hget).
  - done.
Qed.

Lemma match_step_stable fuel fuel' t w :
  match_step fuel t w ≠ Timeout → (fuel ≤ fuel')%nat →
  match_step fuel' t w = match_step fuel t w.
Proof.
  unfold match_step. intros Hret Hle.
  destruct (crosses (heap w t) (book w)) as [[|]| |]; simpl in *; try done.
  rewrite (get_best_resting_stable fuel fuel'); [done| |done].
  intros Heq. by rewrite Heq in Hret.
Qed.

Lemma match_loop_stable fuel fuel' n n' t w :
  match_loop fuel n t w ≠ Timeout → (fuel ≤ fuel')%nat → (n ≤ n')%nat →
  match_loop fuel' n' t w = match_loop fuel n t w.
Proof.
  revert n' w. induction n as [|n IH]; intros n' w Hret Hle Hn.
  - simpl in *. destruct n'; simpl; by case_bool_decide.
  - destruct n' as [|n']; [lia|]. simpl in *. case_bool_decide; [|done].
    rewrite (match_step_stable fuel fuel');
      [|intros Heq; by rewrite Heq in Hret|done].
    destruct (match_step fuel t w) as [[w1 [tr|]]| |]; simpl in *; try done.
    rewrite (IH n' w1); [done| |done|lia].
    intros Heq. by rewrite Heq in Hret.
Qed.

Lemma match_order_stable fuel fuel' t w :
  match_order fuel t w ≠ Timeout → (fuel ≤ fuel')%nat →
  match_order fuel' t w = match_order fuel t w.
Proof.
  unfold match_order. intros Hret Hle.
  case_bool_decide; [done|]. case_bool_decide; [done|].
  rewrite (match_loop_stable fuel fuel' fuel fuel'); [done| |done..].
  intros Heq. by rewrite Heq in Hret.
Qed.

(** C9: on a reachable book [match_order] terminates.  With a budget
    above the number of prices listed on the opposite side and not below
    the taker's remaining quantity the call returns or raises, and a larger
    budget gives the same outcome.  The two measures: a pass of the loop
    that trades takes at least 1 from the taker's remaining quantity, and a
    retry of the lookup (the best level held no eligible order) shortens
    the price list of the side. *)
Theorem match_order_terminates fuel t w :
  reachable w →
  (length (prices (opp_side (side (heap w t))) (book w)) < fuel)%nat →
  (Z.to_nat (remaining_qty (heap w t)) ≤ fuel)%nat →
  match_order fuel t w ≠ Timeout
  ∧ (∀ fuel', (fuel ≤ fuel')%nat →
       match_order fuel' t w = match_order fuel t w)
  ∧ (∀ n w1 tr,
       0 < remaining_qty (heap w t) →
       match_step n t w = Ok (w1, Some tr) →
       remaining_qty (heap w1 t) ≤ remaining_qty (heap w t) - 1)
  ∧ (∀ s p w1,
       best_price s (book w) = Some p →
       _pop_next_active_at_price s p w = (w1, None) →
       (length (prices s (book w1)) < length (prices s (book w)))%nat).
Proof.
  intros Hwf%reachable_wf Hfuel Hn.
  assert (match_order fuel t w ≠ Timeout) as Hret.
  { unfold match_order. case_bool_decide; [done|]. case_bool_decide; [done|].
    pose proof (match_loop_returns fuel fuel t w (wf_sides _ Hwf _) Hfuel Hn).
    destruct (match_loop fuel fuel t w) as [[w1 trades]| |]; simpl; try done.
    case_bool_decide; [|done].
    unfold add_resting_limit. case_bool_decide; [done|].
    by destruct (price_cents (heap w1 t)). }
  split_and!; [done| | |].
  - intros fuel' Hle. by apply match_order_stable.
  - intros n w1 tr Hrem Hstep.
    by eapply match_step_measure; [apply (wf_sides _ Hwf)|..].
  - intros s p w1 Hbest Hpop.
    destruct (pop_best _ _ _ _ _ (wf_sides _ Hwf s) Hbest Hpop) as (_ & _ & Hlen).
    lia.
Qed.

Lemma match_order_terminates_witness :
  reachable Scenario.filled_ask
  ∧ match_order 3 3 Scenario.filled_ask ≠ Timeout.
Proof.
  split; [apply reachable_filled_ask|].
  apply (match_order_terminates 3 3 Scenario.filled_ask);
    [apply reachable_filled_ask|vm_compute; lia..].
Defined.

(** ** Price-time priority *)

Lemma sorted_split_two (l : list Z) p1 p2 :
  StronglySorted Z.lt l → p1 ∈ l → p2 ∈ l → p1 < p2 →
  ∃ x y z, l = x ++ p1 :: y ++ p2 :: z.
Proof.
  intros Hs H1 H2 Hlt.
  apply list_elem_of_split in H1 as (x & y' & ->).
  apply StronglySorted_app in Hs as (Hxy & _ & Hs2).
  apply elem_of_app in H2 as [H2|H2].
  - specialize (Hxy p2 p1 H2). rewrite elem_of_cons in Hxy. lia.
  - apply elem_of_cons in H2 as [->|H2]; [lia|].
    apply list_elem_of_split in H2 as (y & z & ->). by exists x, y, z.
Qed.

Lemma ladder_split_two s b p1 p2 :
  StronglySorted Z.lt (prices s b) →
  p1 ∈ prices s b → p2 ∈ prices s b → better s p1 p2 →
  ∃ x y z, ladder s b = x ++ p1 :: y ++ p2 :: z.
Proof.
  intros Hs H1 H2 Hb. destruct s; simpl in *.
  - destruct (sorted_split_two _ _ _ Hs H2 H1 Hb) as (x & y & z & ->).
    exists (reverse z), (reverse y), (reverse x).
    rewrite reverse_app, reverse_cons, reverse_app, reverse_cons.
    by rewrite <-!app_assoc.
  - by apply sorted_split_two.
Qed.

Lemma queue_at_elem s b p k :
  k ∈ queue_at s b p ↔ ∃ q, levels s b !! p = Some q ∧ k ∈ q.
Proof.
  unfold queue_at. destruct (levels s b !! p) as [q|]; simpl.
  - split; [by eauto|]. by intros (q' & [= <-] & ?).
  - split; [by intros ?%elem_of_nil|]. by intros (q' & ? & _).
Qed.

Lemma side_ids_elem s b k :
  side_wf s b →
  k ∈ side_ids s b ↔ ∃ p q, levels s b !! p = Some q ∧ k ∈ q.
Proof.
  intros (_ & Hdom & _). unfold side_ids. rewrite list_elem_of_bind. split.
  - intros (p & Hk & _). apply queue_at_elem in Hk as (q & ? & ?). eauto.
  - intros (p & q & Hq & Hk). exists p. split.
    + apply queue_at_elem. eauto.
    + apply ladder_prices, Hdom. eauto.
Qed.

Lemma precedes_before s b k1 k2 :
  side_wf s b → precedes s b k1 k2 → before (side_ids s b) k1 k2.
Proof.
  intros (Hs & Hdom & _) [(p1 & p2 & q1 & q2 & Hq1 & Hq2 & Hk1 & Hk2 & Hb)
                         |(p & q & Hq & a & m & c & ->)].
  - destruct (ladder_split_two s b p1 p2) as (x & y & z & Hl);
      [done|apply Hdom; eauto..|done|].
    apply list_elem_of_split in Hk1 as (u1 & v1 & ->).
    apply list_elem_of_split in Hk2 as (u2 & v2 & ->).
    unfold side_ids, before.
    rewrite Hl, bind_app, bind_cons, bind_app, bind_cons.
    unfold queue_at at 2 4. rewrite Hq1, Hq2. simpl.
    exists ((x ≫= queue_at s b) ++ u1), (v1 ++ (y ≫= queue_at s b) ++ u2),
      (v2 ++ (z ≫= queue_at s b)).
    by rewrite <-!app_assoc.
  - assert (p ∈ ladder s b) as (x & y & Hl)%list_elem_of_split
      by (apply ladder_prices, Hdom; eauto).
    unfold side_ids, before. rewrite Hl, bind_app, bind_cons.
    unfold queue_at at 2. rewrite Hq. simpl.
    exists ((x ≫= queue_at s b) ++ a), m, (c ++ (y ≫= queue_at s b)).
    rewrite <-!app_assoc. simpl. by rewrite <-!app_assoc.
Qed.

Lemma wf_side_ids_nodup s w : wf w → NoDup (side_ids s (book w)).
Proof.
  intros Hwf. unfold side_ids. apply NoDup_bind.
  - intros p1 p2 k _ _ (q1 & ? & ?)%queue_at_elem (q2 & ? & ?)%queue_at_elem.
    by eapply (wf_queue_disjoint _ Hwf).
  - intros p _. unfold queue_at.
    destruct (levels s (book w) !! p) as [q|] eqn:Hq; simpl;
      [by eapply (wf_queue_nodup _ Hwf)|apply NoDup_nil_2].
  - apply sorted_ladder_nodup, (wf_sides _ Hwf).
Qed.

Lemma before_drop_prefix pre l k1 k2 :
  before (pre ++ l) k1 k2 → k1 ∉ pre → before l k1 k2.
Proof.
  intros (a & b & c & Heq) Hk1.
  apply app_eq_inv in Heq as [(x & -> & Heq)|(x & -> & ->)].
  - destruct x as [|y x]; simpl in Heq.
    + subst l. by exists [], b, c.
    + injection Heq as <- _. destruct Hk1.
      apply elem_of_app. right. by left.
  - by exists x, b, c.
Qed.

Lemma before_head_absurd k tl k1 : NoDup (k :: tl) → ¬ before (k :: tl) k1 k.
Proof.
  intros [Hk _]%NoDup_cons (a & b & c & Heq). apply Hk.
  destruct a as [|x a]; simpl in Heq; injection Heq as _ ->;
    rewrite ?elem_of_app, ?elem_of_cons, ?elem_of_app, ?elem_of_cons; auto.
Qed.

Lemma before_elem l k1 k2 : before l k1 k2 → k1 ∈ l.
Proof.
  intros (a & b & c & ->). apply elem_of_app. right. by left.
Qed.

Lemma eligible_traded q o : 0 ≤ q → eligible (traded q o) = true → eligible o = true.
Proof.
  intros Hq. rewrite !eligible_true, remaining_traded.
  unfold traded, fill_status.
  case_bool_decide; simpl; intros [Ha Hr]; [done|split; [done|lia]].
Qed.

Lemma maker_qty_none k trades :
  (∀ tr, tr ∈ trades → maker_order_id tr ≠ k) → maker_qty k trades = 0.
Proof.
  induction trades as [|tr trades IH]; intros Hne; [done|].
  rewrite maker_qty_cons, decide_False by (apply Hne; by left).
  rewrite IH; [done|]. intros tr' Htr'. apply Hne. by right.
Qed.

(** What a trading pass leaves of eligibility: an order eligible after the
    pass was eligible before it. *)
Lemma match_step_eligible fuel t w w1 tr k r :
  wf w → accepted w t → 0 < remaining_qty (heap w t) →
  match_step fuel t w = Ok (w1, Some tr) →
  eligible_id w1 k = Some r → eligible_id w k = Some r.
Proof.
  intros Hwf Hacc Hrem Hstep.
  destruct (match_step_frame _ _ _ _ _ Hwf Hstep) as (Ho & _).
  destruct (match_step_trade_heap _ _ _ _ _ Hwf Hacc Hrem Hstep)
    as (m & km & q & _ & _ & _ & _ & Hq & Ht & Hm & Hother & _).
  rewrite !eligible_id_Some, Ho. intros [Hk Hel]. split; [done|].
  destruct (decide (r = t)) as [->|Hrt]; [|destruct (decide (r = m)) as [->|Hrm]].
  - rewrite Ht in Hel. eapply eligible_traded; [|done]. lia.
  - rewrite Hm in Hel. eapply eligible_traded; [|done]. lia.
  - by rewrite Hother in Hel.
Qed.

(** Every trade of the loop names a maker that was eligible when the loop
    started. *)
Lemma match_loop_makers fuel n t w w' trades :
  wf w → accepted w t →
  match_loop fuel n t w = Ok (w', trades) →
  ∀ tr, tr ∈ trades → ∃ r, eligible_id w (maker_order_id tr) = Some r.
Proof.
  revert w w' trades. induction n as [|n IH]; simpl;
    intros w w' trades Hwf Hacc Hloop;
    case_bool_decide as Hrem; try done;
    try (injection Hloop as <- <-; by intros tr ?%elem_of_nil).
  destruct (match_step fuel t w) as [[w1 step]| |] eqn:Hstep; simpl in Hloop;
    try done.
  destruct step as [tr0|];
    [|injection Hloop as <- <-; by intros tr ?%elem_of_nil].
  destruct (match_loop fuel n t w1) as [[w2 trades']| |] eqn:Hrec;
    simpl in Hloop; try done.
  injection Hloop as <- <-.
  destruct (match_step_frame _ _ _ _ _ Hwf Hstep) as (Ho & Hsym & Hfr).
  assert (wf w1) as Hwf1 by by eapply wf_match_step.
  assert (accepted w1 t) as Hacc1 by by eapply frame_accepted.
  intros tr [->|Htr]%elem_of_cons.
  - destruct (match_step_trade_heap _ _ _ _ _ Hwf Hacc Hrem Hstep)
      as (m & k & q & Hk & _ & Hact & -> & Hq & _ & _ & _ & ->).
    exists m. simpl. apply eligible_id_Some. split; [done|].
    apply eligible_true. split; [done|lia].
  - destruct (IH _ _ _ Hwf1 Hacc1 Hrec tr Htr) as (r & Hr). exists r.
    by eapply match_step_eligible.
Qed.

Lemma match_loop_priority fuel n t w w' trades k1 k2 r1 :
  wf w → accepted w t →
  match_loop fuel n t w = Ok (w', trades) →
  before (side_ids (opp_side (side (heap w t))) (book w)) k1 k2 →
  eligible_id w k1 = Some r1 →
  ∀ l1 tr l2, trades = l1 ++ tr :: l2 → maker_order_id tr = k2 →
    maker_qty k1 l1 = remaining_qty (heap w r1).
Proof.
  revert w w' trades. induction n as [|n IH]; simpl;
    intros w w' trades Hwf Hacc Hloop Hbefore Hk1 l1 tr l2 Htrades Hk2;
    case_bool_decide as Hrem; try done;
    try (injection Hloop as <- <-; by destruct l1).
  destruct (match_step fuel t w) as [[w1 step]| |] eqn:Hstep; simpl in Hloop;
    try done.
  destruct step as [tr0|]; [|injection Hloop as <- <-; by destruct l1].
  destruct (match_loop fuel n t w1) as [[w2 trades']| |] eqn:Hrec;
    simpl in Hloop; try done.
  injection Hloop as <- <-.
  set (s := opp_side (side (heap w t))) in *.
  destruct (match_step_frame _ _ _ _ _ Hwf Hstep) as (Ho & Hsym & Hfr).
  assert (wf w1) as Hwf1 by by eapply wf_match_step.
  assert (accepted w1 t) as Hacc1 by by eapply frame_accepted.
  assert (side (heap w1 t) = side (heap w t)) as Hsd by by destruct (Hfr t) as (_ & ? & _).
  destruct (match_step_trade _ _ _ _ _ Hwf Hacc Hrem Hstep)
    as (w0 & m & k & tl & _ & Hwf0 & Hreap & Hids0 & Hk & Hid & Hact & Hremm
        & Hne & Hw1 & Htr0).
  fold s in Hreap, Hids0.
  destruct (match_step_trade_heap _ _ _ _ _ Hwf Hacc Hrem Hstep)
    as (m' & k' & q & Hk' & _ & _ & Hq & Hqpos & Ht & Hm & Hother & Htr0').
  assert (m' = m ∧ k' = k) as [-> ->].
  { rewrite Htr0' in Htr0. rewrite execute_trade in Htr0.
    apply (f_equal maker_order_id) in Htr0. simpl in Htr0.
    destruct Hreap as (Hh & _). rewrite Hh, Hid in Htr0. subst k'.
    split; [congruence|done]. }
  clear Hk' Htr0. subst tr0.
  (* the side after the lookup *)
  pose proof Hreap as (Hh0 & _ & _ & _ & _ & _ & (pre & Hpre & Hinel) & _).
  assert (Hbefore0 : before (k :: tl) k1 k2).
  { rewrite <-Hids0. eapply before_drop_prefix; [by rewrite <-Hpre|].
    intros Hin. rewrite Forall_forall in Hinel. specialize (Hinel _ Hin).
    congruence. }
  assert (Hnd : NoDup (k :: tl))
    by (rewrite <-Hids0; by apply wf_side_ids_nodup).
  assert (book w1 = book w0) as Hbook by (by rewrite Hw1).
  apply eligible_id_Some in Hk1 as [Hr1 Hel1].
  destruct l1 as [|tr0 l1]; simpl in Htrades; injection Htrades as <- ->.
  { (* the first trade names [k2]: nothing can precede the head *)
    simpl in Hk2. subst k2. by destruct (before_head_absurd _ _ _ Hnd Hbefore0). }
  (* the loop went on, so the maker of the first trade was exhausted *)
  assert (0 < remaining_qty (heap w1 t)) as Hrem1.
  { destruct n; simpl in Hrec; case_bool_decide; try done;
      injection Hrec as _ Hnil; by destruct l1. }
  rewrite Ht, remaining_traded in Hrem1.
  assert (q = remaining_qty (heap w m)) as Hqm by lia.
  rewrite maker_qty_cons. simpl.
  destruct (decide (k = k1)) as [<-|Hkk].
  - assert (r1 = m) as -> by congruence.
    rewrite maker_qty_none; [lia|].
    intros tr' Htr' Hname.
    destruct (match_loop_makers _ _ _ _ _ _ Hwf1 Hacc1 Hrec tr') as (r & Hr).
    { apply elem_of_app. by left. }
    rewrite Hname in Hr. apply eligible_id_Some in Hr as [Hr Hel].
    rewrite Ho in Hr. assert (r = m) as -> by congruence.
    rewrite Hm in Hel. apply eligible_true in Hel as [_ Hel].
    rewrite remaining_traded in Hel. lia.
  - (* [k1] is another order: untouched by the first pass *)
    assert (r1 ≠ m) as Hr1m.
    { intros ->. destruct (wf_registered _ Hwf _ _ Hr1) as (? & _). congruence. }
    assert (r1 ≠ t) as Hr1t.
    { intros ->. apply before_elem in Hbefore0. rewrite <-Hids0 in Hbefore0.
      apply (side_ids_elem _ _ _ (wf_sides _ Hwf0 s)) in Hbefore0
        as (p & qq & Hqq & Hin).
      destruct (wf_queued _ Hwf0 _ _ _ _ Hqq Hin) as (r & Hr & Hside & _).
      destruct Hreap as (Hh & _ & Ho0 & _). rewrite Ho0, Hh in *.
      assert (r = t) as -> by congruence.
      unfold s in Hside. by destruct (side (heap w t)). }
    rewrite <-(Hother r1) by done.
    eapply (IH w1); [done..| | |done|done].
    + rewrite Hsd. fold s. by rewrite Hbook, Hids0.
    + apply eligible_id_Some. rewrite Ho, Hother by done. done.
Qed.

(** C6: makers are consumed in price-time priority.  Take two ids of the
    side opposite to the taker, [k1] eligible and ahead of [k2]: at a
    strictly better price whatever the arrival order, or earlier in the queue
    of the same price.  If a returned trade names [k2] as maker, the trades
    returned before it have already taken the whole remaining quantity of
    [k1]. *)
Theorem match_order_price_time_priority fuel t w w' trades k1 k2 r1 :
  reachable w →
  match_order fuel t w = Ok (w', trades) →
  precedes (opp_side (side (heap w t))) (book w) k1 k2 →
  eligible_id w k1 = Some r1 →
  ∀ l1 tr l2,
    trades = l1 ++ tr :: l2 → maker_order_id tr = k2 →
    maker_qty k1 l1 = remaining_qty (heap w r1).
Proof.
  intros Hwf%reachable_wf Hmatch Hprec Hk1 l1 tr l2 Htrades Hk2.
  unfold match_order in Hmatch.
  case_bool_decide as Hsym; [injection Hmatch as <- <-; by destruct l1|].
  case_bool_decide as Hty; [injection Hmatch as <- <-; by destruct l1|].
  assert (accepted w t) as Hacc by (split; first [done|by apply dec_stable]).
  destruct (match_loop fuel fuel t w) as [[w1 trades1]| |] eqn:Hloop;
    simpl in Hmatch; try done.
  assert (trades1 = trades) as ->.
  { case_bool_decide; [|by injection Hmatch as <- <-].
    destruct (add_resting_limit t w1); simpl in Hmatch; try done.
    by injection Hmatch as <- <-. }
  eapply match_loop_priority; [done..| |done|done|done].
  by apply precedes_before; [apply (wf_sides _ Hwf)|].
Qed.

Lemma match_order_price_time_priority_witness :
  reachable Scenario.same_price
  ∧ maker_qty "s1" [mkTrade "AAPL" (Some 18760) 4 "s1" "b1"]
    = remaining_qty (heap Scenario.same_price 7%nat).
Proof.
  split; [apply reachable_same_price|].
  apply (match_order_price_time_priority 8 9 Scenario.same_price
           (Scenario.submit 9 Scenario.same_price)
           [mkTrade "AAPL" (Some 18760) 4 "s1" "b1";
            mkTrade "AAPL" (Some 18760) 2 "s2" "b1"]
           "s1" "s2" 7%nat)
    with (tr := mkTrade "AAPL" (Some 18760) 2 "s2" "b1") (l2 := []).
  - apply reachable_same_price.
  - by vm_compute.
  - right. exists 18760, ["s1"; "s2"]. split; [by vm_compute|].
    by exists [], [], [].
  - by vm_compute.
  - done.
  - done.
Defined.

(** ** The status machine *)

Lemma accepted_live_status w t :
  wf w → accepted w t → 0 < remaining_qty (heap w t) →
  status (heap w t) = NEW ∨ status (heap w t) = RESTING
  ∨ status (heap w t) = PARTIAL.
Proof.
  intros Hwf Hacc Hrem.
  destruct (wf_objects _ Hwf t) as (_ & Hdone & Hrej & _).
  destruct (status (heap w t)); auto.
  - destruct Hdone as [? _]; [by left|lia].
  - destruct Hdone as [? _]; [by right|lia].
  - by destruct Hrej as [_ []].
Qed.

Lemma registered_active_status w k r :
  wf w → orders (book w) !! k = Some r → active (heap w r) = true →
  status (heap w r) = RESTING ∨ status (heap w r) = PARTIAL.
Proof.
  intros Hwf Hk Hact.
  destruct (wf_registered _ Hwf _ _ Hk) as (_ & Hnew & Hrej).
  destruct (wf_objects _ Hwf r) as (_ & Hdone & _).
  destruct (status (heap w r)); auto; try done.
  - destruct Hdone as [_ ?]; [by left|congruence].
  - destruct Hdone as [_ ?]; [by right|congruence].
Qed.

Lemma match_step_break_heap fuel t w w' :
  wf w → match_step fuel t w = Ok (w', None) → heap w' = heap w.
Proof.
  intros Hwf Hstep. unfold match_step in Hstep.
  destruct (crosses (heap w t) (book w)) as [[|]| |]; simpl in Hstep; try done;
    [|by injection Hstep as <-].
  destruct (get_best_resting fuel _ w) as [[w1 [m|]]| |] eqn:Hget;
    simpl in Hstep; try done.
  injection Hstep as <-.
  by destruct (get_best_resting_spec _ _ _ _ _ (wf_sides _ Hwf _) Hget)
    as (_ & (? & _) & _).
Qed.

(** A move changes a status only from a status that is not final, and
    along [engine_transition]. *)
Lemma engine_step_status w w' r :
  wf w → engine_step w w' →
  status (heap w' r) = status (heap w r)
  ∨ (¬ terminal (status (heap w r))
     ∧ engine_transition (status (heap w r)) (status (heap w' r))).
Proof.
  intros Hwf Hstep.
  destruct Hstep as [t Hrej|fuel t w' step Hsub Hacc Hrem Hstep
                    |t w' Hsub Hacc Hrem Hadd|oid|fuel s w' res Hget].
  - destruct (decide (r = t)) as [->|Hne];
      [|left; by rewrite reject_other].
    rewrite reject_status.
    destruct (wf_objects _ Hwf t) as (_ & _ & _ & Hpast).
    destruct (status (heap w t)) eqn:Hst; auto;
      try (destruct Hrej; apply Hpast; by rewrite ?Hst).
    right. split; [by intros [?|[?|?]]|]. by do 2 constructor.
  - destruct step as [tr|];
      [|left; by rewrite (match_step_break_heap _ _ _ _ Hwf Hstep)].
    destruct (match_step_trade_heap _ _ _ _ _ Hwf Hacc Hrem Hstep)
      as (m & k & q & Hk & Hne & Hact & _ & _ & Ht & Hm & Hother & _).
    destruct (decide (r = t)) as [->|Hrt]; [|destruct (decide (r = m)) as [->|Hrm]].
    + rewrite Ht.
      destruct (accepted_live_status _ _ Hwf Hacc Hrem) as [-> |[-> | ->]],
               (traded_status q (heap w t)) as [-> | ->];
        auto; right; (split; [by intros [?|[?|?]]|]);
        first [by do 2 constructor|by constructor].
    + rewrite Hm.
      destruct (registered_active_status _ _ _ Hwf Hk Hact) as [-> | ->],
               (traded_status q (heap w m)) as [-> | ->];
        auto; right; (split; [by intros [?|[?|?]]|]); by do 2 constructor.
    + left. by rewrite Hother.
  - destruct (add_resting_limit_spec _ _ _ Hadd) as (p & _ & _ & -> & _).
    destruct (decide (t = r)) as [<-|Hne]; [|left; by rewrite upd_ne].
    rewrite upd_eq. simpl.
    destruct (accepted_live_status _ _ Hwf Hacc Hrem) as [-> |[-> | ->]];
      auto; right; (split; [by intros [?|[?|?]]|]);
      first [by do 2 constructor|by constructor].
  - destruct ((cancel oid w).2) eqn:Hok;
      [|left; by rewrite (cancel_failure _ _ Hok)].
    pose proof Hok as (r0 & Hr0 & Hact & _)%cancel_success.
    destruct (cancel_effect _ _ _ Hok Hr0) as [Heq Hother].
    destruct (decide (r = r0)) as [->|Hne]; [|left; by rewrite Hother].
    rewrite Heq. simpl.
    destruct (registered_active_status _ _ _ Hwf Hr0 Hact) as [-> | ->];
      right; (split; [by intros [?|[?|?]]|]); by do 2 constructor.
  - left.
    by destruct (get_best_resting_spec _ _ _ _ _ (wf_sides _ Hwf _) Hget)
      as (_ & (-> & _) & _).
Qed.

Lemma wf_terminal_inactive w r :
  wf w → terminal (status (heap w r)) → active (heap w r) = false.
Proof.
  intros Hwf Hterm. destruct (wf_objects _ Hwf r) as (_ & Hdone & Hrej & _).
  destruct Hterm as [?|[?|?]]; [by apply Hrej|apply Hdone; auto..].
Qed.

(** C3, as amended: from a reachable state, a move of the engine (a
    rejection, a pass of the matching loop, the resting of a remainder, a
    cancel, a lookup) leaves the status of an order as it is or changes it
    along the machine of the specification extended with NEW to PARTIAL and
    PARTIAL to RESTING, the path of a taker that is partly filled on arrival
    and then rests; a status among REJECTED, FILLED and CANCELED is never
    left; and an order with such a status is inactive, before and after the
    move. *)
Theorem status_machine w w' r :
  reachable w → engine_step w w' →
  (status (heap w' r) = status (heap w r)
   ∨ engine_transition (status (heap w r)) (status (heap w' r)))
  ∧ (terminal (status (heap w r)) → status (heap w' r) = status (heap w r))
  ∧ (terminal (status (heap w r)) → active (heap w r) = false)
  ∧ (terminal (status (heap w' r)) → active (heap w' r) = false).
Proof.
  intros Hwf%reachable_wf Hstep.
  pose proof (wf_engine_step _ _ Hwf Hstep) as Hwf'.
  destruct (engine_step_status w w' r Hwf Hstep) as [Heq|[Hnt Htr]].
  - split_and!; auto using wf_terminal_inactive.
  - split_and!; auto using wf_terminal_inactive. by intros ?.
Qed.

Lemma status_machine_witness :
  reachable Scenario.two_asks
  ∧ engine_step Scenario.two_asks Scenario.canceled_ask
  ∧ (status (heap Scenario.canceled_ask 0%nat)
     = status (heap Scenario.two_asks 0%nat)
     ∨ engine_transition (status (heap Scenario.two_asks 0%nat))
         (status (heap Scenario.canceled_ask 0%nat))).
Proof.
  split; [apply reachable_two_asks|]. split; [apply step_cancel|].
  apply (status_machine Scenario.two_asks Scenario.canceled_ask 0);
    [apply reachable_two_asks|apply step_cancel].
Defined.

Lemma reachable_one_ask : reachable Scenario.one_ask.
Proof. apply reachable_submit; [apply reachable_start|by vm_compute]. Qed.

Lemma first_pass_step : engine_step Scenario.one_ask Scenario.first_pass.
Proof.
  apply (step_pass _ 8 6 _ (Some (mkTrade "AAPL" (Some 100) 1 "a" "g")));
    by vm_compute.
Qed.

(** The whole call for that bid: one trade, then the remainder of 2
    rests; the status has gone from NEW through PARTIAL to RESTING. *)
Example partly_filled_taker_rests :
  status (heap Scenario.one_ask 6%nat) = NEW
  ∧ status (heap Scenario.first_pass 6%nat) = PARTIAL
  ∧ ∃ w', match_order 8 6 Scenario.one_ask
          = Ok (w', [mkTrade "AAPL" (Some 100) 1 "a" "g"])
          ∧ status (heap w' 6%nat) = RESTING
          ∧ remaining_qty (heap w' 6%nat) = 2.
Proof. split_and!; [by vm_compute..|]. eexists. by vm_compute. Qed.

(** C3, as stated, fails: a bid for 3 that buys the single ask of 1 at
    its price is set to PARTIAL by the loop, straight from NEW, and is
    RESTING only after [add_resting_limit]; the machine of the specification
    has no move from NEW to PARTIAL. *)
Lemma spec_machine_violated : ¬ respects spec_transition.
Proof.
  intros Hresp.
  destruct (Hresp Scenario.one_ask Scenario.first_pass 6%nat
              reachable_one_ask first_pass_step) as [Heq|Htr].
  - vm_compute in Heq. discriminate.
  - vm_compute in Htr. inversion Htr.
Qed.

(** Every trade is made at the [price_cents] of its maker, an order the
    book holds under the id the trade names. *)
Lemma match_loop_trade_price fuel n t w w' trades :
  wf w → accepted w t →
  match_loop fuel n t w = Ok (w', trades) →
  ∀ tr, tr ∈ trades →
    ∃ m, orders (book w) !! maker_order_id tr = Some m
         ∧ t_price tr = price_cents (heap w m).
Proof.
  revert w w' trades. induction n as [|n IH]; simpl;
    intros w w' trades Hwf Hacc Hloop;
    case_bool_decide as Hrem; try done;
    try (injection Hloop as <- <-; by intros tr ?%elem_of_nil).
  destruct (match_step fuel t w) as [[w1 step]| |] eqn:Hstep; simpl in Hloop;
    try done.
  destruct step as [tr0|];
    [|injection Hloop as <- <-; by intros tr ?%elem_of_nil].
  destruct (match_loop fuel n t w1) as [[w2 trades']| |] eqn:Hrec;
    simpl in Hloop; try done.
  injection Hloop as <- <-.
  destruct (match_step_frame _ _ _ _ _ Hwf Hstep) as (Ho & Hsym & Hfr).
  assert (wf w1) as Hwf1 by by eapply wf_match_step.
  assert (accepted w1 t) as Hacc1 by by eapply frame_accepted.
  intros tr [->|Htr]%elem_of_cons.
  - destruct (match_step_trade_heap _ _ _ _ _ Hwf Hacc Hrem Hstep)
      as (m & k & q & Hk & _ & _ & _ & _ & _ & _ & _ & ->).
    by exists m.
  - destruct (IH _ _ _ Hwf1 Hacc1 Hrec tr Htr) as (m & Hm & Hp).
    exists m. rewrite <-Ho. split; [done|].
    by destruct (Hfr m) as (_ & _ & <- & _).
Qed.

Lemma match_order_trade_price fuel t w w' trades :
  reachable w →
  match_order fuel t w = Ok (w', trades) →
  ∀ tr, tr ∈ trades →
    ∃ m, orders (book w) !! maker_order_id tr = Some m
         ∧ t_price tr = price_cents (heap w m).
Proof.
  intros Hwf%reachable_wf Hmatch. unfold match_order in Hmatch.
  case_bool_decide as Hsym;
    [injection Hmatch as <- <-; by intros tr ?%elem_of_nil|].
  case_bool_decide as Hty;
    [injection Hmatch as <- <-; by intros tr ?%elem_of_nil|].
  assert (accepted w t) as Hacc by (split; first [done|by apply dec_stable]).
  destruct (match_loop fuel fuel t w) as [[w1 trades1]| |] eqn:Hloop;
    simpl in Hmatch; try done.
  assert (trades1 = trades) as ->.
  { case_bool_decide; [|by injection Hmatch as <- <-].
    destruct (add_resting_limit t w1); simpl in Hmatch; try done.
    by injection Hmatch as <- <-. }
  by eapply match_loop_trade_price.
Qed.

(** C1, the failing input.  The asks "a" (1 at 100) and "b" (1 at 200)
    rest; the bid "c" buys "a", whose level stays listed.  The bid "d", limit
    150, passes the crossing test against the stale best ask 100; the lookup
    then reaps that level and returns "b": "d" pays 200. *)
Theorem stale_best_ask_breaks_limit :
  reachable Scenario.filled_ask
  ∧ submittable Scenario.filled_ask 3
  ∧ side (heap Scenario.filled_ask 3%nat) = BUY
  ∧ type (heap Scenario.filled_ask 3%nat) = LIMIT
  ∧ price_cents (heap Scenario.filled_ask 3%nat) = Some 150
  ∧ best_ask (book Scenario.filled_ask) = Some 100
  ∧ ∃ w', match_order 8 3 Scenario.filled_ask
          = Ok (w', [mkTrade "AAPL" (Some 200) 1 "b" "d"]).
Proof.
  split; [apply reachable_filled_ask|]. split_and!; try by vm_compute.
  eexists. by vm_compute.
Qed.

(** ** The depth snapshot *)

Lemma reverse_drop_take {A} (l : list A) n :
  reverse (drop (length l - n) l) = take n (reverse l).
Proof.
  destruct (decide (n ≤ length l)%nat) as [Hle|Hgt].
  - rewrite <-(take_drop (length l - n) l) at 3.
    rewrite reverse_app, take_app_length'; [done|].
    rewrite length_reverse, length_drop. lia.
  - replace (length l - n)%nat with 0%nat by lia. rewrite drop_0.
    rewrite take_ge; [done|]. rewrite length_reverse. lia.
Qed.

(** For a positive depth both sides of the snapshot are the first [depth]
    levels of the ladder, best first. *)
Lemma snapshot_l2_positive depth w :
  0 < depth →
  snapshot_l2 depth w
  = mkSnapshot
      (level_row BUY w <$> take (Z.to_nat depth) (ladder BUY (book w)))
      (level_row SELL w <$> take (Z.to_nat depth) (ladder SELL (book w))).
Proof.
  intros Hd. unfold snapshot_l2, slice_from, slice_to, slice_bound. simpl.
  rewrite bool_decide_eq_true_2, bool_decide_eq_false_2 by lia.
  f_equal. f_equal.
  rewrite <-reverse_drop_take. do 2 f_equal. lia.
Qed.

(** C8, the failing input: with depth 0 the bid side lists every level
    (here the one level of the book) where the ask side lists none. *)
Theorem snapshot_l2_depth_zero :
  reachable Scenario.one_bid
  ∧ snap_bids (snapshot_l2 0 Scenario.one_bid) = [(100, 3)]
  ∧ snap_asks (snapshot_l2 0 Scenario.canceled_ask) = [].
Proof. split; [apply reachable_one_bid|]. by vm_compute. Qed.

(** C10: a level whose only order has been canceled is still listed, is
    reported with quantity 0, and takes the one place of a snapshot of
    depth 1, although the level at 200 holds an eligible order. *)
Theorem snapshot_l2_reports_stale_level :
  reachable Scenario.canceled_ask
  ∧ snap_asks (snapshot_l2 1 Scenario.canceled_ask) = [(100, 0)]
  ∧ asks (book Scenario.canceled_ask) !! 200 = Some ["b"]
  ∧ eligible_id Scenario.canceled_ask "b" = Some 1%nat
  ∧ snap_asks (snapshot_l2 2 Scenario.canceled_ask) = [(100, 0); (200, 1)].
Proof. split; [apply reachable_canceled_ask|]. by vm_compute. Qed.

(** The repository's test [test_basic_match_limit]: a sell of 10 rests, a
    buy of 5 at the same price trades 5 at that price, and the snapshot shows
    the 5 left on the ask side. *)
Example test_basic_match_limit :
  let w1 := Scenario.submit 10 Scenario.start in
  ∃ w2, match_order 8 11 w1 = Ok (w2, [mkTrade "AAPL" (Some 18760) 5 "s" "b"])
        ∧ snap_asks (snapshot_l2 10 w2) = [(18760, 5)].
Proof. eexists. by vm_compute. Qed.

(** * Further properties of the code *)

(** ** Construction of orders *)

(** X1: [Order.__post_init__] accepts exactly a positive quantity with,
    for LIMIT, a positive price and, for MARKET, no price; the order built
    has its whole quantity remaining, is NEW and active.  Anything else
    raises [ValueError]. *)
Theorem new_order_validation uid sym sd ty q price coid oid ms :
  match new_order uid sym sd ty q price coid oid ms with
  | Ok o =>
      valid_order_args ty q price
      ∧ o = mkOrder uid sym sd ty q price coid oid ms q NEW true
  | Raise (ValueError _) => ¬ valid_order_args ty q price
  | _ => False
  end.
Proof.
  unfold new_order, valid_order_args. case_bool_decide as Hq.
  - intros [? _]. lia.
  - destruct ty, price as [p|]; simpl.
    + case_bool_decide as Hp.
      * intros (_ & p' & [= <-] & ?). lia.
      * split; [|done]. split; [lia|]. exists p. split; [done|lia].
    + by intros (_ & p' & ? & _).
    + by intros (_ & ?).
    + split; [|done]. split; [lia|done].
Qed.

(** ** Price levels *)

Lemma set_prices_levels_id s b : set_prices s (prices s b) (set_levels s (levels s b) b) = b.
Proof. by destruct s, b. Qed.

Lemma insort_middle l x :
  ∃ l1 l2, l = l1 ++ l2 ∧ insort l x = l1 ++ x :: l2.
Proof.
  exists (take (bisect_right l x) l), (drop (bisect_right l x) l).
  by rewrite take_drop.
Qed.

(** X2: [_ensure_price_level] leaves a book that already has the level as
    it is; otherwise it opens an empty queue at the price and lists the
    price, keeping the list strictly ascending.  No queue changes, and a
    second call does nothing. *)
Theorem ensure_price_level_spec s p b :
  side_wf s b →
  let b' := _ensure_price_level s p b in
  StronglySorted Z.lt (prices s b')
  ∧ (∀ p', p' ∈ prices s b' ↔ is_Some (levels s b' !! p'))
  ∧ is_Some (levels s b' !! p)
  ∧ (∀ p', queue_at s b' p' = queue_at s b p')
  ∧ (is_Some (levels s b !! p) → b' = b)
  ∧ _ensure_price_level s p b' = b'
  ∧ levels (opp_side s) b' = levels (opp_side s) b
  ∧ prices (opp_side s) b' = prices (opp_side s) b
  ∧ orders b' = orders b.
Proof.
  intros (Hs & Hdom & _) b'. unfold b', _ensure_price_level.
  destruct (levels s b !! p) as [q|] eqn:Hq.
  - rewrite Hq. split_and!; by eauto.
  - autorewrite with book. rewrite lookup_insert_eq.
    assert (p ∉ prices s b) as Hp by (rewrite Hdom, Hq; by intros []).
    split_and!; try done.
    + by apply insort_sorted.
    + intros p'. rewrite insort_elem_of, lookup_insert, Hdom.
      case_decide; subst; [split; by eauto|]. intuition congruence.
    + intros p'. unfold queue_at. autorewrite with book.
      rewrite lookup_insert. case_decide; subst; by rewrite ?Hq.
Qed.

Lemma ensure_price_level_spec_witness :
  side_wf SELL (book Scenario.two_asks)
  ∧ is_Some (levels SELL
               (_ensure_price_level SELL 150 (book Scenario.two_asks)) !! 150).
Proof.
  assert (Hwf : side_wf SELL (book Scenario.two_asks))
    by apply (wf_sides _ (reachable_wf _ reachable_two_asks)).
  split; [exact Hwf|].
  by destruct (ensure_price_level_spec SELL 150 (book Scenario.two_asks) Hwf)
    as (_ & _ & H & _).
Defined.

(** X3: opening a level that is then found empty is undone by
    [_cleanup_level_if_empty]: the book is back as it was, queue map and
    price list included. *)
Theorem ensure_then_cleanup s p b :
  side_wf s b → levels s b !! p = None →
  _cleanup_level_if_empty s p (_ensure_price_level s p b) = b.
Proof.
  intros (Hs & Hdom & _) Hq.
  assert (p ∉ prices s b) as Hp by (rewrite Hdom, Hq; by intros []).
  unfold _ensure_price_level. rewrite Hq.
  destruct (insort_middle (prices s b) p) as (l1 & l2 & Hl & Hins).
  rewrite (cleanup_level_spec _ _ _ l1 l2); autorewrite with book.
  - rewrite delete_insert_eq, delete_id by done.
    destruct s, b; simpl in *; by subst.
  - by apply insort_sorted.
  - done.
  - by rewrite lookup_insert_eq.
Qed.

Lemma ensure_then_cleanup_witness :
  side_wf SELL (book Scenario.two_asks)
  ∧ asks (book Scenario.two_asks) !! 150 = None
  ∧ _cleanup_level_if_empty SELL 150
      (_ensure_price_level SELL 150 (book Scenario.two_asks))
    = book Scenario.two_asks.
Proof.
  assert (Hwf : side_wf SELL (book Scenario.two_asks))
    by apply (wf_sides _ (reachable_wf _ reachable_two_asks)).
  split; [exact Hwf|]. split; [by vm_compute|].
  apply (ensure_then_cleanup SELL 150 (book Scenario.two_asks) Hwf).
  by vm_compute.
Defined.

Lemma sorted_last_max (l : list Z) p :
  StronglySorted Z.lt l → last l = Some p → ∀ p', p' ∈ l → p' = p ∨ p' < p.
Proof.
  intros Hs [l' ->]%last_Some p' Hin.
  apply StronglySorted_app in Hs as (Hlt & _ & _).
  apply elem_of_app in Hin as [Hin|Hin%list_elem_of_singleton]; [|by left].
  right. apply Hlt; [done|]. by left.
Qed.

Lemma sorted_head_min (l : list Z) p :
  StronglySorted Z.lt l → head l = Some p → ∀ p', p' ∈ l → p' = p ∨ p < p'.
Proof.
  intros Hs [l' ->]%head_Some p' Hin.
  apply StronglySorted_inv in Hs as [_ Hall].
  apply elem_of_cons in Hin as [->|Hin]; [by left|].
  right. rewrite Forall_forall in Hall. by apply Hall.
Qed.

(** X4: on a reachable book [best_bid] is the highest and [best_ask] the
    lowest listed price, and the price returned has a level with a queue that
    is not empty; the answer is [None] exactly when the side has no level at
    all. *)
Theorem best_price_extremal s w :
  reachable w →
  match best_price s (book w) with
  | Some p =>
      p ∈ prices s (book w)
      ∧ queue_at s (book w) p ≠ []
      ∧ ∀ p', p' ∈ prices s (book w) → p' = p ∨ better s p p'
  | None => prices s (book w) = [] ∧ levels s (book w) = ∅
  end.
Proof.
  intros Hwf%reachable_wf. pose proof (wf_sides _ Hwf s) as Hside.
  pose proof Hside as (Hs & Hdom & _).
  destruct (best_price s (book w)) as [p|] eqn:Hbest.
  - assert (p ∈ prices s (book w)) as Hin.
    { rewrite best_price_head in Hbest.
      apply ladder_prices. by apply head_Some_elem_of. }
    split_and!; [done|by apply side_wf_queue|].
    destruct s; simpl in *.
    + by apply sorted_last_max.
    + by apply sorted_head_min.
  - assert (prices s (book w) = []) as Hnil.
    { rewrite best_price_head in Hbest.
      destruct (ladder s (book w)) eqn:Hl; [|done].
      apply (f_equal length) in Hl. rewrite ladder_length in Hl.
      by apply nil_length_inv. }
    split; [done|]. apply map_eq. intros p. rewrite lookup_empty.
    apply eq_None_not_Some. rewrite <-Hdom, Hnil. by intros ?%elem_of_nil.
Qed.

Lemma best_price_extremal_witness :
  reachable Scenario.two_asks
  ∧ best_price SELL (book Scenario.two_asks) = Some 100
  ∧ ∀ p', p' ∈ prices SELL (book Scenario.two_asks) → p' = 100 ∨ 100 < p'.
Proof.
  split; [apply reachable_two_asks|]. split; [by vm_compute|].
  pose proof (best_price_extremal SELL Scenario.two_asks reachable_two_asks)
    as H.
  vm_compute best_price in H. by destruct H as (_ & _ & H).
Defined.

(** X5: the consistency of a reachable book.  On each side the price list
    is strictly ascending and lists exactly the prices whose queue is not
    empty; an id occurs at most once in the whole side; every queued id is
    held by the order map, and its order carries that id, that side, that
    price, the book's symbol and type LIMIT; no id waits on both sides. *)
Theorem reachable_book_consistent s w :
  reachable w →
  StronglySorted Z.lt (prices s (book w))
  ∧ (∀ p, p ∈ prices s (book w) ↔ queue_at s (book w) p ≠ [])
  ∧ (∀ p, is_Some (levels s (book w) !! p) ↔ queue_at s (book w) p ≠ [])
  ∧ NoDup (side_ids s (book w))
  ∧ (∀ p k, k ∈ queue_at s (book w) p →
       ∃ r, orders (book w) !! k = Some r
            ∧ order_id (heap w r) = k
            ∧ side (heap w r) = s
            ∧ price_cents (heap w r) = Some p
            ∧ symbol (heap w r) = book_symbol (book w)
            ∧ type (heap w r) = LIMIT)
  ∧ (∀ k, k ∈ side_ids s (book w) → k ∉ side_ids (opp_side s) (book w)).
Proof.
  intros Hwf%reachable_wf. pose proof (wf_sides _ Hwf s) as Hside.
  pose proof Hside as (Hs & Hdom & Hne).
  assert (Hq : ∀ s' p k, k ∈ queue_at s' (book w) p →
            ∃ r, orders (book w) !! k = Some r
                 ∧ order_id (heap w r) = k
                 ∧ side (heap w r) = s'
                 ∧ price_cents (heap w r) = Some p
                 ∧ symbol (heap w r) = book_symbol (book w)
                 ∧ type (heap w r) = LIMIT).
  { intros s' p k (q & Hq & Hk)%queue_at_elem.
    destruct (wf_queued _ Hwf _ _ _ _ Hq Hk) as (r & Hr & Hsd & Hpr).
    destruct (wf_registered _ Hwf _ _ Hr) as (Hid & Hnew & Hrej).
    destruct (wf_objects _ Hwf r) as (_ & _ & _ & Hacc).
    destruct (Hacc Hnew Hrej). exists r. by split_and!. }
  split_and!; try done.
  - intros p. by apply side_wf_queue.
  - intros p. rewrite <-Hdom. by apply side_wf_queue.
  - by apply wf_side_ids_nodup.
  - intros p k. apply Hq.
  - intros k (p1 & Hk1 & _)%list_elem_of_bind (p2 & Hk2 & _)%list_elem_of_bind.
    destruct (Hq _ _ _ Hk1) as (r1 & Hr1 & _ & Hs1 & _).
    destruct (Hq _ _ _ Hk2) as (r2 & Hr2 & _ & Hs2 & _).
    assert (r1 = r2) as -> by congruence.
    rewrite Hs1 in Hs2. by destruct s.
Qed.

Lemma reachable_book_consistent_witness :
  reachable Scenario.same_price
  ∧ NoDup (side_ids SELL (book Scenario.same_price)).
Proof.
  split; [apply reachable_same_price|].
  by destruct (reachable_book_consistent SELL Scenario.same_price
                 reachable_same_price) as (_ & _ & _ & H & _).
Defined.

(** ** Resting an order *)

(** X6: [add_resting_limit] raises exactly when the order's symbol is not
    the book's or the order has no price.  Otherwise the order map holds the
    order under its id, the id stands last in the queue of its price on its
    side behind the ids that were waiting there, the price is listed, the
    order is RESTING with its other fields as they were, and nothing else
    changes: no other object, no other queue, not the other side. *)
Theorem add_resting_limit_registers t w :
  side_wf (side (heap w t)) (book w) →
  let o := heap w t in
  match add_resting_limit t w with
  | Ok w' =>
      symbol o = book_symbol (book w)
      ∧ orders (book w') = <[order_id o := t]> (orders (book w))
      ∧ heap w' t = set_status RESTING o
      ∧ (∀ r, r ≠ t → heap w' r = heap w r)
      ∧ (∃ p, price_cents o = Some p
           ∧ queue_at (side o) (book w') p
             = queue_at (side o) (book w) p ++ [order_id o]
           ∧ p ∈ prices (side o) (book w')
           ∧ (∀ p', p' ≠ p →
                queue_at (side o) (book w') p' = queue_at (side o) (book w) p'))
      ∧ side_wf (side o) (book w')
      ∧ levels (opp_side (side o)) (book w') = levels (opp_side (side o)) (book w)
      ∧ prices (opp_side (side o)) (book w') = prices (opp_side (side o)) (book w)
      ∧ book_symbol (book w') = book_symbol (book w)
  | Raise (ValueError _) =>
      symbol o ≠ book_symbol (book w) ∨ price_cents o = None
  | _ => False
  end.
Proof.
  intros Hside o.
  destruct (add_resting_limit t w) as [w'|e|] eqn:Hadd.
  - destruct (add_resting_limit_spec _ _ _ Hadd)
      as (p & Hp & Hsym & Hh & Hbs & Ho & Hl & Hpr & Hlo & Hpo).
    fold o in Hp, Hsym, Ho, Hl, Hpr, Hlo, Hpo, Hside.
    pose proof Hside as (Hs & Hdom & Hne).
    assert (Hqa : ∀ p', queue_at (side o) (book w') p'
                  = if decide (p = p')
                    then queue_at (side o) (book w) p ++ [order_id o]
                    else queue_at (side o) (book w) p').
    { intros p'. unfold queue_at at 1. rewrite Hl, lookup_insert.
      by case_decide. }
    assert (Hlisted : ∀ p', p' ∈ prices (side o) (book w')
                            ↔ is_Some (levels (side o) (book w') !! p')).
    { intros p'. rewrite Hl, Hpr, lookup_insert. case_decide as Hpp.
      - subst p'. split; [by eauto|]. intros _.
        destruct (levels (side o) (book w) !! p) eqn:Hq.
        + rewrite Hdom, Hq. by eauto.
        + apply insort_elem_of. by left.
      - destruct (levels (side o) (book w) !! p) eqn:Hq; [by rewrite Hdom|].
        rewrite insort_elem_of, Hdom. intuition congruence. }
    split_and!; try done.
    + by rewrite Hh, upd_eq.
    + intros r Hne'. by rewrite Hh, upd_ne.
    + exists p. split_and!; [done| | |].
      * by rewrite Hqa, decide_True.
      * apply Hlisted. rewrite Hl, lookup_insert_eq. by eauto.
      * intros p' Hpp. by rewrite Hqa, decide_False.
    + split_and!; [|done|].
      * rewrite Hpr. destruct (levels (side o) (book w) !! p) eqn:Hq; [done|].
        apply insort_sorted; [done|]. rewrite Hdom, Hq. by intros [].
      * intros p'. rewrite Hl, lookup_insert. case_decide; [|apply Hne].
        intros [= Heq]. by destruct (queue_at (side o) (book w) p).
  - unfold add_resting_limit in Hadd. fold o in Hadd.
    case_bool_decide as Hsym.
    + injection Hadd as <-. by left.
    + destruct (price_cents o); [done|]. injection Hadd as <-. by right.
  - unfold add_resting_limit in Hadd. fold o in Hadd.
    case_bool_decide; [done|]. by destruct (price_cents o).
Qed.

Lemma add_resting_limit_registers_witness :
  side_wf (side (heap Scenario.two_asks 6%nat)) (book Scenario.two_asks)
  ∧ ∃ w', add_resting_limit 6 Scenario.two_asks = Ok w'
          ∧ orders (book w') !! "g" = Some 6%nat.
Proof.
  assert (Hwf : side_wf (side (heap Scenario.two_asks 6%nat))
                  (book Scenario.two_asks))
    by apply (wf_sides _ (reachable_wf _ reachable_two_asks)).
  split; [exact Hwf|].
  pose proof (add_resting_limit_registers 6 Scenario.two_asks Hwf) as H.
  destruct (add_resting_limit 6 Scenario.two_asks) as [w'|e|] eqn:Hadd;
    [|by vm_compute in Hadd..].
  exists w'. split; [done|]. destruct H as (_ & -> & _). by vm_compute.
Defined.

(** ** What no move of the engine does *)

Lemma active_traded q o : active (traded q o) = true → active o = true.
Proof. unfold traded, fill_status. by case_bool_decide. Qed.

Lemma engine_step_objects w w' r :
  wf w → engine_step w w' →
  frozen (heap w r) (heap w' r)
  ∧ remaining_qty (heap w' r) ≤ remaining_qty (heap w r)
  ∧ (active (heap w' r) = true → active (heap w r) = true).
Proof.
  intros Hwf Hstep.
  destruct Hstep as [t Hrej|fuel t w' step Hsub Hacc Hrem Hstep
                    |t w' Hsub Hacc Hrem Hadd|oid|fuel s w' res Hget].
  - split_and!.
    + unfold reject; simpl.
      repeat (apply upd_frozen; [by repeat split|]). apply frozen_refl.
    + by rewrite reject_remaining.
    + destruct (decide (r = t)) as [->|Hne];
        [by rewrite reject_active|by rewrite reject_other].
  - destruct (match_step_frame _ _ _ _ _ Hwf Hstep) as (_ & _ & Hfr).
    split; [done|]. destruct step as [tr|];
      [|by rewrite (match_step_break_heap _ _ _ _ Hwf Hstep)].
    destruct (match_step_trade_heap _ _ _ _ _ Hwf Hacc Hrem Hstep)
      as (m & k & q & _ & _ & _ & _ & Hq & Ht & Hm & Hother & _).
    destruct (decide (r = t)) as [->|Hrt]; [|destruct (decide (r = m)) as [->|Hrm]].
    + rewrite Ht, remaining_traded. split; [lia|apply active_traded].
    + rewrite Hm, remaining_traded. split; [lia|apply active_traded].
    + by rewrite Hother.
  - destruct (add_resting_limit_spec _ _ _ Hadd) as (p & _ & _ & -> & _).
    destruct (decide (t = r)) as [<-|Hne].
    + rewrite upd_eq. by repeat split.
    + rewrite upd_ne by done. split_and!; [apply frozen_refl|lia|done].
  - destruct ((cancel oid w).2) eqn:Hok.
    + pose proof Hok as (r0 & Hr0 & _)%cancel_success.
      destruct (cancel_effect _ _ _ Hok Hr0) as [Heq Hother].
      destruct (decide (r = r0)) as [->|Hne].
      * rewrite Heq. simpl. split_and!; [by repeat split| |done].
        destruct (wf_objects _ Hwf r0) as (? & _). lia.
      * rewrite Hother by done. split_and!; [apply frozen_refl|lia|done].
    + rewrite (cancel_failure _ _ Hok).
      split_and!; [apply frozen_refl|lia|done].
  - destruct (get_best_resting_spec _ _ _ _ _ (wf_sides _ Hwf _) Hget)
      as (_ & (-> & _) & _).
    split_and!; [apply frozen_refl|lia|done].
Qed.

Lemma engine_step_orders w w' k r :
  wf w → engine_step w w' →
  orders (book w) !! k = Some r →
  orders (book w') !! k = Some r ∧ book_symbol (book w') = book_symbol (book w).
Proof.
  intros Hwf Hstep Hk.
  destruct Hstep as [t Hrej|fuel t w' step Hsub Hacc Hrem Hstep
                    |t w' Hsub Hacc Hrem Hadd|oid|fuel s w' res Hget].
  - done.
  - destruct (match_step_frame _ _ _ _ _ Hwf Hstep) as (-> & -> & _). done.
  - destruct (add_resting_limit_spec _ _ _ Hadd)
      as (p & _ & _ & _ & -> & -> & _).
    split; [|done]. rewrite lookup_insert_ne; [done|].
    intros Heq. unfold submittable in Hsub. congruence.
  - by rewrite cancel_book.
  - destruct (get_best_resting_spec _ _ _ _ _ (wf_sides _ Hwf _) Hget)
      as (_ & (_ & -> & -> & _) & _). done.
Qed.

(** X7: no move of the engine from a reachable state writes an identity
    field of an order (id, side, price, symbol, type, quantity), raises a
    remaining quantity, or makes an inactive order active again. *)
Theorem engine_step_monotone w w' r :
  reachable w → engine_step w w' →
  frozen (heap w r) (heap w' r)
  ∧ remaining_qty (heap w' r) ≤ remaining_qty (heap w r)
  ∧ (active (heap w r) = false → active (heap w' r) = false).
Proof.
  intros Hwf%reachable_wf Hstep.
  destruct (engine_step_objects w w' r Hwf Hstep) as (Hfr & Hrem & Hact).
  split_and!; [done..|]. intros Hoff.
  destruct (active (heap w' r)); [|done]. by rewrite Hact in Hoff.
Qed.

Lemma engine_step_monotone_witness :
  reachable Scenario.two_asks
  ∧ engine_step Scenario.two_asks Scenario.canceled_ask
  ∧ remaining_qty (heap Scenario.canceled_ask 0%nat)
    ≤ remaining_qty (heap Scenario.two_asks 0%nat).
Proof.
  split; [apply reachable_two_asks|]. split; [apply step_cancel|].
  by destruct (engine_step_monotone Scenario.two_asks Scenario.canceled_ask 0
                 reachable_two_asks (step_cancel _ "a")) as (_ & H & _).
Defined.

(** X8: the order map only grows: a move of the engine leaves every id
    the book holds bound to the same order, and never changes the book's
    symbol. *)
Theorem engine_step_keeps_orders w w' k r :
  reachable w → engine_step w w' →
  orders (book w) !! k = Some r →
  orders (book w') !! k = Some r ∧ book_symbol (book w') = book_symbol (book w).
Proof. intros Hwf%reachable_wf. by apply engine_step_orders. Qed.

Lemma engine_step_keeps_orders_witness :
  reachable Scenario.two_asks
  ∧ engine_step Scenario.two_asks Scenario.canceled_ask
  ∧ orders (book Scenario.two_asks) !! "a" = Some 0%nat
  ∧ orders (book Scenario.canceled_ask) !! "a" = Some 0%nat.
Proof.
  split; [apply reachable_two_asks|]. split; [apply step_cancel|].
  assert (Hk : orders (book Scenario.two_asks) !! "a" = Some 0%nat)
    by by vm_compute.
  split; [exact Hk|].
  by destruct (engine_step_keeps_orders Scenario.two_asks Scenario.canceled_ask
                 "a" 0 reachable_two_asks (step_cancel _ "a") Hk) as [H _].
Defined.

Lemma engine_steps_remaining w0 w r :
  wf w0 → rtc engine_step w0 w →
  remaining_qty (heap w r) ≤ remaining_qty (heap w0 r)
  ∧ qty (heap w r) = qty (heap w0 r).
Proof.
  intros Hwf Hsteps. induction Hsteps as [w|w1 w2 w3 Hstep Hsteps IH].
  - split; [lia|done].
  - destruct (engine_step_objects w1 w2 r Hwf Hstep)
      as ((_ & _ & _ & _ & _ & Hq) & Hrem & _).
    destruct (IH (wf_engine_step _ _ Hwf Hstep)) as [IH1 IH2].
    split; [lia|congruence].
Qed.

(** X9: in every reachable state the remaining quantity of every order
    lies between 0 and the order's original quantity. *)
Theorem remaining_within_bounds w r :
  reachable w → 0 ≤ remaining_qty (heap w r) ≤ qty (heap w r).
Proof.
  intros Hreach. pose proof (reachable_wf _ Hreach) as Hwf.
  destruct Hreach as (w0 & Hinit & Hsteps).
  destruct (engine_steps_remaining w0 w r (wf_initial _ Hinit) Hsteps)
    as [Hle Hq].
  destruct Hinit as [Hobj _].
  destruct (constructed_fresh _ (Hobj r)) as (_ & _ & Hrem & _).
  destruct (wf_objects _ Hwf r) as (? & _). lia.
Qed.

Lemma remaining_within_bounds_witness :
  reachable Scenario.filled_ask
  ∧ 0 ≤ remaining_qty (heap Scenario.filled_ask 0%nat)
      ≤ qty (heap Scenario.filled_ask 0%nat).
Proof.
  split; [apply reachable_filled_ask|].
  apply (remaining_within_bounds Scenario.filled_ask 0 reachable_filled_ask).
Defined.

(** X10: an order the book holds that is no longer active (filled or
    canceled) is never written again: every move of the engine leaves its
    object exactly as it is. *)
Theorem inactive_order_untouched w w' k r :
  reachable w → engine_step w w' →
  orders (book w) !! k = Some r → active (heap w r) = false →
  heap w' r = heap w r.
Proof.
  intros Hwf%reachable_wf Hstep Hk Hoff.
  destruct (wf_registered _ Hwf _ _ Hk) as (Hid & Hnew & Hrej).
  destruct (wf_objects _ Hwf r) as (_ & _ & _ & Hacc).
  assert (Hnt : ∀ t, submittable w t → r ≠ t).
  { intros t Hsub ->. unfold submittable in Hsub. congruence. }
  destruct Hstep as [t Hrej'|fuel t w' step Hsub Hacc' Hrem Hstep
                    |t w' Hsub Hacc' Hrem Hadd|oid|fuel s w' res Hget].
  - apply reject_other. intros ->. destruct Hrej'. by apply Hacc.
  - destruct step as [tr|];
      [|by rewrite (match_step_break_heap _ _ _ _ Hwf Hstep)].
    destruct (match_step_trade_heap _ _ _ _ _ Hwf Hacc' Hrem Hstep)
      as (m & k' & q & _ & _ & Hact & _ & _ & _ & _ & Hother & _).
    apply Hother; [by apply Hnt|]. intros ->. congruence.
  - destruct (add_resting_limit_spec _ _ _ Hadd) as (p & _ & _ & -> & _).
    apply upd_ne. intros ->. by destruct (Hnt r).
  - destruct ((cancel oid w).2) eqn:Hok;
      [|by rewrite (cancel_failure _ _ Hok)].
    pose proof Hok as (r0 & Hr0 & Hact & _)%cancel_success.
    destruct (cancel_effect _ _ _ Hok Hr0) as [_ Hother].
    apply Hother. intros ->. congruence.
  - by destruct (get_best_resting_spec _ _ _ _ _ (wf_sides _ Hwf _) Hget)
      as (_ & (-> & _) & _).
Qed.

Lemma inactive_order_untouched_witness :
  reachable Scenario.canceled_ask
  ∧ engine_step Scenario.canceled_ask
      (cancel "a" Scenario.canceled_ask).1
  ∧ heap (cancel "a" Scenario.canceled_ask).1 0%nat
    = heap Scenario.canceled_ask 0%nat.
Proof.
  split; [apply reachable_canceled_ask|]. split; [apply step_cancel|].
  apply (inactive_order_untouched Scenario.canceled_ask _ "a" 0
           reachable_canceled_ask (step_cancel _ "a")); by vm_compute.
Defined.

(** ** The matching loop, pass by pass *)

(** Induction over the passes of the loop of [match_order]: the loop is
    not entered, or stops on a [break], or trades and goes on. *)
Lemma match_loop_passes fuel t (P : World → World → list Trade → Prop) :
  (∀ w, wf w → accepted w t → ¬ 0 < remaining_qty (heap w t) → P w w []) →
  (∀ w w1,
     wf w → accepted w t → 0 < remaining_qty (heap w t) →
     match_step fuel t w = Ok (w1, None) → P w w1 []) →
  (∀ w w1 tr w2 trades,
     wf w → accepted w t → 0 < remaining_qty (heap w t) →
     match_step fuel t w = Ok (w1, Some tr) →
     wf w1 → accepted w1 t → P w1 w2 trades → P w w2 (tr :: trades)) →
  ∀ n w w' trades,
    wf w → accepted w t →
    match_loop fuel n t w = Ok (w', trades) → P w w' trades.
Proof.
  intros Hstop Hbreak Hgo n. induction n as [|n IH]; simpl;
    intros w w' trades Hwf Hacc Hloop;
    case_bool_decide as Hrem; try done;
    try (injection Hloop as <- <-; by apply Hstop).
  destruct (match_step fuel t w) as [[w1 step]| |] eqn:Hstep; simpl in Hloop;
    try done.
  destruct step as [tr|]; [|injection Hloop as <- <-; by apply Hbreak].
  destruct (match_loop fuel n t w1) as [[w2 trades']| |] eqn:Hrec;
    simpl in Hloop; try done.
  injection Hloop as <- <-.
  destruct (match_step_frame _ _ _ _ _ Hwf Hstep) as (Ho & Hsym & Hfr).
  assert (wf w1) as Hwf1 by by eapply wf_match_step.
  assert (accepted w1 t) as Hacc1 by by eapply frame_accepted.
  eapply Hgo; eauto.
Qed.

(** The call as its loop followed, if something is left, by the resting
    of the remainder. *)
Lemma match_order_accepted fuel t w w' trades :
  accepted w t →
  match_order fuel t w = Ok (w', trades) →
  ∃ w1, match_loop fuel fuel t w = Ok (w1, trades)
        ∧ if bool_decide (0 < remaining_qty (heap w1 t))
          then add_resting_limit t w1 = Ok w'
          else w' = w1.
Proof.
  intros [Hsym Hty] Hmatch. unfold match_order in Hmatch.
  rewrite bool_decide_eq_false_2 in Hmatch by (by intros ?).
  rewrite bool_decide_eq_false_2 in Hmatch by (by intros ?).
  destruct (match_loop fuel fuel t w) as [[w1 trades1]| |]; simpl in Hmatch;
    try done.
  exists w1. case_bool_decide.
  - destruct (add_resting_limit t w1); simpl in Hmatch; try done.
    by injection Hmatch as <- <-.
  - by injection Hmatch as <- <-.
Qed.

Lemma match_order_rejected fuel t w w' trades :
  ¬ accepted w t →
  match_order fuel t w = Ok (w', trades) → w' = reject t w ∧ trades = [].
Proof.
  intros Hacc Hmatch. unfold match_order in Hmatch.
  case_bool_decide as Hsym; [by injection Hmatch as <- <-|].
  case_bool_decide as Hty; [by injection Hmatch as <- <-|].
  destruct Hacc. split; first [done|by apply dec_stable].
Qed.

Lemma accepted_dec w t : accepted w t ∨ ¬ accepted w t.
Proof.
  unfold accepted.
  destruct (decide (symbol (heap w t) = book_symbol (book w))),
           (decide (type (heap w t) = LIMIT)); tauto.
Qed.

(** What a pass leaves of the objects and of the book's map. *)
Lemma match_step_objects fuel t w w1 step r :
  wf w → accepted w t → 0 < remaining_qty (heap w t) →
  match_step fuel t w = Ok (w1, step) →
  frozen (heap w r) (heap w1 r)
  ∧ remaining_qty (heap w1 r) ≤ remaining_qty (heap w r)
  ∧ (active (heap w1 r) = true → active (heap w r) = true)
  ∧ orders (book w1) = orders (book w)
  ∧ book_symbol (book w1) = book_symbol (book w).
Proof.
  intros Hwf Hacc Hrem Hstep.
  destruct (match_step_frame _ _ _ _ _ Hwf Hstep) as (Ho & Hsym & Hfr).
  split; [done|]. destruct step as [tr|];
    [|by rewrite (match_step_break_heap _ _ _ _ Hwf Hstep)].
  destruct (match_step_trade_heap _ _ _ _ _ Hwf Hacc Hrem Hstep)
    as (m & k & q & _ & _ & _ & _ & Hq & Ht & Hm & Hother & _).
  destruct (decide (r = t)) as [->|Hrt]; [|destruct (decide (r = m)) as [->|Hrm]].
  - rewrite Ht, remaining_traded. split_and!; [lia|apply active_traded|done..].
  - rewrite Hm, remaining_traded. split_and!; [lia|apply active_traded|done..].
  - by rewrite Hother.
Qed.

Lemma match_loop_trades fuel n t w w' trades :
  wf w → accepted w t →
  match_loop fuel n t w = Ok (w', trades) →
  ∀ tr, tr ∈ trades →
    ∃ m, orders (book w) !! maker_order_id tr = Some m
         ∧ m ≠ t
         ∧ active (heap w m) = true
         ∧ 0 < t_qty tr
         ∧ t_qty tr ≤ remaining_qty (heap w m)
         ∧ t_qty tr ≤ remaining_qty (heap w t)
         ∧ t_price tr = price_cents (heap w m)
         ∧ taker_order_id tr = order_id (heap w t)
         ∧ t_symbol tr = book_symbol (book w).
Proof.
  intros Hwf0 Hacc0 Hloop0. pattern w, w', trades.
  eapply (match_loop_passes fuel t); [| | |exact Hwf0|exact Hacc0|exact Hloop0];
    clear.
  - by intros w _ _ _ tr ?%elem_of_nil.
  - by intros w w1 _ _ _ _ tr ?%elem_of_nil.
  - intros w w1 tr0 w2 trades Hwf Hacc Hrem Hstep Hwf1 Hacc1 IH tr
           [->|Htr]%elem_of_cons.
    + destruct (match_step_trade_heap _ _ _ _ _ Hwf Hacc Hrem Hstep)
        as (m & k & q & Hk & Hne & Hact & Hq & Hqpos & _ & _ & _ & ->).
      exists m. simpl. split_and!; try done; try lia.
    + destruct (IH tr Htr)
        as (m & Hm & Hne & Hact & Hq0 & Hqm & Hqt & Hp & Hid & Hsym).
      pose proof (match_step_objects _ _ _ _ _ m Hwf Hacc Hrem Hstep)
        as ((_ & _ & Hpr & _) & Hremm & Hactm & Ho & Hs).
      pose proof (match_step_objects _ _ _ _ _ t Hwf Hacc Hrem Hstep)
        as ((Hidt & _) & Hremt & _).
      exists m. rewrite <-Ho. split_and!; try done; try lia; try congruence.
      by apply Hactm.
Qed.

(** X11: every trade [match_order] returns on a reachable book has a
    positive quantity, is made against an order the book holds that was
    active when the call started and that is not the taker, for no more than
    that order or the taker had left, at that order's price and under the
    book's symbol, and names the taker as taker. *)
Theorem match_order_trades_wellformed fuel t w w' trades tr :
  reachable w →
  match_order fuel t w = Ok (w', trades) →
  tr ∈ trades →
  ∃ m, orders (book w) !! maker_order_id tr = Some m
       ∧ m ≠ t
       ∧ active (heap w m) = true
       ∧ 0 < t_qty tr
       ∧ t_qty tr ≤ remaining_qty (heap w m)
       ∧ t_qty tr ≤ remaining_qty (heap w t)
       ∧ t_price tr = price_cents (heap w m)
       ∧ taker_order_id tr = order_id (heap w t)
       ∧ t_symbol tr = book_symbol (book w).
Proof.
  intros Hwf%reachable_wf Hmatch Htr.
  destruct (accepted_dec w t) as [Hacc|Hrej].
  - destruct (match_order_accepted _ _ _ _ _ Hacc Hmatch) as (w1 & Hloop & _).
    by eapply match_loop_trades.
  - destruct (match_order_rejected _ _ _ _ _ Hrej Hmatch) as [_ ->].
    by apply elem_of_nil in Htr.
Qed.

Lemma match_order_trades_wellformed_witness :
  reachable Scenario.same_price
  ∧ ∃ m, orders (book Scenario.same_price) !! "s2" = Some m
         ∧ active (heap Scenario.same_price m) = true.
Proof.
  split; [apply reachable_same_price|].
  destruct (match_order_trades_wellformed 8 9 Scenario.same_price
              (Scenario.submit 9 Scenario.same_price)
              [mkTrade "AAPL" (Some 18760) 4 "s1" "b1";
               mkTrade "AAPL" (Some 18760) 2 "s2" "b1"]
              (mkTrade "AAPL" (Some 18760) 2 "s2" "b1")
              reachable_same_price)
    as (m & Hm & _ & Hact & _); [by vm_compute| |by exists m].
  apply elem_of_cons. right. by left.
Defined.

(** ** The outcome of a call for the taker *)

Lemma match_loop_taker fuel n t w w' trades :
  wf w → accepted w t →
  match_loop fuel n t w = Ok (w', trades) →
  wf w'
  ∧ orders (book w') = orders (book w)
  ∧ frozen (heap w t) (heap w' t)
  ∧ (trades = [] → heap w' = heap w)
  ∧ (trades ≠ [] → ∃ q o, heap w' t = traded q o).
Proof.
  intros Hwf0 Hacc0 Hloop0. pattern w, w', trades.
  eapply (match_loop_passes fuel t); [| | |exact Hwf0|exact Hacc0|exact Hloop0];
    clear.
  - intros w Hwf _ _. by split_and!.
  - intros w w1 Hwf Hacc Hrem Hstep.
    pose proof (match_step_objects _ _ _ _ _ t Hwf Hacc Hrem Hstep)
      as (Hfr & _ & _ & Ho & _).
    split_and!; try done; [by eapply wf_match_step|].
    intros _. by eapply match_step_break_heap.
  - intros w w1 tr w2 trades Hwf Hacc Hrem Hstep Hwf1 Hacc1
           (Hwf2 & Ho2 & Hfr2 & Hnil & Hcons).
    pose proof (match_step_objects _ _ _ _ _ t Hwf Hacc Hrem Hstep)
      as (Hfr & _ & _ & Ho & _).
    split_and!; try done; [congruence|by eapply frozen_trans|].
    intros _. destruct trades as [|tr' trades]; [|by apply Hcons].
    rewrite Hnil by done.
    destruct (match_step_trade_heap _ _ _ _ _ Hwf Hacc Hrem Hstep)
      as (m & k & q & _ & _ & _ & _ & _ & Ht & _).
    by eauto.
Qed.

Lemma traded_exhausted q o :
  remaining_qty (traded q o) = 0 →
  status (traded q o) = FILLED ∧ active (traded q o) = false.
Proof.
  rewrite remaining_traded. unfold traded, fill_status. simpl.
  intros Hz. by rewrite bool_decide_eq_true_2.
Qed.

(** X12: what a call of [match_order] leaves of an accepted taker that
    had something left.  Either the taker is wholly filled: nothing left,
    FILLED, inactive, at least one trade, and the order map as before, so
    the taker never enters the book.  Or something is left: the taker is
    RESTING, the order map holds it under its id, and its id stands last in
    the queue of its limit price on its side. *)
Theorem match_order_outcome fuel t w w' trades :
  reachable w → accepted w t → 0 < remaining_qty (heap w t) →
  match_order fuel t w = Ok (w', trades) →
  (remaining_qty (heap w' t) = 0
   ∧ status (heap w' t) = FILLED ∧ active (heap w' t) = false
   ∧ trades ≠ []
   ∧ orders (book w') = orders (book w))
  ∨ (0 < remaining_qty (heap w' t)
     ∧ status (heap w' t) = RESTING
     ∧ orders (book w') = <[order_id (heap w t) := t]> (orders (book w))
     ∧ ∃ p q, price_cents (heap w t) = Some p
              ∧ levels (side (heap w t)) (book w') !! p
                = Some (q ++ [order_id (heap w t)])).
Proof.
  intros Hwf%reachable_wf Hacc Hrem Hmatch.
  destruct (match_order_accepted _ _ _ _ _ Hacc Hmatch) as (w1 & Hloop & Hrest).
  destruct (match_loop_taker _ _ _ _ _ _ Hwf Hacc Hloop)
    as (Hwf1 & Ho & (Hid & Hsd & Hpr & _) & Hnil & Hcons).
  case_bool_decide as Hrem1.
  - right.
    destruct (add_resting_limit_spec _ _ _ Hrest)
      as (p & Hp & _ & Hh & _ & Ho' & Hl & _).
    rewrite Hid, Hsd, Hpr in *. split_and!.
    + by rewrite (add_resting_limit_remaining _ _ _ _ Hrest).
    + by rewrite Hh, upd_eq.
    + by rewrite Ho', Ho.
    + exists p, (queue_at (side (heap w t)) (book w1) p).
      split; [done|]. by rewrite Hl, lookup_insert_eq.
  - left. subst w'.
    destruct (wf_objects _ Hwf1 t) as (Hpos & _).
    assert (remaining_qty (heap w1 t) = 0) as Hz by lia.
    destruct trades as [|tr trades].
    { rewrite Hnil in Hz by done. lia. }
    destruct Hcons as (q & o & Heq); [done|].
    rewrite Heq in Hz |- *.
    destruct (traded_exhausted _ _ Hz). by split_and!.
Qed.

Lemma match_order_outcome_witness :
  reachable Scenario.one_ask
  ∧ accepted Scenario.one_ask 6
  ∧ 0 < remaining_qty (heap Scenario.one_ask 6%nat)
  ∧ orders (book (Scenario.submit 6 Scenario.one_ask)) !! "g" = Some 6%nat.
Proof.
  split; [apply reachable_one_ask|].
  assert (Hacc : accepted Scenario.one_ask 6) by by vm_compute.
  assert (Hrem : 0 < remaining_qty (heap Scenario.one_ask 6%nat))
    by by vm_compute.
  split; [exact Hacc|]. split; [exact Hrem|].
  destruct (match_order_outcome 8 6 Scenario.one_ask
              (Scenario.submit 6 Scenario.one_ask)
              [mkTrade "AAPL" (Some 100) 1 "a" "g"]
              reachable_one_ask Hacc Hrem)
    as [(Hz & _)|(_ & _ & Ho & _)]; [by vm_compute|by vm_compute in Hz|].
  rewrite Ho. by vm_compute.
Defined.

(** X13: an accepted taker with something left whose limit does not cross
    the best opposite price, or that finds the opposite side empty, trades
    nothing: [match_order] does exactly what [add_resting_limit] does, and
    fails as it fails. *)
Theorem match_order_without_cross fuel t w :
  accepted w t → 0 < remaining_qty (heap w t) →
  crosses (heap w t) (book w) = Ok false →
  match_order (S fuel) t w
  = match add_resting_limit t w with
    | Ok w' => Ok (w', [])
    | Raise e => Raise e
    | Timeout => Timeout
    end.
Proof.
  intros [Hsym Hty] Hrem Hcross. unfold match_order.
  rewrite bool_decide_eq_false_2 by (by intros ?).
  rewrite bool_decide_eq_false_2 by (by intros ?).
  simpl. rewrite bool_decide_eq_true_2 by done.
  unfold match_step. rewrite Hcross. simpl.
  rewrite bool_decide_eq_true_2 by done.
  by destruct (add_resting_limit t w).
Qed.

Lemma match_order_without_cross_witness :
  accepted Scenario.start 6
  ∧ crosses (heap Scenario.start 6%nat) (book Scenario.start) = Ok false
  ∧ ∃ w', match_order 1 6 Scenario.start = Ok (w', [])
          ∧ add_resting_limit 6 Scenario.start = Ok w'.
Proof.
  assert (Hacc : accepted Scenario.start 6) by by vm_compute.
  assert (Hcross : crosses (heap Scenario.start 6%nat) (book Scenario.start)
                   = Ok false) by by vm_compute.
  split; [exact Hacc|]. split; [exact Hcross|].
  pose proof (match_order_without_cross 0 6 Scenario.start Hacc
                ltac:(by vm_compute) Hcross) as H.
  destruct (add_resting_limit 6 Scenario.start) as [w'|e|] eqn:Hadd;
    [|by vm_compute in Hadd..].
  by exists w'.
Defined.

(** ** The lookup, once more *)

(** X14: the lookup is idempotent on a reachable book: asked again right
    away, with any budget, it returns the same answer and leaves the book it
    has cleaned as it is. *)
Theorem get_best_resting_idempotent fuel fuel' s w w' res :
  reachable w →
  get_best_resting fuel s w = Ok (w', res) →
  get_best_resting (S fuel') s w' = Ok (w', res).
Proof.
  intros Hwf%reachable_wf Hget.
  destruct (get_best_resting_spec _ _ _ _ _ (wf_sides _ Hwf s) Hget)
    as (Hside' & _ & Hres).
  destruct res as [r|]; [by apply get_best_resting_heads|].
  simpl. rewrite best_price_head.
  destruct (ladder s (book w')) eqn:Hl; [done|].
  apply (f_equal length) in Hl. rewrite ladder_length, Hres in Hl. done.
Qed.

Lemma get_best_resting_idempotent_witness :
  reachable Scenario.canceled_ask
  ∧ ∃ w', get_best_resting 3 SELL Scenario.canceled_ask = Ok (w', Some 1%nat)
          ∧ get_best_resting 1 SELL w' = Ok (w', Some 1%nat).
Proof.
  split; [apply reachable_canceled_ask|].
  destruct (get_best_resting 3 SELL Scenario.canceled_ask)
    as [[w' res]| |] eqn:Hget; [|by vm_compute in Hget..].
  exists w'.
  assert (res = Some 1%nat) as -> by (vm_compute in Hget; congruence).
  split; [done|].
  by apply (get_best_resting_idempotent 3 0 SELL Scenario.canceled_ask w'
              (Some 1%nat) reachable_canceled_ask).
Defined.

(** ** The snapshot, for a positive depth *)

Lemma level_total_acc w q a :
  foldl (λ total oid,
           match eligible_id w oid with
           | Some r => total + remaining_qty (heap w r)
           | None => total
           end) a q
  = a + level_sum w q.
Proof.
  revert a. induction q as [|k q IH]; intros a; simpl; [lia|].
  rewrite IH. unfold eligible_qty. destruct (eligible_id w k); lia.
Qed.

Lemma level_total_sum w q : level_total w q = level_sum w q.
Proof. unfold level_total. by rewrite level_total_acc. Qed.

Lemma eligible_qty_nonneg w k : 0 ≤ eligible_qty w k.
Proof.
  unfold eligible_qty. destruct (eligible_id w k) as [r|] eqn:Hk; [|done].
  apply eligible_id_Some in Hk as [_ [_ ?]%eligible_true]. lia.
Qed.

Lemma level_sum_nonneg w q : 0 ≤ level_sum w q.
Proof.
  induction q as [|k q IH]; simpl; [done|].
  pose proof (eligible_qty_nonneg w k). lia.
Qed.

Lemma sorted_reverse_gt (l : list Z) :
  StronglySorted Z.lt l → StronglySorted Z.gt (reverse l).
Proof.
  induction 1 as [|x l Hs IH Hall]; [constructor|].
  rewrite reverse_cons. apply StronglySorted_app. split_and!; [|done|].
  - intros x1 x2 Hx1 ->%list_elem_of_singleton.
    rewrite elem_of_reverse in Hx1.
    rewrite Forall_forall in Hall. specialize (Hall x1 Hx1). lia.
  - repeat constructor.
Qed.

Lemma sorted_take {A} (R : relation A) n (l : list A) :
  StronglySorted R l → StronglySorted R (take n l).
Proof.
  intros Hs. rewrite <-(take_drop n l) in Hs.
  by apply StronglySorted_app_1_l in Hs.
Qed.

Lemma level_row_prices s w (l : list Z) : (level_row s w <$> l).*1 = l.
Proof. induction l as [|p l IH]; simpl; [done|]. by f_equal. Qed.

(** X15: for a positive depth on a reachable book, each side of the
    snapshot has at most [depth] rows; their prices are the first prices of
    the side best first, strictly descending for bids and strictly ascending
    for asks; and the quantity of a row is the sum, over the queue of its
    price, of what the eligible orders have left, never negative. *)
Theorem snapshot_l2_rows depth w :
  reachable w → 0 < depth →
  let snap := snapshot_l2 depth w in
  (length (snap_bids snap) ≤ Z.to_nat depth)%nat
  ∧ (length (snap_asks snap) ≤ Z.to_nat depth)%nat
  ∧ (snap_bids snap).*1 = take (Z.to_nat depth) (reverse (bid_prices (book w)))
  ∧ (snap_asks snap).*1 = take (Z.to_nat depth) (ask_prices (book w))
  ∧ StronglySorted Z.gt (snap_bids snap).*1
  ∧ StronglySorted Z.lt (snap_asks snap).*1
  ∧ (∀ p total, (p, total) ∈ snap_bids snap →
       total = level_sum w (queue_at BUY (book w) p) ∧ 0 ≤ total)
  ∧ (∀ p total, (p, total) ∈ snap_asks snap →
       total = level_sum w (queue_at SELL (book w) p) ∧ 0 ≤ total).
Proof.
  intros Hwf%reachable_wf Hd snap. unfold snap.
  rewrite (snapshot_l2_positive _ _ Hd). simpl.
  destruct (wf_sides _ Hwf BUY) as (Hsb & _), (wf_sides _ Hwf SELL) as (Hsa & _).
  simpl in Hsb, Hsa.
  assert (Hrow : ∀ s (l : list Z) p total,
            (p, total) ∈ level_row s w <$> l →
            total = level_sum w (queue_at s (book w) p) ∧ 0 ≤ total).
  { intros s l p total (p' & [= -> ->] & _)%list_elem_of_fmap.
    rewrite level_total_sum. split; [done|apply level_sum_nonneg]. }
  rewrite !level_row_prices, !length_fmap, !length_take.
  split_and!; try done; try lia.
  - by apply sorted_take, sorted_reverse_gt.
  - by apply sorted_take.
  - apply Hrow.
  - apply Hrow.
Qed.

Lemma snapshot_l2_rows_witness :
  reachable Scenario.canceled_ask
  ∧ (length (snap_asks (snapshot_l2 1 Scenario.canceled_ask)) ≤ Z.to_nat 1)%nat.
Proof.
  split; [apply reachable_canceled_ask|].
  by destruct (snapshot_l2_rows 1 Scenario.canceled_ask reachable_canceled_ask)
    as (_ & H & _).
Defined.

(** ** Cancel, then snapshot *)

Lemma cancel_eligible_qty oid w r k :
  wf w → (cancel oid w).2 = true → orders (book w) !! oid = Some r →
  eligible_qty (cancel oid w).1 k
  = if decide (k = oid) then 0 else eligible_qty w k.
Proof.
  intros Hwf Hok Hr. destruct (cancel_effect _ _ _ Hok Hr) as [Heq Hother].
  unfold eligible_qty, eligible_id. rewrite cancel_book.
  case_decide as Hk.
  - subst k. rewrite Hr, Heq. done.
  - destruct (orders (book w) !! k) as [r'|] eqn:Hr'; [|done].
    assert (r' ≠ r) as Hne.
    { intros ->.
      destruct (wf_registered _ Hwf _ _ Hr), (wf_registered _ Hwf _ _ Hr').
      congruence. }
    rewrite (Hother r' Hne).
    destruct (eligible (heap w r')); [|done]. by rewrite (Hother r' Hne).
Qed.

Lemma cancel_level_sum oid w r q :
  wf w → (cancel oid w).2 = true → orders (book w) !! oid = Some r →
  NoDup q →
  level_sum (cancel oid w).1 q
  = level_sum w q - (if decide (oid ∈ q) then remaining_qty (heap w r) else 0).
Proof.
  intros Hwf Hok Hr. induction 1 as [|k q Hk Hnd IH].
  - destruct (decide (oid ∈ [])) as [Hin|_]; [by apply elem_of_nil in Hin|].
    simpl. lia.
  - change (level_sum (cancel oid w).1 (k :: q))
      with (eligible_qty (cancel oid w).1 k + level_sum (cancel oid w).1 q).
    change (level_sum w (k :: q)) with (eligible_qty w k + level_sum w q).
    rewrite IH, (cancel_eligible_qty _ _ r) by done.
    destruct (decide (k = oid)) as [->|Hne].
    + destruct (decide (oid ∈ q)) as [|_]; [done|].
      destruct (decide (oid ∈ oid :: q)) as [_|Hnin]; [|destruct Hnin; by left].
      pose proof Hok as (r0 & Hr0 & Hact & Hrem)%cancel_success.
      assert (r0 = r) as -> by congruence.
      destruct (wf_objects _ Hwf r) as (Hpos & _).
      unfold eligible_qty, eligible_id. rewrite Hr.
      replace (eligible (heap w r)) with true; [lia|].
      symmetry. apply eligible_true. split; [done|lia].
    + destruct (decide (oid ∈ q)) as [Hin|Hnin],
               (decide (oid ∈ k :: q)) as [Hin'|Hnin']; try lia.
      * destruct Hnin'. by right.
      * apply elem_of_cons in Hin' as [?|?]; [congruence|done].
Qed.

(** X16: after a successful [cancel] on a reachable book, the quantity
    [snapshot_l2] reports for a level is what it reported before less the
    quantity the canceled order had left, at the level where that order
    waits, and what it reported before at every other level. *)
Theorem cancel_updates_snapshot oid w r s p :
  reachable w →
  (cancel oid w).2 = true → orders (book w) !! oid = Some r →
  level_row s (cancel oid w).1 p
  = (p, (level_row s w p).2
        - (if decide (oid ∈ queue_at s (book w) p)
           then remaining_qty (heap w r) else 0)).
Proof.
  intros Hwf%reachable_wf Hok Hr. unfold level_row. simpl.
  rewrite cancel_book, !level_total_sum. f_equal.
  apply cancel_level_sum; [done..|].
  unfold queue_at.
  destruct (levels s (book w) !! p) as [q|] eqn:Hq; simpl;
    [exact (wf_queue_nodup _ Hwf s p q Hq)|apply NoDup_nil_2].
Qed.

Lemma cancel_updates_snapshot_witness :
  reachable Scenario.two_asks
  ∧ (cancel "a" Scenario.two_asks).2 = true
  ∧ level_row SELL Scenario.two_asks 100 = (100, 1)
  ∧ level_row SELL (cancel "a" Scenario.two_asks).1 100 = (100, 0).
Proof.
  split; [apply reachable_two_asks|].
  assert (Hok : (cancel "a" Scenario.two_asks).2 = true) by by vm_compute.
  split; [exact Hok|]. split; [by vm_compute|].
  rewrite (cancel_updates_snapshot "a" Scenario.two_asks 0 SELL 100
             reachable_two_asks Hok ltac:(by vm_compute)).
  by vm_compute.
Defined.

(** ** The book is never crossed *)

Lemma api_reachable_reachable w : api_reachable w → reachable w.
Proof.
  induction 1 as [w Hinit|fuel t w w' trades _ IH Hsub Hmatch|oid w _ IH
                 |fuel s w w' res _ IH Hget].
  - exists w. by split.
  - by eapply reachable_match_order.
  - by apply reachable_cancel.
  - eapply reachable_step; [done|]. by eapply step_lookup.
Qed.

Lemma live_listed s w p : wf w → live s w p → p ∈ prices s (book w).
Proof.
  intros Hwf (k & r & Hk & _). apply (side_wf_queue _ _ _ (wf_sides _ Hwf s)).
  intros Hnil. rewrite Hnil in Hk. by apply elem_of_nil in Hk.
Qed.

Lemma reaped_live s0 w w' s p : reaped s0 w w' → live s w' p → live s w p.
Proof.
  intros (Hh & _ & Ho & Hl & _ & Hq & _) (k & r & Hk & Hel).
  exists k, r. split; [|by rewrite <-(eligible_id_ext w w')].
  destruct (side_cases s0 s) as [->| ->].
  - destruct (Hq p) as (pre & -> & _). apply elem_of_app. by right.
  - unfold queue_at in *. by rewrite <-Hl.
Qed.

Lemma fading_live w w' s p :
  book w' = book w →
  (∀ k r, eligible_id w' k = Some r → eligible_id w k = Some r) →
  live s w' p → live s w p.
Proof.
  intros Hb Hel (k & r & Hk & Hr). exists k, r.
  rewrite <-Hb. split; [done|by apply Hel].
Qed.

Lemma match_step_live fuel t w w1 step s p :
  wf w → accepted w t → 0 < remaining_qty (heap w t) →
  match_step fuel t w = Ok (w1, step) →
  live s w1 p → live s w p.
Proof.
  intros Hwf Hacc Hrem Hstep Hlive. destruct step as [tr|].
  - destruct (match_step_trade _ _ _ _ _ Hwf Hacc Hrem Hstep)
      as (w0 & m & k & tl & _ & _ & Hreap & _ & _ & _ & _ & _ & _ & Hw1 & _).
    eapply reaped_live; [done|].
    eapply (fading_live _ w1); [by rewrite Hw1| |done].
    intros k' r' Hel.
    pose proof (match_step_eligible _ _ _ _ _ _ _ Hwf Hacc Hrem Hstep Hel) as Hw.
    destruct Hreap as (Hh & _ & Ho & _).
    by rewrite (eligible_id_ext w w0).
  - unfold match_step in Hstep.
    destruct (crosses (heap w t) (book w)) as [[|]| |]; simpl in Hstep;
      try done; [|by injection Hstep as <-].
    destruct (get_best_resting fuel _ w) as [[w0 [m|]]| |] eqn:Hget;
      simpl in Hstep; try done.
    injection Hstep as <-.
    destruct (get_best_resting_spec _ _ _ _ _ (wf_sides _ Hwf _) Hget)
      as (_ & Hreap & _).
    by eapply reaped_live.
Qed.

(** A pass that stops the loop leaves no live opposite price that the
    taker's limit reaches. *)
Lemma match_step_break_no_cross fuel t w w1 :
  wf w → match_step fuel t w = Ok (w1, None) → wf w1 → no_cross t w1.
Proof.
  intros Hwf Hstep Hwf1 p pa Hp Hlive.
  pose proof (match_step_break_heap _ _ _ _ Hwf Hstep) as Hh.
  rewrite Hh in Hp, Hlive |- *.
  pose proof (live_listed _ _ _ Hwf1 Hlive) as Hin.
  unfold match_step in Hstep.
  destruct (crosses (heap w t) (book w)) as [[|]| |] eqn:Hc; simpl in Hstep;
    try done.
  - destruct (get_best_resting fuel _ w) as [[w0 [m|]]| |] eqn:Hget;
      simpl in Hstep; try done.
    injection Hstep as <-.
    destruct (get_best_resting_spec _ _ _ _ _ (wf_sides _ Hwf _) Hget)
      as (_ & _ & Hnil).
    rewrite Hnil in Hin. by apply elem_of_nil in Hin.
  - injection Hstep as <-. unfold crosses in Hc. rewrite Hp in Hc.
    destruct (wf_sides _ Hwf (opp_side (side (heap w t)))) as (Hs & _).
    destruct (side (heap w t)); simpl in *.
    + unfold best_ask in Hc.
      destruct (head (ask_prices (book w))) as [a|] eqn:Ha.
      * injection Hc as Hc. apply negb_false_iff, bool_decide_eq_true in Hc.
        destruct (sorted_head_min _ _ Hs Ha _ Hin); lia.
      * destruct (ask_prices (book w)); [by apply elem_of_nil in Hin|done].
    + unfold best_bid in Hc.
      destruct (last (bid_prices (book w))) as [a|] eqn:Ha.
      * injection Hc as Hc. apply negb_false_iff, bool_decide_eq_true in Hc.
        destruct (sorted_last_max _ _ Hs Ha _ Hin); lia.
      * apply last_None in Ha. rewrite Ha in Hin. by apply elem_of_nil in Hin.
Qed.

Lemma match_loop_stops fuel n t w w' trades :
  wf w → accepted w t →
  match_loop fuel n t w = Ok (w', trades) →
  (∀ s p, live s w' p → live s w p)
  ∧ (0 < remaining_qty (heap w' t) → no_cross t w').
Proof.
  intros Hwf0 Hacc0 Hloop0. pattern w, w', trades.
  eapply (match_loop_passes fuel t); [| | |exact Hwf0|exact Hacc0|exact Hloop0];
    clear.
  - intros w _ _ Hrem. by split.
  - intros w w1 Hwf Hacc Hrem Hstep. split.
    + intros s p. by eapply match_step_live.
    + intros _. eapply match_step_break_no_cross; [done..|].
      by eapply wf_match_step.
  - intros w w1 tr w2 trades Hwf Hacc Hrem Hstep Hwf1 Hacc1 [IHl IHn].
    split; [|done]. intros s p Hlive.
    eapply match_step_live; [done..|]. by apply IHl.
Qed.

Lemma add_resting_limit_live t w w' s p :
  wf w → submittable w t →
  add_resting_limit t w = Ok w' →
  live s w' p →
  live s w p ∨ (s = side (heap w t) ∧ price_cents (heap w t) = Some p).
Proof.
  intros Hwf Hsub Hadd (k & r & Hk & Hel).
  destruct (add_resting_limit_spec _ _ _ Hadd)
    as (p0 & Hp0 & _ & Hh & _ & Ho & Hl & _ & Hlo & _).
  destruct (decide (s = side (heap w t) ∧ p = p0)) as [[-> ->]|Hnot];
    [by right|left].
  assert (queue_at s (book w') p = queue_at s (book w) p) as Hq.
  { unfold queue_at. destruct (side_cases (side (heap w t)) s) as [->| ->].
    - rewrite Hl, lookup_insert_ne; [done|]. intros ->. by destruct Hnot.
    - by rewrite Hlo. }
  rewrite Hq in Hk. apply queue_at_elem in Hk as (q & Hlev & Hin).
  destruct (queued_not_fresh _ _ _ _ _ _ Hwf Hsub Hlev Hin)
    as (Hne & r' & Hr' & Hrt & _).
  exists k, r. split; [apply queue_at_elem; by eauto|].
  apply eligible_id_Some in Hel as [Hk Helr].
  rewrite Ho, lookup_insert_ne in Hk by done.
  assert (r = r') as -> by congruence.
  rewrite Hh, upd_ne in Helr by done. by apply eligible_id_Some.
Qed.

Lemma uncrossed_match_order fuel t w w' trades :
  wf w → submittable w t → uncrossed w →
  match_order fuel t w = Ok (w', trades) → uncrossed w'.
Proof.
  intros Hwf Hsub Hun Hmatch.
  destruct (accepted_dec w t) as [Hacc|Hrej].
  - destruct (match_order_accepted _ _ _ _ _ Hacc Hmatch) as (w1 & Hloop & Hrest).
    destruct (match_loop_stops _ _ _ _ _ _ Hwf Hacc Hloop) as [Hlive Hstop].
    destruct (match_loop_steps _ _ _ _ _ _ Hwf Hsub Hacc Hloop)
      as (Hsteps & Hsub1 & _).
    pose proof (wf_engine_steps _ _ Hwf Hsteps) as Hwf1.
    assert (uncrossed w1) as Hun1.
    { intros pb pa Hb Ha. apply Hun; by apply Hlive. }
    case_bool_decide as Hrem; [|by subst].
    specialize (Hstop Hrem).
    intros pb pa Hb Ha.
    destruct (add_resting_limit_live _ _ _ _ _ Hwf1 Hsub1 Hrest Hb)
      as [Hb1|[Hsb Hpb]],
      (add_resting_limit_live _ _ _ _ _ Hwf1 Hsub1 Hrest Ha)
      as [Ha1|[Hsa Hpa]].
    + by apply Hun1.
    + specialize (Hstop pa pb Hpa). rewrite <-Hsa in Hstop. by apply Hstop.
    + specialize (Hstop pb pa Hpb). rewrite <-Hsb in Hstop. by apply Hstop.
    + congruence.
  - destruct (match_order_rejected _ _ _ _ _ Hrej Hmatch) as [-> _].
    intros pb pa Hb Ha.
    assert (Hfade : ∀ k r, eligible_id (reject t w) k = Some r →
                           eligible_id w k = Some r).
    { intros k r [Hk Hel]%eligible_id_Some. apply eligible_id_Some.
      split; [done|]. destruct (decide (r = t)) as [->|Hne].
      - apply eligible_true in Hel as [Hact _].
        by rewrite reject_active in Hact.
      - by rewrite reject_other in Hel. }
    apply Hun; by eapply (fading_live w (reject t w)).
Qed.

Lemma uncrossed_cancel oid w : wf w → uncrossed w → uncrossed (cancel oid w).1.
Proof.
  intros Hwf Hun pb pa Hb Ha.
  assert (Hfade : ∀ k r, eligible_id (cancel oid w).1 k = Some r →
                         eligible_id w k = Some r).
  { destruct ((cancel oid w).2) eqn:Hok;
      [|by rewrite (cancel_failure _ _ Hok)].
    pose proof Hok as (r0 & Hr0 & _)%cancel_success.
    destruct (cancel_effect _ _ _ Hok Hr0) as [Heq Hother].
    intros k r [Hk Hel]%eligible_id_Some. rewrite cancel_book in Hk.
    apply eligible_id_Some. split; [done|].
    destruct (decide (r = r0)) as [->|Hne].
    - by rewrite Heq in Hel.
    - by rewrite Hother in Hel. }
  apply Hun; eapply (fading_live w (cancel oid w).1);
    eauto using cancel_book.
Qed.

(** X17: a book driven through its public operations is never crossed:
    whenever a bid level and an ask level both hold an eligible order, the
    bid price is strictly below the ask price. *)
Theorem book_never_crossed w : api_reachable w → uncrossed w.
Proof.
  induction 1 as [w Hinit|fuel t w w' trades Hreach IH Hsub Hmatch
                 |oid w Hreach IH|fuel s w w' res Hreach IH Hget].
  - destruct Hinit as [_ [sym Hbook]].
    intros pb pa (k & r & Hk & _) _. unfold queue_at in Hk.
    rewrite Hbook in Hk. simpl in Hk. rewrite lookup_empty in Hk.
    by apply elem_of_nil in Hk.
  - eapply uncrossed_match_order; [|done..].
    by apply reachable_wf, api_reachable_reachable.
  - apply uncrossed_cancel; [|done].
    by apply reachable_wf, api_reachable_reachable.
  - pose proof (reachable_wf _ (api_reachable_reachable _ Hreach)) as Hwf.
    destruct (get_best_resting_spec _ _ _ _ _ (wf_sides _ Hwf s) Hget)
      as (_ & Hreap & _).
    intros pb pa Hb Ha. apply IH; by eapply reaped_live.
Qed.

Lemma api_reachable_submit t w :
  api_reachable w → submittable w t → api_reachable (Scenario.submit t w).
Proof.
  intros Hr Hsub. unfold Scenario.submit, Scenario.after.
  destruct (match_order 8 t w) as [[w' tr]| |] eqn:Hm; [|done..].
  by eapply api_match_order.
Qed.

Lemma book_never_crossed_witness :
  let w := Scenario.submit 2 (Scenario.submit 1 Scenario.start) in
  api_reachable w ∧ live BUY w 100 ∧ live SELL w 200 ∧ uncrossed w.
Proof.
  assert (Hreach : api_reachable
                     (Scenario.submit 2 (Scenario.submit 1 Scenario.start))).
  { apply api_reachable_submit; [apply api_reachable_submit|];
      [apply api_initial, start_initial|by vm_compute..]. }
  split; [exact Hreach|]. split_and!.
  - exists "c", 2%nat. split; [|by vm_compute].
    apply queue_at_elem. exists ["c"]. split; [by vm_compute|by left].
  - exists "b", 1%nat. split; [|by vm_compute].
    apply queue_at_elem. exists ["b"]. split; [by vm_compute|by left].
  - apply (book_never_crossed _ Hreach).
Defined.

(** ** Cancel, then match *)

(** X18: an order canceled with success is never matched afterwards: the
    next call of [match_order], whatever the taker, returns no trade that
    names it as maker, and leaves its object as the cancel left it. *)
Theorem canceled_order_never_trades oid fuel t w w' trades :
  reachable w →
  (cancel oid w).2 = true →
  match_order fuel t (cancel oid w).1 = Ok (w', trades) →
  (∀ tr, tr ∈ trades → maker_order_id tr ≠ oid)
  ∧ maker_qty oid trades = 0.
Proof.
  intros Hreach Hok Hmatch.
  pose proof (reachable_wf _ (reachable_cancel oid _ Hreach)) as Hwf'.
  pose proof Hok as (r & Hr & _)%cancel_success.
  destruct (cancel_effect _ _ _ Hok Hr) as [Heq _].
  assert (Hno : ∀ tr, tr ∈ trades → maker_order_id tr ≠ oid).
  { intros tr Htr Hname.
    destruct (accepted_dec (cancel oid w).1 t) as [Hacc|Hrej].
    - destruct (match_order_accepted _ _ _ _ _ Hacc Hmatch) as (w1 & Hloop & _).
      destruct (match_loop_trades _ _ _ _ _ _ Hwf' Hacc Hloop tr Htr)
        as (m & Hm & _ & Hact & _).
      rewrite Hname, cancel_book, Hr in Hm. injection Hm as <-.
      by rewrite Heq in Hact.
    - destruct (match_order_rejected _ _ _ _ _ Hrej Hmatch) as [_ ->].
      by apply elem_of_nil in Htr. }
  split; [done|]. by apply maker_qty_none.
Qed.

Lemma canceled_order_never_trades_witness :
  reachable Scenario.two_asks
  ∧ (cancel "a" Scenario.two_asks).2 = true
  ∧ maker_qty "a" [mkTrade "AAPL" (Some 200) 1 "b" "g"] = 0.
Proof.
  split; [apply reachable_two_asks|].
  assert (Hok : (cancel "a" Scenario.two_asks).2 = true) by by vm_compute.
  split; [exact Hok|].
  apply (canceled_order_never_trades "a" 8 6 Scenario.two_asks
           (Scenario.submit 6 Scenario.canceled_ask)
           [mkTrade "AAPL" (Some 200) 1 "b" "g"] reachable_two_asks Hok).
  by vm_compute.
Defined.

(** ** No exception out of a call *)

Lemma constructed_limit_price o :
  constructed o → type o = LIMIT → is_Some (price_cents o).
Proof.
  intros (uid & sym & sd & ty & q & price & coid & oid & ms & Hnew) Hty.
  unfold new_order in Hnew. case_bool_decide; [done|].
  destruct ty, price as [p|]; try done.
  - case_bool_decide; [done|]. injection Hnew as <-. by eauto.
  - injection Hnew as <-. done.
Qed.

Lemma engine_steps_frozen w0 w r :
  wf w0 → rtc engine_step w0 w → frozen (heap w0 r) (heap w r).
Proof.
  intros Hwf Hsteps. induction Hsteps as [w|w1 w2 w3 Hstep Hsteps IH].
  - apply frozen_refl.
  - destruct (engine_step_objects w1 w2 r Hwf Hstep) as (Hfr & _).
    eapply frozen_trans; [done|]. apply IH. by eapply wf_engine_step.
Qed.

Lemma reachable_limit_price w r :
  reachable w → type (heap w r) = LIMIT → is_Some (price_cents (heap w r)).
Proof.
  intros (w0 & Hinit & Hsteps) Hty.
  destruct (engine_steps_frozen w0 w r (wf_initial _ Hinit) Hsteps)
    as (_ & _ & Hpr & _ & Hty' & _).
  rewrite Hpr. destruct Hinit as [Hobj _].
  apply constructed_limit_price; [done|congruence].
Qed.

Lemma crosses_priced o b :
  is_Some (price_cents o) → ∃ c, crosses o b = Ok c.
Proof.
  intros [p Hp]. unfold crosses. rewrite Hp.
  destruct (side o), (best_ask b), (best_bid b); by eauto.
Qed.

Lemma match_loop_no_raise fuel n t w e :
  wf w → accepted w t → is_Some (price_cents (heap w t)) →
  match_loop fuel n t w ≠ Raise e.
Proof.
  revert w. induction n as [|n IH]; simpl; intros w Hwf Hacc Hpr;
    case_bool_decide as Hrem; try done.
  destruct (match_step fuel t w) as [[w1 step]|e'|] eqn:Hstep; simpl;
    try done.
  - destruct step as [tr|]; [|done].
    destruct (match_step_frame _ _ _ _ _ Hwf Hstep) as (Ho & Hsym & Hfr).
    assert (wf w1) as Hwf1 by by eapply wf_match_step.
    assert (accepted w1 t) as Hacc1 by by eapply frame_accepted.
    assert (is_Some (price_cents (heap w1 t))) as Hpr1
      by (by destruct (Hfr t) as (_ & _ & -> & _)).
    specialize (IH w1 Hwf1 Hacc1 Hpr1).
    by destruct (match_loop fuel n t w1) as [[w2 trades]| |].
  - unfold match_step in Hstep.
    destruct (crosses_priced (heap w t) (book w) Hpr) as [c Hc].
    rewrite Hc in Hstep. simpl in Hstep. destruct c; [|done].
    pose proof (get_best_resting_no_raise fuel
                  (opp_side (side (heap w t))) w) as Hnr.
    destruct (get_best_resting fuel _ w) as [[w0 [m|]]|e0|]; simpl in Hstep;
      try done.
    by destruct (Hnr e0).
Qed.

Lemma match_loop_steps_symbol fuel n t w w' trades :
  wf w → accepted w t →
  match_loop fuel n t w = Ok (w', trades) →
  book_symbol (book w') = book_symbol (book w).
Proof.
  intros Hwf0 Hacc0 Hloop0. pattern w, w', trades.
  eapply (match_loop_passes fuel t); [| | |exact Hwf0|exact Hacc0|exact Hloop0];
    clear.
  - done.
  - intros w w1 Hwf Hacc Hrem Hstep.
    by destruct (match_step_frame _ _ _ _ _ Hwf Hstep) as (_ & ? & _).
  - intros w w1 tr w2 trades Hwf Hacc Hrem Hstep Hwf1 Hacc1 IH.
    destruct (match_step_frame _ _ _ _ _ Hwf Hstep) as (_ & ? & _).
    congruence.
Qed.

(** X19: on a reachable book [match_order] raises nothing.  Given a
    budget above the number of prices listed on the opposite side and not
    below the taker's remaining quantity, the call returns a world and a
    list of trades, whatever order object is submitted. *)
Theorem match_order_returns fuel t w :
  reachable w →
  (length (prices (opp_side (side (heap w t))) (book w)) < fuel)%nat →
  (Z.to_nat (remaining_qty (heap w t)) ≤ fuel)%nat →
  ∃ w' trades, match_order fuel t w = Ok (w', trades).
Proof.
  intros Hreach Hfuel Hn. pose proof (reachable_wf _ Hreach) as Hwf.
  destruct (accepted_dec w t) as [Hacc|Hrej].
  - pose proof (reachable_limit_price w t Hreach (proj2 Hacc)) as Hpr.
    pose proof Hacc as [Hsym Hty]. unfold match_order.
    rewrite bool_decide_eq_false_2 by (by intros ?).
    rewrite bool_decide_eq_false_2 by (by intros ?).
    pose proof (match_loop_returns fuel fuel t w (wf_sides _ Hwf _) Hfuel Hn)
      as Hret.
    pose proof (match_loop_no_raise fuel fuel t w) as Hnr.
    destruct (match_loop fuel fuel t w) as [[w1 trades]|e|] eqn:Hloop;
      [|by destruct (Hnr e)|done].
    simpl. case_bool_decide; [|by eauto].
    destruct (match_loop_taker _ _ _ _ _ _ Hwf Hacc Hloop)
      as (_ & _ & (_ & _ & Hpr1 & Hsym1 & _) & _).
    unfold add_resting_limit.
    rewrite bool_decide_eq_false_2.
    + rewrite Hpr1. destruct Hpr as [p ->]. simpl. by eauto.
    + intros Hne. apply Hne. rewrite Hsym1, Hsym.
      destruct (match_loop_steps_symbol _ _ _ _ _ _ Hwf Hacc Hloop). done.
  - unfold match_order. case_bool_decide; [by eauto|].
    case_bool_decide; [by eauto|].
    destruct Hrej. split; first [done|by apply dec_stable].
Qed.

Lemma match_order_returns_witness :
  reachable Scenario.filled_ask
  ∧ ∃ w' trades, match_order 3 3 Scenario.filled_ask = Ok (w', trades).
Proof.
  split; [apply reachable_filled_ask|].
  apply (match_order_returns 3 3 Scenario.filled_ask);
    [apply reachable_filled_ask|vm_compute; lia..].
Defined.
